(** * Crucible: the streaming relay (server/routes.ts) and the stream
      client (lib/streaming.ts)

    A shallow embedding of the two event-stream decoders of the
    repository, of the ECMAScript and platform built-ins they call, and
    the properties of the relay protocol that hold (or fail) on them;
    then the screens that call the client, with the state of the
    application they update. *)

From Stdlib Require Import NArith ZArith List Bool Lia.
From Stdlib Require Import Strings.String Strings.Ascii Strings.Byte.
Import ListNotations.

Local Open Scope N_scope.
Local Open Scope list_scope.

(** ** ECMAScript strings

    A string value is a finite sequence of 16-bit code units. *)

Module JS.

Definition code_unit := N.
Definition jsstring := list code_unit.

Definition LF : code_unit := 10.
Definition QUOTE : code_unit := 34.

(** Source text of a string literal.  The apostrophe stands for the double
    quote U+0022, so that envelopes can be written as they appear on the
    wire; no literal of the program contains an apostrophe. *)
Definition js (s : string) : jsstring :=
  map (fun a => let c := N_of_ascii a in if c =? 39 then QUOTE else c)
      (list_ascii_of_string s).

Fixpoint str_eqb (a b : jsstring) : bool :=
  match a, b with
  | [], [] => true
  | x :: a', y :: b' => (x =? y) && str_eqb a' b'
  | _, _ => false
  end.

(** [String.prototype.startsWith] *)
Fixpoint startsWith (s prefix : jsstring) {struct prefix} : bool :=
  match prefix with
  | [] => true
  | p :: prefix' =>
      match s with
      | c :: s' => (c =? p) && startsWith s' prefix'
      | [] => false
      end
  end.

(** [String.prototype.slice(start)] for a non-negative start *)
Definition slice (s : jsstring) (start : nat) : jsstring := skipn start s.

(** WhiteSpace and LineTerminator code points, the set removed by
    [String.prototype.trim]. *)
Definition is_space (c : code_unit) : bool :=
  (c =? 9) || (c =? 10) || (c =? 11) || (c =? 12) || (c =? 13) || (c =? 32)
  || (c =? 160) || (c =? 5760) || ((8192 <=? c) && (c <=? 8202))
  || (c =? 8232) || (c =? 8233) || (c =? 8239) || (c =? 8287)
  || (c =? 12288) || (c =? 65279).

Fixpoint trimStart (s : jsstring) : jsstring :=
  match s with
  | c :: s' => if is_space c then trimStart s' else s
  | [] => []
  end.

Definition trimEnd (s : jsstring) : jsstring := rev (trimStart (rev s)).

Definition trim (s : jsstring) : jsstring := trimEnd (trimStart s).

(** [String.prototype.split(sep)] for a separator of one code unit: the
    segments between the occurrences of [sep]; never the empty array. *)
Fixpoint split (sep : code_unit) (s : jsstring) : list jsstring :=
  match s with
  | [] => [[]]
  | c :: s' =>
      if c =? sep then [] :: split sep s'
      else match split sep s' with
           | seg :: segs => (c :: seg) :: segs
           | [] => [[c]]
           end
  end.

(** [Array.prototype.pop]: the last element, [None] (undefined) on the
    empty array, and the array that remains. *)
Fixpoint pop {A} (l : list A) : option A * list A :=
  match l with
  | [] => (None, [])
  | x :: l' =>
      match l' with
      | [] => (Some x, [])
      | _ :: _ => let (last, rest) := pop l' in (last, x :: rest)
      end
  end.

(** Leading and trailing surrogates. *)
Definition is_high_surrogate (c : code_unit) : bool :=
  (0xD800 <=? c) && (c <=? 0xDBFF).
Definition is_low_surrogate (c : code_unit) : bool :=
  (0xDC00 <=? c) && (c <=? 0xDFFF).

(** The decimal digits of a non-negative integer, as [Number::toString]
    prints an integer below 2^53 (an HTTP status code). *)
Fixpoint digits_fuel (fuel : nat) (n : N) (acc : jsstring) : jsstring :=
  match fuel with
  | O => acc
  | S fuel' =>
      let acc' := (48 + n mod 10) :: acc in
      if n <? 10 then acc' else digits_fuel fuel' (n / 10) acc'
  end.

Definition decimal (n : N) : jsstring :=
  digits_fuel (S (N.to_nat (N.log2 n))) n [].

End JS.
Import JS.

(** ** Byte decoding

    The UTF-8 decoder of the Encoding standard: one handler per byte, a
    state of pending bytes, U+FFFD for every ill-formed subsequence. *)

Module Utf8.

Record state := {
  code_point : N;
  bytes_seen : N;
  bytes_needed : N;
  lower_boundary : N;
  upper_boundary : N
}.

Definition initial : state :=
  {| code_point := 0; bytes_seen := 0; bytes_needed := 0;
     lower_boundary := 0x80; upper_boundary := 0xBF |}.

Definition REPLACEMENT : N := 0xFFFD.

(** The handler when no byte is pending. *)
Definition lead (b : N) : state * list N :=
  if b <=? 0x7F then (initial, [b])
  else if (0xC2 <=? b) && (b <=? 0xDF) then
    ({| code_point := N.land b 0x1F; bytes_seen := 0; bytes_needed := 1;
        lower_boundary := 0x80; upper_boundary := 0xBF |}, [])
  else if (0xE0 <=? b) && (b <=? 0xEF) then
    ({| code_point := N.land b 0xF; bytes_seen := 0; bytes_needed := 2;
        lower_boundary := if b =? 0xE0 then 0xA0 else 0x80;
        upper_boundary := if b =? 0xED then 0x9F else 0xBF |}, [])
  else if (0xF0 <=? b) && (b <=? 0xF4) then
    ({| code_point := N.land b 0x7; bytes_seen := 0; bytes_needed := 3;
        lower_boundary := if b =? 0xF0 then 0x90 else 0x80;
        upper_boundary := if b =? 0xF4 then 0x8F else 0xBF |}, [])
  else (initial, [REPLACEMENT]).

(** One byte: the new state and the code points emitted.  A byte outside
    the boundaries ends the pending sequence with U+FFFD and is handled
    again as a first byte. *)
Definition step (st : state) (b : N) : state * list N :=
  if bytes_needed st =? 0 then lead b
  else if (b <? lower_boundary st) || (upper_boundary st <? b) then
    let (st', out) := lead b in (st', REPLACEMENT :: out)
  else
    let cp := N.lor (N.shiftl (code_point st) 6) (N.land b 0x3F) in
    if bytes_seen st + 1 =? bytes_needed st then (initial, [cp])
    else ({| code_point := cp; bytes_seen := bytes_seen st + 1;
             bytes_needed := bytes_needed st;
             lower_boundary := 0x80; upper_boundary := 0xBF |}, []).

Fixpoint run (st : state) (bs : list byte) : state * list N :=
  match bs with
  | [] => (st, [])
  | b :: bs' =>
      let (st1, out1) := step st (Byte.to_N b) in
      let (st2, out2) := run st1 bs' in
      (st2, out1 ++ out2)
  end.

(** End of input: a pending sequence is ill-formed. *)
Definition flush (st : state) : list N :=
  if bytes_needed st =? 0 then [] else [REPLACEMENT].

(** A code point as UTF-16 code units. *)
Definition utf16 (cp : N) : jsstring :=
  if cp <? 0x10000 then [cp]
  else [0xD800 + N.shiftr (cp - 0x10000) 10;
        0xDC00 + N.land (cp - 0x10000) 0x3FF].

(** [Buffer.prototype.toString()]: the whole buffer decoded at once, every
    call on its own. *)
Definition Buffer_toString (chunk : list byte) : jsstring :=
  let (st, cps) := run initial chunk in
  flat_map utf16 (cps ++ flush st).

(** [new TextDecoder()]: UTF-8, not fatal, the byte order mark removed. *)
Record TextDecoder := { partial : state; bom_seen : bool }.

Definition new_TextDecoder : TextDecoder :=
  {| partial := initial; bom_seen := false |}.

(** [decoder.decode(value, { stream: true })]: pending bytes are kept for
    the next call; the first code point of the stream is dropped when it
    is U+FEFF. *)
Definition decode_stream (d : TextDecoder) (value : list byte)
  : TextDecoder * jsstring :=
  let (st, cps) := run (partial d) value in
  let cps' :=
    if bom_seen d then cps
    else match cps with
         | c :: rest => if c =? 0xFEFF then rest else cps
         | [] => []
         end in
  ({| partial := st;
      bom_seen := bom_seen d || match cps with [] => false | _ => true end |},
   flat_map utf16 cps').

(** The code points of a string: a surrogate pair is one code point, a
    lone surrogate is replaced by U+FFFD. *)
Fixpoint code_points (s : jsstring) : list N :=
  match s with
  | [] => []
  | c :: r =>
      if is_high_surrogate c then
        match r with
        | d :: r' =>
            if is_low_surrogate d
            then (0x10000 + (c - 0xD800) * 0x400 + (d - 0xDC00)) :: code_points r'
            else REPLACEMENT :: code_points r
        | [] => [REPLACEMENT]
        end
      else if is_low_surrogate c then REPLACEMENT :: code_points r
      else c :: code_points r
  end.

Definition byte_of (n : N) : byte :=
  match Byte.of_N n with
  | Some b => b
  | None => x00
  end.

Definition encode (cp : N) : list byte :=
  if cp <? 0x80 then [byte_of cp]
  else if cp <? 0x800 then
    [byte_of (0xC0 + cp / 64); byte_of (0x80 + cp mod 64)]
  else if cp <? 0x10000 then
    [byte_of (0xE0 + cp / 4096); byte_of (0x80 + (cp / 64) mod 64);
     byte_of (0x80 + cp mod 64)]
  else
    [byte_of (0xF0 + cp / 262144); byte_of (0x80 + (cp / 4096) mod 64);
     byte_of (0x80 + (cp / 64) mod 64); byte_of (0x80 + cp mod 64)].

(** [Buffer.from(string)]: the UTF-8 bytes that [res.write(string)] sends
    and that an upstream sends for a text. *)
Definition Buffer_from (s : jsstring) : list byte :=
  flat_map encode (code_points s).

(** Bytes of a source literal (see [js] for the apostrophe). *)
Definition bytes (s : string) : list byte :=
  map (fun b => if Byte.eqb b "'"%byte then x22 else b) (list_byte_of_string s).

End Utf8.
Import Utf8.

(** ** JSON values, [JSON.parse] and [JSON.stringify] *)

Module Json.

(** A number is kept as the decimal literal read: the value is the IEEE
    double nearest to [(-1)^negative * mantissa * 10^exp10]. *)
Record number := { negative : bool; mantissa : N; exp10 : Z }.

#[warnings="-register-all"]
Inductive json :=
| JNull
| JBool (b : bool)
| JNum (n : number)
| JStr (s : jsstring)
| JArr (elements : list json)
| JObj (properties : list (jsstring * json)).

(** A value read from a property: [None] is [undefined]. *)
Definition jsval := option json.

(** The literal denotes +0 or -0: the mantissa is zero, or the value is at
    most 2^-1075, half of the least positive double. *)
Definition number_is_zero (n : number) : bool :=
  (mantissa n =? 0)
  || match exp10 n with
     | Zneg p => mantissa n * 2 ^ 1075 <=? 10 ^ (Npos p)
     | _ => false
     end.

(** ToBoolean *)
Definition truthy (v : jsval) : bool :=
  match v with
  | None => false
  | Some JNull => false
  | Some (JBool b) => b
  | Some (JNum n) => negb (number_is_zero n)
  | Some (JStr s) => match s with [] => false | _ => true end
  | Some (JArr _) => true
  | Some (JObj _) => true
  end.

(** *** Objects: own properties in enumeration order *)

Fixpoint digits_value (s : jsstring) (acc : N) : option N :=
  match s with
  | [] => Some acc
  | c :: s' =>
      if (48 <=? c) && (c <=? 57) then digits_value s' (10 * acc + (c - 48))
      else None
  end.

(** An array index: the canonical decimal form of an integer below
    2^32 - 1. *)
Definition array_index (k : jsstring) : option N :=
  match k with
  | [] => None
  | _ =>
      match digits_value k 0 with
      | Some n => if str_eqb (decimal n) k && (n <? 4294967295)
                  then Some n else None
      | None => None
      end
  end.

(** CreateDataProperty on an ordinary object: an existing key keeps its
    place and takes the new value; a new array index goes in ascending
    order before the other keys, a new name goes last. *)
Fixpoint define (props : list (jsstring * json)) (k : jsstring) (v : json)
  : list (jsstring * json) :=
  match props with
  | [] => [(k, v)]
  | (k', v') :: rest =>
      if str_eqb k k' then (k, v) :: rest
      else match array_index k, array_index k' with
           | Some i, Some i' =>
               if i <? i' then (k, v) :: props
               else (k', v') :: define rest k v
           | Some _, None => (k, v) :: props
           | None, _ => (k', v') :: define rest k v
           end
  end.

Fixpoint lookup (props : list (jsstring * json)) (k : jsstring) : jsval :=
  match props with
  | [] => None
  | (k', v) :: rest => if str_eqb k k' then Some v else lookup rest k
  end.

(** [o.name] on a value that is neither null nor undefined, for a name
    that is not an array index, not [length] and not on a built-in
    prototype (the program reads content, error, choices and delta): only
    an object can own it. *)
Definition Get (o : json) (name : jsstring) : jsval :=
  match o with
  | JObj props => lookup props name
  | _ => None
  end.

(** [o[0]] on a value that is neither null nor undefined. *)
Definition Get0 (o : json) : jsval :=
  match o with
  | JObj props => lookup props (js "0")
  | JArr elements => hd_error elements
  | JStr (c :: _) => Some (JStr [c])
  | _ => None
  end.

(** *** JSON.parse *)

Inductive presult (A : Type) :=
| Parsed (a : A) (rest : jsstring)
| SyntaxError
| OutOfFuel.
Arguments Parsed {A} a rest.
Arguments SyntaxError {A}.
Arguments OutOfFuel {A}.

Definition pmap {A B} (f : A -> B) (r : presult A) : presult B :=
  match r with
  | Parsed a rest => Parsed (f a) rest
  | SyntaxError => SyntaxError
  | OutOfFuel => OutOfFuel
  end.

Definition is_ws (c : code_unit) : bool :=
  (c =? 9) || (c =? 10) || (c =? 13) || (c =? 32).

Fixpoint skip_ws (s : jsstring) : jsstring :=
  match s with
  | c :: s' => if is_ws c then skip_ws s' else s
  | [] => []
  end.

Definition is_digit (c : code_unit) : bool := (48 <=? c) && (c <=? 57).

Definition hex_value (c : code_unit) : option N :=
  if (48 <=? c) && (c <=? 57) then Some (c - 48)
  else if (97 <=? c) && (c <=? 102) then Some (c - 87)
  else if (65 <=? c) && (c <=? 70) then Some (c - 55)
  else None.

Definition hex4 (h1 h2 h3 h4 : code_unit) : option code_unit :=
  match hex_value h1, hex_value h2, hex_value h3, hex_value h4 with
  | Some a, Some b, Some c, Some d => Some (4096 * a + 256 * b + 16 * c + d)
  | _, _, _, _ => None
  end.

(** The character after a backslash, [u] apart. *)
Definition unescape (e : code_unit) : option code_unit :=
  if e =? 34 then Some 34          (* quotation mark *)
  else if e =? 92 then Some 92     (* reverse solidus *)
  else if e =? 47 then Some 47     (* solidus *)
  else if e =? 98 then Some 8      (* b: backspace *)
  else if e =? 102 then Some 12    (* f: form feed *)
  else if e =? 110 then Some 10    (* n: line feed *)
  else if e =? 114 then Some 13    (* r: carriage return *)
  else if e =? 116 then Some 9     (* t: tab *)
  else None.

(** The characters of a string literal, after its opening quote. *)
Fixpoint parse_chars (s : jsstring) : presult jsstring :=
  match s with
  | [] => SyntaxError
  | c :: r =>
      if c =? 34 then Parsed [] r
      else if c =? 92 then
        match r with
        | [] => SyntaxError
        | e :: r' =>
            if e =? 117 then
              match r' with
              | h1 :: h2 :: h3 :: h4 :: r'' =>
                  match hex4 h1 h2 h3 h4 with
                  | Some u => pmap (cons u) (parse_chars r'')
                  | None => SyntaxError
                  end
              | _ => SyntaxError
              end
            else
              match unescape e with
              | Some u => pmap (cons u) (parse_chars r')
              | None => SyntaxError
              end
        end
      else if c <? 32 then SyntaxError
      else pmap (cons c) (parse_chars r)
  end.

Fixpoint take_digits (s : jsstring) : jsstring * jsstring :=
  match s with
  | c :: s' =>
      if is_digit c then let (ds, rest) := take_digits s' in (c :: ds, rest)
      else ([], s)
  | [] => ([], [])
  end.

Definition digits_N (ds : jsstring) : N :=
  fold_left (fun acc c => 10 * acc + (c - 48)) ds 0.

(** The parts of a number literal. *)
Definition parse_sign (s : jsstring) : bool * jsstring :=
  match s with
  | c :: r => if c =? 45 then (true, r) else (false, s)
  | [] => (false, s)
  end.

Definition parse_int (s : jsstring) : option (jsstring * jsstring) :=
  match s with
  | d :: r =>
      if d =? 48 then Some ([d], r)
      else if is_digit d then Some (take_digits s)
      else None
  | [] => None
  end.

Definition parse_frac (s : jsstring) : option (jsstring * jsstring) :=
  match s with
  | c :: r =>
      if c =? 46 then
        match take_digits r with
        | ([], _) => None
        | (frac, rest) => Some (frac, rest)
        end
      else Some ([], s)
  | [] => Some ([], s)
  end.

Definition parse_exp (s : jsstring) : option (Z * jsstring) :=
  match s with
  | c :: r =>
      if (c =? 101) || (c =? 69) then
        let (eneg, r') :=
          match r with
          | sg :: r1 =>
              if sg =? 45 then (true, r1)
              else if sg =? 43 then (false, r1)
              else (false, r)
          | [] => (false, r)
          end in
        match take_digits r' with
        | ([], _) => None
        | (es, rest) =>
            let e := Z.of_N (digits_N es) in
            Some (if eneg then (- e)%Z else e, rest)
        end
      else Some (0%Z, s)
  | [] => Some (0%Z, s)
  end.

(** A number literal: an optional minus sign; the integer part, a single
    0 or a digit from 1 to 9 and further digits; an optional fraction, a
    point and at least one digit; an optional exponent, e or E, an optional
    sign and at least one digit. *)
Definition parse_number (s : jsstring) : presult number :=
  let (neg, s1) := parse_sign s in
  match parse_int s1 with
  | None => SyntaxError
  | Some (int, s2) =>
      match parse_frac s2 with
      | None => SyntaxError
      | Some (frac, s3) =>
          match parse_exp s3 with
          | None => SyntaxError
          | Some (e, s4) =>
              Parsed {| negative := neg;
                        mantissa := digits_N (int ++ frac);
                        exp10 := (e - Z.of_nat (List.length frac))%Z |} s4
          end
      end
  end.

Definition parse_literal (s : jsstring) : presult json :=
  if startsWith s (js "true") then Parsed (JBool true) (skipn 4 s)
  else if startsWith s (js "false") then Parsed (JBool false) (skipn 5 s)
  else if startsWith s (js "null") then Parsed JNull (skipn 4 s)
  else SyntaxError.

(** A value, the elements of an array after its bracket, the members of an
    object after its brace.  Every call takes one unit of fuel. *)
Fixpoint parse_value (fuel : nat) (s : jsstring) {struct fuel} : presult json :=
  match fuel with
  | O => OutOfFuel
  | S fuel' =>
      match skip_ws s with
      | [] => SyntaxError
      | c :: r =>
          if c =? 123 then
            match skip_ws r with
            | c' :: r' =>
                if c' =? 125 then Parsed (JObj []) r'
                else parse_members fuel' r []
            | [] => SyntaxError
            end
          else if c =? 91 then
            match skip_ws r with
            | c' :: r' =>
                if c' =? 93 then Parsed (JArr []) r'
                else parse_elements fuel' r []
            | [] => SyntaxError
            end
          else if c =? 34 then pmap JStr (parse_chars r)
          else if (c =? 45) || is_digit c then pmap JNum (parse_number (c :: r))
          else parse_literal (c :: r)
      end
  end

with parse_elements (fuel : nat) (s : jsstring) (acc : list json)
  {struct fuel} : presult json :=
  match fuel with
  | O => OutOfFuel
  | S fuel' =>
      match parse_value fuel' s with
      | Parsed v r =>
          match skip_ws r with
          | c :: r' =>
              if c =? 44 then parse_elements fuel' r' (v :: acc)
              else if c =? 93 then Parsed (JArr (rev (v :: acc))) r'
              else SyntaxError
          | [] => SyntaxError
          end
      | SyntaxError => SyntaxError
      | OutOfFuel => OutOfFuel
      end
  end

with parse_members (fuel : nat) (s : jsstring) (acc : list (jsstring * json))
  {struct fuel} : presult json :=
  match fuel with
  | O => OutOfFuel
  | S fuel' =>
      match skip_ws s with
      | c :: r =>
          if c =? 34 then
            match parse_chars r with
            | Parsed k r1 =>
                match skip_ws r1 with
                | c1 :: r2 =>
                    if c1 =? 58 then
                      match parse_value fuel' r2 with
                      | Parsed v r3 =>
                          match skip_ws r3 with
                          | c3 :: r4 =>
                              if c3 =? 44
                              then parse_members fuel' r4 (define acc k v)
                              else if c3 =? 125
                              then Parsed (JObj (define acc k v)) r4
                              else SyntaxError
                          | [] => SyntaxError
                          end
                      | SyntaxError => SyntaxError
                      | OutOfFuel => OutOfFuel
                      end
                    else SyntaxError
                | [] => SyntaxError
                end
            | SyntaxError => SyntaxError
            | OutOfFuel => OutOfFuel
            end
          else SyntaxError
      | [] => SyntaxError
      end
  end.

(** Fuel that no text exhausts (lemma [parse_value_fuel]). *)
Definition parse_fuel (text : jsstring) : nat := 2 * List.length text + 1.

(** [JSON.parse(text)]: the value, or [None] when it throws SyntaxError. *)
Definition JSON_parse (text : jsstring) : option json :=
  match parse_value (parse_fuel text) text with
  | Parsed v rest => match skip_ws rest with [] => Some v | _ => None end
  | _ => None
  end.

(** *** JSON.stringify *)

Definition hex_digit (d : N) : code_unit := if d <? 10 then 48 + d else 87 + d.

Definition unicode_escape (c : code_unit) : jsstring :=
  [92; 117; hex_digit (c / 4096); hex_digit ((c / 256) mod 16);
   hex_digit ((c / 16) mod 16); hex_digit (c mod 16)].

(** A code unit that is not a surrogate. *)
Definition quote_unit (c : code_unit) : jsstring :=
  if c =? 8 then [92; 98]
  else if c =? 9 then [92; 116]
  else if c =? 10 then [92; 110]
  else if c =? 12 then [92; 102]
  else if c =? 13 then [92; 114]
  else if c =? 34 then [92; 34]
  else if c =? 92 then [92; 92]
  else if c <? 32 then unicode_escape c
  else [c].

(** QuoteJSONString walks the code points: a surrogate pair is copied, a
    lone surrogate is escaped. *)
Fixpoint quote_chars (s : jsstring) : jsstring :=
  match s with
  | [] => []
  | c :: r =>
      if is_high_surrogate c then
        match r with
        | d :: r' =>
            if is_low_surrogate d then c :: d :: quote_chars r'
            else unicode_escape c ++ quote_chars r
        | [] => unicode_escape c
        end
      else if is_low_surrogate c then unicode_escape c ++ quote_chars r
      else quote_unit c ++ quote_chars r
  end.

Definition QuoteJSONString (s : jsstring) : jsstring :=
  QUOTE :: quote_chars s ++ [QUOTE].

Fixpoint join (sep : jsstring) (items : list jsstring) : jsstring :=
  match items with
  | [] => []
  | [x] => x
  | x :: rest => x ++ sep ++ join sep rest
  end.

(** [JSON.stringify(v)] without indentation, for a value without a
    number.  [None] does not say that nothing is written: it stands for
    the text of a value that holds a number, which this development
    leaves undetermined.  The code writes Number::toString there (the
    shortest decimal that reads back as the same double), and [null] for
    a number beyond the range of a double, which JSON.parse reads as an
    infinity. *)
Fixpoint JSON_stringify (v : json) : option jsstring :=
  match v with
  | JNull => Some (js "null")
  | JBool true => Some (js "true")
  | JBool false => Some (js "false")
  | JNum _ => None
  | JStr s => Some (QuoteJSONString s)
  | JArr elements =>
      let fix items (l : list json) : option (list jsstring) :=
        match l with
        | [] => Some []
        | x :: l' =>
            match JSON_stringify x, items l' with
            | Some t, Some ts => Some (t :: ts)
            | _, _ => None
            end
        end in
      option_map (fun ts => js "[" ++ join (js ",") ts ++ js "]") (items elements)
  | JObj props =>
      let fix members (l : list (jsstring * json)) : option (list jsstring) :=
        match l with
        | [] => Some []
        | (k, x) :: l' =>
            match JSON_stringify x, members l' with
            | Some t, Some ts => Some ((QuoteJSONString k ++ js ":" ++ t) :: ts)
            | _, _ => None
            end
        end in
      option_map (fun ts => js "{" ++ join (js ",") ts ++ js "}") (members props)
  end.

End Json.
Import Json.

(** ** Control flow shared by the two decoders *)

(** The completion of a [try] block: the calls it made, or an exception
    raised before any call. *)
Inductive completion (A : Type) :=
| Normal (a : A)
| Throw.
Arguments Normal {A} a.
Arguments Throw {A}.

(** [try { ... } catch {}] *)
Definition catch {A} (c : completion (list A)) : list A :=
  match c with
  | Normal calls => calls
  | Throw => []
  end.

(** [v?.p]: undefined when [v] is null or undefined. *)
Definition optional (v : jsval) (p : json -> jsval) : jsval :=
  match v with
  | None => None
  | Some JNull => None
  | Some o => p o
  end.

(** [lines.pop() || ""] *)
Definition pop_or_empty (lines : list jsstring) : jsstring * list jsstring :=
  let (last, lines') := pop lines in
  (match last with
   | Some l => if truthy (Some (JStr l)) then l else []
   | None => []
   end, lines').

Definition DATA_PREFIX : jsstring := js "data: ".
Definition DONE : jsstring := js "[DONE]".

(** ** The relay: registerRoutes (server/routes.ts) *)

Module Relay.

Inductive endpoint := chat | generate_module | self_modify.

(** The argument of [res.write]: a string literal, or the template
    [`data: ${JSON.stringify(payload)}\n\n`]. *)
Inductive written :=
| Text (s : jsstring)
| Data (payload : json).

(** The text written; [None] where [JSON_stringify] leaves it
    undetermined (a payload that holds a number). *)
Definition text_of (w : written) : option jsstring :=
  match w with
  | Text s => Some s
  | Data payload =>
      option_map (fun t => DATA_PREFIX ++ t ++ [LF; LF]) (JSON_stringify payload)
  end.

(** The calls a handler makes on the downstream response. *)
Inductive res_call :=
| res_status (code : N)
| res_json (body : json)
| res_json_caught        (* res.json({ error: err.message }), err caught *)
| res_setHeader (name value : jsstring)
| res_flushHeaders
| res_write (w : written)
| res_end.

Definition TERMINATOR : written := Text (js "data: [DONE]" ++ [LF; LF]).

Definition content_envelope (content : json) : written :=
  Data (JObj [(js "content", content)]).

Definition error_envelope (message : jsstring) : written :=
  Data (JObj [(js "error", JStr message)]).

(** [parsed.choices?.[0]?.delta?.content] for a parsed value that is not
    null. *)
Definition delta_content (parsed : json) : jsval :=
  optional (optional (optional (Get parsed (js "choices")) Get0)
                     (fun o => Get o (js "delta")))
           (fun o => Get o (js "content")).

(** The body of the [try] of both stream handlers: the content found, or
    the empty string in its place, written when truthy.  Reading [choices]
    from null throws. *)
Definition try_forward (data : jsstring) : completion (list res_call) :=
  match JSON_parse data with
  | None => Throw
  | Some JNull => Throw
  | Some parsed =>
      let found := delta_content parsed in
      let content := if truthy found then found else Some (JStr []) in
      Normal (match content with
              | Some c => if truthy content
                          then [res_write (content_envelope c)] else []
              | None => []
              end)
  end.

(** One line of the [data] handler. *)
Definition data_line (line : jsstring) : list res_call :=
  if negb (startsWith line DATA_PREFIX) then []
  else
    let data := trim (slice line 6) in
    if str_eqb data DONE then [res_write TERMINATOR]
    else catch (try_forward data).

(** One line of the [end] handler. *)
Definition end_line (line : jsstring) : list res_call :=
  if negb (startsWith line DATA_PREFIX) then []
  else
    let data := trim (slice line 6) in
    if str_eqb data DONE then []
    else catch (try_forward data).

(** [proxyRes.on("data", ...)]: the new buffer and the calls made. *)
Definition on_data (buffer : jsstring) (chunk : list byte)
  : jsstring * list res_call :=
  let buffer1 := buffer ++ Buffer_toString chunk in
  let (buffer2, lines) := pop_or_empty (split LF buffer1) in
  (buffer2, flat_map data_line lines).

(** [proxyRes.on("end", ...)] *)
Definition on_end (buffer : jsstring) : list res_call :=
  (if truthy (Some (JStr (trim buffer)))
   then flat_map end_line (split LF buffer) else [])
  ++ [res_write TERMINATOR; res_end].

(** The [error] listeners of the response and of the request. *)
Definition on_error (message : jsstring) : list res_call :=
  [res_write (error_envelope message); res_end].

(** What the upstream connection does, in order. *)
Inductive upstream_event :=
| response                               (* the callback of https.request *)
| response_data (chunk : list byte)
| response_end
| response_error (message : jsstring)
| request_error (message : jsstring).

(** The state is the [buffer] of the response callback, [None] until the
    callback has run.  The listeners of the response exist from then on;
    /api/self-modify registers a second [error] listener on the request
    inside the callback. *)
Definition upstream_step (ep : endpoint) (st : option jsstring)
  (ev : upstream_event) : option jsstring * list res_call :=
  match ev, st with
  | response, _ => (Some [], [])
  | response_data chunk, Some buffer =>
      let (buffer', calls) := on_data buffer chunk in (Some buffer', calls)
  | response_end, Some buffer => (st, on_end buffer)
  | response_error message, Some _ => (st, on_error message)
  | request_error message, Some _ =>
      (st, match ep with
           | self_modify => on_error message ++ on_error message
           | _ => on_error message
           end)
  | request_error message, None => (st, on_error message)
  | _, None => (st, [])
  end.

Fixpoint upstream_run (ep : endpoint) (st : option jsstring)
  (evs : list upstream_event) : list res_call :=
  match evs with
  | [] => []
  | ev :: evs' =>
      let (st', calls) := upstream_step ep st ev in
      calls ++ upstream_run ep st' evs'
  end.

(** The messages of the upstream request, per endpoint: the caller's turns
    as they are, or the fixed system prompt and a user message built
    around the caller's fields. *)
Inductive prompt :=
| Turns (messages : jsval)
| Transform (code : jsval)
| Modify (code instruction : jsval).

(** The request handed to [https.request]: the key of the Authorization
    header, the messages and the temperature of the payload. *)
Record upstream_request := {
  bearer : json;
  messages : prompt;
  temperature : number
}.

Definition tenths (n : N) : number :=
  {| negative := false; mantissa := n; exp10 := (-1)%Z |}.

Definition request_for (ep : endpoint) (body : json) (key : json)
  : upstream_request :=
  match ep with
  | chat =>
      {| bearer := key; messages := Turns (Get body (js "messages"));
         temperature := tenths 7 |}
  | generate_module =>
      {| bearer := key; messages := Transform (Get body (js "code"));
         temperature := tenths 6 |}
  | self_modify =>
      {| bearer := key;
         messages := Modify (Get body (js "code")) (Get body (js "instruction"));
         temperature := tenths 5 |}
  end.

Definition STREAM_HEADERS : list res_call :=
  [res_setHeader (js "Content-Type") (js "text/event-stream");
   res_setHeader (js "Cache-Control") (js "no-cache, no-transform");
   res_setHeader (js "X-Accel-Buffering") (js "no");
   res_flushHeaders].

Definition NO_KEY : list res_call :=
  [res_status 400;
   res_json (JObj [(js "error", JStr (js "No API key configured"))])].

(** Whether ToString completes on a value read from JSON, as a template
    literal applies it.  It throws a TypeError on an object that has an
    own property [toString]: the property is never callable and
    Object.prototype.valueOf returns the object itself.  Any other object
    reads [object Object]; an array is its elements joined by commas,
    each converted in turn. *)
Fixpoint converts (v : json) : bool :=
  match v with
  | JArr elements => forallb converts elements
  | JObj props =>
      match lookup props (js "toString") with
      | Some _ => false
      | None => true
      end
  | _ => true
  end.

(** [`${v}`] on a property that may be undefined. *)
Definition renders (v : jsval) : bool :=
  match v with
  | Some x => converts x
  | None => true
  end.

(** The code units [https.request] accepts in the value of a header: the
    tab, 0x20 to 0x7E and 0x80 to 0xFF; for any other it throws
    ERR_INVALID_CHAR. *)
Definition header_unit (c : code_unit) : bool :=
  (c =? 9) || ((32 <=? c) && (c <=? 126)) || ((128 <=? c) && (c <=? 255)).

(** Whether ToString(v) holds such code units only, for a value that
    converts: the text of a number, of a boolean, of null and of an object
    is made of ASCII letters, digits and signs. *)
Fixpoint header_value (v : json) : bool :=
  match v with
  | JStr s => forallb header_unit s
  | JArr elements => forallb header_value elements
  | _ => true
  end.

(** From [res.flushHeaders()] to [https.request]: the template literals
    of the payload ([code] and [instruction], where the endpoint has
    them) and of the Authorization header are evaluated, then
    [https.request] checks the headers.  [Throw] is an exception of
    either. *)
Definition open_upstream (ep : endpoint) (body key : json)
  : completion upstream_request :=
  let payload :=
    match ep with
    | chat => true
    | generate_module => renders (Get body (js "code"))
    | self_modify =>
        renders (Get body (js "code"))
        && renders (Get body (js "instruction"))
    end in
  if payload && converts key && header_value key
  then Normal (request_for ep body key)
  else Throw.

(** A route handler up to [proxyReq.end()]: the calls on the response and
    the upstream request it opens, if any.  [body] is [req.body],
    undefined when no body was parsed (destructuring it then throws and the
    [catch] of the handler answers 500); [env_key] is
    [process.env.NVIDIA_NIM_API_KEY], undefined when unset.  An exception
    after the headers were flushed reaches the same [catch], which then
    does nothing: no request exists and the response is left as it is. *)
Definition handler (ep : endpoint) (body : jsval) (env_key : option jsstring)
  : list res_call * option upstream_request :=
  match body with
  | None => ([res_status 500; res_json_caught], None)
  | Some JNull => ([res_status 500; res_json_caught], None)
  | Some b =>
      let apiKey := Get b (js "apiKey") in
      let key := if truthy apiKey then apiKey else option_map JStr env_key in
      match key with
      | Some k =>
          if negb (truthy key) then (NO_KEY, None)
          else (STREAM_HEADERS,
                match open_upstream ep b k with
                | Normal request => Some request
                | Throw => None
                end)
      | None => (NO_KEY, None)
      end
  end.

(** A whole exchange: the handler, then the events of the upstream
    connection when one was opened. *)
Definition session (ep : endpoint) (body : jsval) (env_key : option jsstring)
  (evs : list upstream_event) : list res_call :=
  let (calls, opened) := handler ep body env_key in
  match opened with
  | Some _ => calls ++ upstream_run ep None evs
  | None => calls
  end.

(** The calls of the streaming phase for a response that delivers
    [chunks] and ends. *)
Definition stream (ep : endpoint) (chunks : list (list byte)) : list res_call :=
  upstream_run ep None (response :: map response_data chunks ++ [response_end]).

(** The strings written, in order. *)
Fixpoint writes (calls : list res_call) : list written :=
  match calls with
  | [] => []
  | res_write w :: calls' => w :: writes calls'
  | _ :: calls' => writes calls'
  end.

(** The body as text: the concatenation of the writes. *)
Fixpoint body_text (ws : list written) : option jsstring :=
  match ws with
  | [] => Some []
  | w :: ws' =>
      match text_of w, body_text ws' with
      | Some t, Some ts => Some (t ++ ts)
      | _, _ => None
      end
  end.

End Relay.
Import Relay.

(** ** The stream client: streamFromApi (lib/streaming.ts) *)

Module Client.

(** What [reader.read()] resolves to, or its rejection. *)
Inductive read_result :=
| value (chunk : list byte)
| done
| read_error (message : jsstring).

(** The response of [fetch]: [text] is what [response.text()] resolves
    to, [body] the results the reader of [response.body] will give, in
    order, [None] when there is no body. *)
Record Response := {
  ok : bool;
  status : N;
  text : jsstring;
  body : option (list read_result)
}.

(** The calls made on the caller's callbacks. *)
Inductive callback :=
| onChunk (text : json)
| onError (error : json).

(** How the promise of [streamFromApi] settles; [pending] when the source
    never signals its end. *)
Inductive settled :=
| resolved
| rejected (message : jsstring)
| pending.

Definition call_if (v : jsval) (f : json -> callback) : list callback :=
  match v with
  | Some x => if truthy v then [f x] else []
  | None => []
  end.

(** The body of the [try]: [parsed.content] and [parsed.error]. *)
Definition try_dispatch (has_onError : bool) (data : jsstring)
  : completion (list callback) :=
  match JSON_parse data with
  | None => Throw
  | Some JNull => Throw
  | Some parsed =>
      Normal (call_if (Get parsed (js "content")) onChunk
              ++ (if has_onError
                  then call_if (Get parsed (js "error")) onError else []))
  end.

(** One line of the [for] loop. *)
Definition process_line (has_onError : bool) (line : jsstring) : list callback :=
  if negb (startsWith line DATA_PREFIX) then []
  else
    let data := trim (slice line 6) in
    if str_eqb data DONE then []
    else catch (try_dispatch has_onError data).

(** One iteration of the [while] loop on a chunk read. *)
Definition on_value (has_onError : bool) (decoder : TextDecoder)
  (buffer : jsstring) (chunk : list byte)
  : TextDecoder * jsstring * list callback :=
  let (decoder', decoded) := decode_stream decoder chunk in
  let buffer1 := buffer ++ decoded in
  let (buffer2, lines) := pop_or_empty (split LF buffer1) in
  (decoder', buffer2, flat_map (process_line has_onError) lines).

(** The [while (true)] loop over the results of the reader. *)
Fixpoint read_loop (has_onError : bool) (decoder : TextDecoder)
  (buffer : jsstring) (source : list read_result) : list callback * settled :=
  match source with
  | [] => ([], pending)
  | done :: _ => ([], resolved)
  | read_error message :: _ => ([], rejected message)
  | value chunk :: source' =>
      let '(decoder', buffer', calls) :=
        on_value has_onError decoder buffer chunk in
      let (calls', outcome) := read_loop has_onError decoder' buffer' source' in
      (calls ++ calls', outcome)
  end.

(** [streamFromApi] from the response of [fetch] on. *)
Definition streamFromApi (r : Response) (has_onError : bool)
  : list callback * settled :=
  if negb (ok r)
  then ([], rejected (js "API error " ++ decimal (status r) ++ js ": " ++ text r))
  else
    match body r with
    | None => ([], rejected (js "No response body"))
    | Some source => read_loop has_onError new_TextDecoder [] source
    end.

End Client.
Import Client.

(** ** The callers of the stream client *)

(** [s += v] appends ToString(v).  [None] stands for a value whose
    conversion is outside this development: a number (Number::toString),
    an array or an object (their conversion goes through the methods and
    the properties of the value). *)
Definition ToString (v : json) : option jsstring :=
  match v with
  | JStr s => Some s
  | JBool true => Some (js "true")
  | JBool false => Some (js "false")
  | JNull => Some (js "null")
  | _ => None
  end.

(** [v || d] for a string or null [v]. *)
Definition or_default (v : option jsstring) (d : jsstring) : jsstring :=
  match v with
  | Some s => if truthy (Some (JStr s)) then s else d
  | None => d
  end.

(** [String.prototype.endsWith] *)
Definition endsWith (s suffix : jsstring) : bool :=
  (List.length suffix <=? List.length s)%nat
  && str_eqb (skipn (List.length s - List.length suffix) s) suffix.

(** *** The application state: AppProvider (lib/app-context.tsx) *)

Module App.

(** Adding one to a Number that counts ([msgCounter++], [prev + 1]), for
    an integer [n] that a double holds.  Below 2^53 the sum is exact.
    From 2^53 on the doubles are the even integers, so [n + 1] lies
    halfway between two of them and is rounded to the one whose
    significand is even, the multiple of four: [n] itself or [n + 2].
    From 2^54 on the doubles are four or more apart and the sum is
    rounded back to [n]. *)
Definition increment (n : N) : N :=
  if n <? 2 ^ 53 then n + 1
  else if n <? 2 ^ 54 then (if n mod 4 =? 0 then n else n + 2)
  else n.

(** [generateId]: [now] is what [Date.now()] returns and [random] what
    [Math.random().toString(36).substr(2, 9)] yields; the id comes with
    the new value of [msgCounter]. *)
Definition generateId (msgCounter now : N) (random : jsstring)
  : jsstring * N :=
  let msgCounter' := increment msgCounter in
  (js "id-" ++ decimal now ++ js "-" ++ decimal msgCounter' ++ js "-" ++ random,
   msgCounter').

Module Message.

Inductive Role := user | assistant.

Record ChatMessage := {
  id : jsstring;
  role : Role;
  content : jsstring;
  timestamp : N
}.

(** The updaters handed to [setChatMessages]: each returns the array it
    also hands to AsyncStorage. *)
Definition addChatMessage (msg : ChatMessage) (prev : list ChatMessage)
  : list ChatMessage :=
  prev ++ [msg].

Definition with_content (m : ChatMessage) (text : jsstring) : ChatMessage :=
  {| id := id m; role := role m; content := text; timestamp := timestamp m |}.

(** [updated[updated.length - 1] = { ...updated[updated.length - 1],
    content }] when the array is not empty. *)
Fixpoint updateLastMessage (text : jsstring) (prev : list ChatMessage)
  : list ChatMessage :=
  match prev with
  | [] => []
  | m :: prev' =>
      match prev' with
      | [] => [with_content m text]
      | _ :: _ => m :: updateLastMessage text prev'
      end
  end.

End Message.

Module Log.

Inductive LogType := info | success | error | warning.

Record BuildLog := {
  id : jsstring;
  message : jsstring;
  type : LogType;
  timestamp : N
}.

(** [addBuildLog]: [stamp] is what [generateId()] and [Date.now()] return
    inside the updater. *)
Definition addBuildLog (stamp : jsstring * N) (text : jsstring) (t : LogType)
  (prev : list BuildLog) : list BuildLog :=
  prev ++ [{| id := fst stamp; message := text; type := t;
              timestamp := snd stamp |}].

Definition clearBuildLogs (prev : list BuildLog) : list BuildLog := [].

End Log.

Module File.

Record FileEntry := {
  name : jsstring;
  content : jsstring;
  lastModified : N
}.

(** The files, the name of the file in the editor ([None] is null) and
    the text in the editor. *)
Record workspace := {
  files : list FileEntry;
  currentFile : option jsstring;
  editorCode : jsstring
}.

(** [prev.map(f => f.name === name ? { ...f, content, lastModified:
    Date.now() } : f)]: [now i] is the clock at its i-th reading. *)
Fixpoint update (now : nat -> N) (i : nat) (n text : jsstring)
  (prev : list FileEntry) : list FileEntry :=
  match prev with
  | [] => []
  | f :: prev' =>
      if str_eqb (name f) n
      then {| name := name f; content := text; lastModified := now i |}
           :: update now (S i) n text prev'
      else f :: update now i n text prev'
  end.

(** The updater of [saveFile]. *)
Definition save (now : nat -> N) (n text : jsstring) (prev : list FileEntry)
  : list FileEntry :=
  let updated := update now 0 n text prev in
  let exists_ := existsb (fun f => str_eqb (name f) n) prev in
  if exists_ then updated
  else prev ++ [{| name := n; content := text; lastModified := now 0%nat |}].

Definition saveFile (now : nat -> N) (n text : jsstring) (w : workspace)
  : workspace :=
  {| files := save now n text (files w);
     currentFile := currentFile w;
     editorCode := editorCode w |}.

Definition deleteFile (n : jsstring) (w : workspace) : workspace :=
  {| files := filter (fun f => negb (str_eqb (name f) n)) (files w);
     currentFile := match currentFile w with
                    | Some c => if str_eqb c n then None else Some c
                    | None => None
                    end;
     editorCode := editorCode w |}.

Definition createFile (now : N) (n : jsstring) (w : workspace) : workspace :=
  {| files := files w ++ [{| name := n; content := []; lastModified := now |}];
     currentFile := Some n;
     editorCode := [] |}.

(** [applyToEditor(code, fileName)]: the target is
    [fileName || currentFile || 'generated.kt']. *)
Definition applyToEditor (now : nat -> N) (code : jsstring)
  (fileName : option jsstring) (w : workspace) : workspace :=
  let target :=
    or_default (Some (or_default fileName (or_default (currentFile w) [])))
               (js "generated.kt") in
  saveFile now target code
    {| files := files w; currentFile := Some target; editorCode := code |}.

End File.

End App.

(** *** The chat screen: handleSend (app/(tabs)/chat.tsx) *)

Module Chat.

Import App.Message.

(** The state the handler reads and sets: the messages of the context and
    the three state variables of the screen. *)
Record state := {
  chatMessages : list ChatMessage;
  input : jsstring;
  isStreaming : bool;
  showTyping : bool
}.

Definition role_name (r : Role) : jsstring :=
  match r with
  | user => js "user"
  | assistant => js "assistant"
  end.

(** [{ role, content }] *)
Definition turn (r : jsstring) (text : jsstring) : json :=
  JObj [(js "role", JStr r); (js "content", JStr text)].

(** The body of the request: the history and the new text as messages,
    and the key of the context when it is not empty ([apiKey ||
    undefined]: JSON.stringify leaves an undefined member out). *)
Definition request_body (st : state) (apiKey : jsstring) : json :=
  JObj ((js "messages",
         JArr (map (fun m => turn (role_name (role m)) (content m))
                   (chatMessages st)
               ++ [turn (js "user") (trim (input st))]))
        :: (if truthy (Some (JStr apiKey))
            then [(js "apiKey", JStr apiKey)] else [])).

(** The callback given as [onChunk]: [fullContent], [assistantAdded] and
    the state; [reply] is the id and the timestamp of the message it
    adds. *)
Definition on_chunk (reply : jsstring * N)
  (acc : jsstring * bool * state) (chunk : jsstring)
  : jsstring * bool * state :=
  let '(fullContent, assistantAdded, st) := acc in
  let fullContent' := fullContent ++ chunk in
  if negb assistantAdded then
    let aiMsg := {| id := fst reply; role := assistant;
                    content := fullContent'; timestamp := snd reply |} in
    (fullContent', true,
     {| chatMessages := addChatMessage aiMsg (chatMessages st);
        input := input st; isStreaming := isStreaming st;
        showTyping := false |})
  else
    (fullContent', assistantAdded,
     {| chatMessages := updateLastMessage fullContent' (chatMessages st);
        input := input st; isStreaming := isStreaming st;
        showTyping := showTyping st |}).

(** The calls [streamFromApi] makes, run on that callback; no [onError]
    is given. *)
Fixpoint deliver (reply : jsstring * N) (calls : list callback)
  (acc : jsstring * bool * state) : option (jsstring * bool * state) :=
  match calls with
  | [] => Some acc
  | onChunk v :: calls' =>
      match ToString v with
      | Some chunk => deliver reply calls' (on_chunk reply acc chunk)
      | None => None
      end
  | onError _ :: calls' => deliver reply calls' acc
  end.

(** [handleSend] for the response [r] that [fetch] resolves to.  [sent]
    and [reply] are the id and the timestamp that [generateId()] and
    [Date.now()] return for the user's message and for the second message
    of the call, the assistant's or the error's.  The state is the one
    left when the handler has run as far as it can: the [finally] block
    is not reached while the promise is pending. *)
Definition handleSend (st : state) (sent reply : jsstring * N) (r : Response)
  : option state :=
  let text := trim (input st) in
  if negb (truthy (Some (JStr text))) || isStreaming st then Some st
  else
    let userMsg := {| id := fst sent; role := user; content := text;
                      timestamp := snd sent |} in
    let st1 := {| chatMessages := addChatMessage userMsg (chatMessages st);
                  input := []; isStreaming := true; showTyping := true |} in
    let (calls, outcome) := streamFromApi r false in
    match deliver reply calls ([], false, st1) with
    | None => None
    | Some (_, assistantAdded, st2) =>
        match outcome with
        | pending => Some st2
        | resolved =>
            Some {| chatMessages := chatMessages st2; input := input st2;
                    isStreaming := false; showTyping := false |}
        | rejected message =>
            let errMsg := {| id := fst reply; role := assistant;
                             content := js "Error: " ++ message;
                             timestamp := snd reply |} in
            Some {| chatMessages :=
                      if negb assistantAdded
                      then addChatMessage errMsg (chatMessages st2)
                      else chatMessages st2;
                    input := input st2;
                    isStreaming := false; showTyping := false |}
        end
    end.

End Chat.

(** *** The build screen: handleGenerate and handleSelfModify
        (app/(tabs)/build.tsx) *)

Module Build.

Import App.Log.

Record state := {
  generatedCode : jsstring;
  buildLogs : list BuildLog;
  isGenerating : bool;
  isCompiling : bool
}.

(** What a handler did: it showed an alert and returned, or it ran and
    left a state. *)
Inductive result :=
| Alert (title text : jsstring)
| Ran (st : state).

(** The bodies of the two requests. *)
Definition generate_body (editorCode apiKey : jsstring) : json :=
  JObj ((js "code", JStr editorCode)
        :: (if truthy (Some (JStr apiKey))
            then [(js "apiKey", JStr apiKey)] else [])).

Definition modify_body (editorCode modifyPrompt apiKey : jsstring) : json :=
  JObj ((js "code", JStr editorCode)
        :: (js "instruction", JStr modifyPrompt)
        :: (if truthy (Some (JStr apiKey))
            then [(js "apiKey", JStr apiKey)] else [])).

(** The callback given as [onChunk]: [fullCode += chunk;
    setGeneratedCode(fullCode)], run on the calls of [streamFromApi]. *)
Fixpoint collect (calls : list callback) (fullCode : jsstring)
  : option jsstring :=
  match calls with
  | [] => Some fullCode
  | onChunk v :: calls' =>
      match ToString v with
      | Some chunk => collect calls' (fullCode ++ chunk)
      | None => None
      end
  | onError _ :: calls' => collect calls' fullCode
  end.

(** [`... ${fullCode.split('\n').length} lines`] *)
Definition line_count (code : jsstring) : jsstring :=
  decimal (N.of_nat (List.length (split LF code))).

(** [handleGenerate] and [handleSelfModify] for the response [r] that
    [fetch] resolves to; [stamps i] is the id and the timestamp of the
    i-th log entry the call adds.  The state is the one left when the
    handler has run as far as it can. *)
Definition handleGenerate (st : state) (editorCode : jsstring)
  (currentFile : option jsstring) (stamps : nat -> jsstring * N)
  (r : Response) : option result :=
  if negb (truthy (Some (JStr (trim editorCode))))
  then Some (Alert (js "No Code") (js "Open a file in the IDE tab first"))
  else
    let logs :=
      addBuildLog (stamps 1%nat)
        (js "Source: " ++ or_default currentFile (js "editor")) info
        (addBuildLog (stamps 0%nat) (js "Starting module generation...") info
           (clearBuildLogs (buildLogs st))) in
    let (calls, outcome) := streamFromApi r false in
    match collect calls [] with
    | None => None
    | Some fullCode =>
        match outcome with
        | pending =>
            Some (Ran {| generatedCode := fullCode; buildLogs := logs;
                         isGenerating := true;
                         isCompiling := isCompiling st |})
        | resolved =>
            Some (Ran {| generatedCode := fullCode;
                         buildLogs :=
                           addBuildLog (stamps 3%nat)
                             (js "Generated " ++ line_count fullCode
                              ++ js " lines") info
                             (addBuildLog (stamps 2%nat)
                                (js "Module generation complete") success
                                logs);
                         isGenerating := false;
                         isCompiling := isCompiling st |})
        | rejected message =>
            Some (Ran {| generatedCode := fullCode;
                         buildLogs :=
                           addBuildLog (stamps 2%nat)
                             (js "Generation failed: " ++ message) error logs;
                         isGenerating := false;
                         isCompiling := isCompiling st |})
        end
    end.

Definition handleSelfModify (st : state) (editorCode modifyPrompt : jsstring)
  (currentFile : option jsstring) (stamps : nat -> jsstring * N)
  (r : Response) : option result :=
  if negb (truthy (Some (JStr (trim editorCode))))
  then Some (Alert (js "No Code") (js "Open a file in the IDE tab first"))
  else if negb (truthy (Some (JStr (trim modifyPrompt))))
  then Some (Alert (js "No Instruction") (js "Enter what you want to change"))
  else
    let logs :=
      addBuildLog (stamps 2%nat)
        (js "Target: " ++ or_default currentFile (js "editor")) info
        (addBuildLog (stamps 1%nat) (js "Instruction: " ++ modifyPrompt) info
           (addBuildLog (stamps 0%nat) (js "Self-modification initiated...")
              info (clearBuildLogs (buildLogs st)))) in
    let (calls, outcome) := streamFromApi r false in
    match collect calls [] with
    | None => None
    | Some fullCode =>
        match outcome with
        | pending =>
            Some (Ran {| generatedCode := fullCode; buildLogs := logs;
                         isGenerating := true;
                         isCompiling := isCompiling st |})
        | resolved =>
            Some (Ran {| generatedCode := fullCode;
                         buildLogs :=
                           addBuildLog (stamps 4%nat)
                             (js "Modified code: " ++ line_count fullCode
                              ++ js " lines") info
                             (addBuildLog (stamps 3%nat)
                                (js "Self-modification complete") success
                                logs);
                         isGenerating := false;
                         isCompiling := isCompiling st |})
        | rejected message =>
            Some (Ran {| generatedCode := fullCode;
                         buildLogs :=
                           addBuildLog (stamps 3%nat)
                             (js "Modification failed: " ++ message) error
                             logs;
                         isGenerating := false;
                         isCompiling := isCompiling st |})
        end
    end.

(** What [handleCompileAndLoad] did: it showed the alert and returned, or
    it ran to its final alert and left the state of the screen, the
    workspace and the module version. *)
Inductive loaded :=
| NoCode (title text : jsstring)
| Loaded (st : state) (w : App.File.workspace) (moduleVersion : N).

(** [handleCompileAndLoad]: [now] is the clock of [saveFile], [stamps i]
    the id and the timestamp of the i-th log entry the call adds. *)
Definition handleCompileAndLoad (now : nat -> N) (stamps : nat -> jsstring * N)
  (st : state) (w : App.File.workspace) (moduleVersion : N) : loaded :=
  if negb (truthy (Some (JStr (trim (generatedCode st)))))
  then NoCode (js "No Code") (js "Generate a module first")
  else
    let targetFile :=
      or_default (App.File.currentFile w) (js "generated.kt") in
    let logs :=
      addBuildLog (stamps 6%nat) (js "Self-evolution cycle complete") success
        (addBuildLog (stamps 5%nat)
           (js "Hot-reload triggered - code updated in IDE") success
           (addBuildLog (stamps 4%nat) (js "Module version incremented") info
              (addBuildLog (stamps 3%nat)
                 (js "Module loaded dynamically via SplitCompat") success
                 (addBuildLog (stamps 2%nat)
                    (js "Code written to external storage: " ++ targetFile)
                    success
                    (addBuildLog (stamps 1%nat)
                       (js "Bytecode verification passed") success
                       (addBuildLog (stamps 0%nat) (js "Compiling module...")
                          info (buildLogs st))))))) in
    Loaded
      {| generatedCode := generatedCode st; buildLogs := logs;
         isGenerating := isGenerating st; isCompiling := false |}
      (App.File.applyToEditor now (generatedCode st) (Some targetFile) w)
      (App.increment moduleVersion).

End Build.

(** *** The editor screen: the file handlers (app/(tabs)/ide.tsx) *)

Module IDE.

Import App.File.

(** The workspace of the context and the state variables of the screen. *)
Record state := {
  context : workspace;
  showBrowser : bool;
  newFileName : jsstring;
  showNewFile : bool;
  isEditing : bool
}.

Definition with_context (st : state) (w : workspace) : state :=
  {| context := w; showBrowser := showBrowser st;
     newFileName := newFileName st; showNewFile := showNewFile st;
     isEditing := isEditing st |}.

(** [handleSave]: the state, and the alert shown after the save. *)
Definition handleSave (now : nat -> N) (st : state)
  : state * option (jsstring * jsstring) :=
  let w := context st in
  match currentFile w with
  | Some n =>
      if truthy (Some (JStr n))
      then (with_context st (saveFile now n (editorCode w) w),
            Some (js "Saved", n ++ js " saved to workspace"))
      else (st, None)
  | None => (st, None)
  end.

(** [handleSelectFile]: [files.find(f => f.name === name)] is the first
    file of that name. *)
Definition handleSelectFile (n : jsstring) (st : state) : state :=
  let w := context st in
  match find (fun f => str_eqb (name f) n) (files w) with
  | Some file =>
      {| context := {| files := files w; currentFile := Some n;
                       editorCode := content file |};
         showBrowser := false; newFileName := newFileName st;
         showNewFile := showNewFile st; isEditing := false |}
  | None => st
  end.

(** [handleCreateFile]: [now] is the clock when the file is created. *)
Definition handleCreateFile (now : N) (st : state) : state :=
  let n := trim (newFileName st) in
  if negb (truthy (Some (JStr n))) then st
  else
    {| context :=
         createFile now (if endsWith n (js ".kt") then n else n ++ js ".kt")
           (context st);
       showBrowser := false; newFileName := []; showNewFile := false;
       isEditing := isEditing st |}.

(** [handleDeleteFile]: the file is deleted when the alert is answered
    with Delete. *)
Definition handleDeleteFile (n : jsstring) (confirmed : bool) (st : state)
  : state :=
  if confirmed then with_context st (deleteFile n (context st)) else st.

End IDE.

(** *** The keys screen: handleSave of KeysScreen *)

Module Keys.

(** The key of the context and the state variables of the screen. *)
Record state := {
  apiKey : jsstring;
  inputKey : jsstring;
  showKey : bool;
  saved : bool
}.

Inductive result :=
| Alert (title text : jsstring)
| Saved (st : state).

(** [handleSave], up to [setSaved(true)]. *)
Definition handleSave (st : state) : result :=
  let key := trim (inputKey st) in
  if negb (truthy (Some (JStr key)))
  then Alert (js "Invalid Key") (js "Please enter a valid API key")
  else Saved {| apiKey := key; inputKey := inputKey st;
                showKey := showKey st; saved := true |}.

End Keys.

(** * Notions used in the statements *)

(** A well-formed string: 16-bit code units, every surrogate in a pair. *)
Fixpoint well_formed (s : jsstring) : bool :=
  match s with
  | [] => true
  | c :: r =>
      if is_high_surrogate c then
        match r with
        | d :: r' => is_low_surrogate d && well_formed r'
        | [] => false
        end
      else negb (is_low_surrogate c) && (c <? 65536) && well_formed r
  end.

(** The decoder's result with one more code point in front. *)
Definition emit (cp : N) (p : state * list N) : state * list N :=
  (fst p, cp :: snd p).

(** A call that writes the terminator line, and an upstream line that is
    the sentinel. *)
Definition is_terminator (c : res_call) : bool :=
  match c with
  | res_write (Text s) => str_eqb s (js "data: [DONE]" ++ [LF; LF])
  | _ => false
  end.

Definition is_DONE_line (line : jsstring) : bool :=
  startsWith line DATA_PREFIX && str_eqb (trim (slice line 6)) DONE.

(** The buffer kept and the complete lines, for a buffer [s] after the
    chunk was appended. *)
Definition frame (s : jsstring) : jsstring * list jsstring :=
  pop_or_empty (split LF s).

(** A text made of complete lines. *)
Definition terminated (lines : list jsstring) : jsstring :=
  List.concat (map (fun l => l ++ [LF]) lines).

(** What the relay makes of a response whose chunks decode to [T]. *)
Definition relay_text (T : jsstring) : list res_call :=
  flat_map data_line (snd (frame T)) ++ on_end (fst (frame T)).

(** The text a decoder produces over successive chunks. *)
Fixpoint decode_chunks (d : TextDecoder) (chunks : list (list byte))
  : TextDecoder * jsstring :=
  match chunks with
  | [] => (d, [])
  | chunk :: chunks' =>
      let (d1, t1) := decode_stream d chunk in
      let (d2, t2) := decode_chunks d1 chunks' in
      (d2, t1 ++ t2)
  end.

(** The callbacks for a body whose chunks decode to [T]. *)
Definition client_text (has_onError : bool) (T : jsstring) : list callback :=
  flat_map (process_line has_onError) (snd (frame T)).

(** The text of an object with one member and of an array with one
    element, as [JSON.stringify] writes them. *)
Definition object1 (k : jsstring) (t : jsstring) : jsstring :=
  123 :: QuoteJSONString k ++ 58 :: t ++ [125].
Definition array1 (t : jsstring) : jsstring := 91 :: t ++ [93].

(** The payload the relay writes for a fragment, and the payload of the
    provider for the same fragment. *)
Definition relay_payload (s : jsstring) : jsstring :=
  object1 (js "content") (QuoteJSONString s).

Definition provider_payload (s : jsstring) : jsstring :=
  object1 (js "choices")
    (array1 (object1 (js "delta") (object1 (js "content") (QuoteJSONString s)))).

Definition upstream_Hel : list byte :=
  bytes "data: {'choices':[{'delta':{'content':'Hel'}}]}" ++ [x0a].
Definition upstream_lo : list byte :=
  bytes "data: {'choices':[{'delta':{'content':'lo'}}]}" ++ [x0a].
Definition upstream_DONE : list byte := bytes "data: [DONE]" ++ [x0a].

Definition envelope_Hel : jsstring := js "data: {'content':'Hel'}" ++ [LF; LF].
Definition envelope_lo : jsstring := js "data: {'content':'lo'}" ++ [LF; LF].
Definition envelope_DONE : jsstring := js "data: [DONE]" ++ [LF; LF].

Definition line_head : list byte :=
  bytes "data: {'choices':[{'delta':{'content':'".
Definition line_tail : list byte := bytes "'}}]}" ++ [x0a].

Definition ok_response (source : list read_result) : Response :=
  {| ok := true; status := 200; text := []; body := Some source |}.

(** The line the relay writes for a fragment and the line of the provider
    for it. *)
Definition relay_line (f : jsstring) : jsstring := DATA_PREFIX ++ relay_payload f.
Definition provider_line (f : jsstring) : jsstring :=
  DATA_PREFIX ++ provider_payload f.

Definition nonempty (f : jsstring) : bool :=
  match f with [] => false | _ :: _ => true end.

Definition DONE_line : jsstring := DATA_PREFIX ++ DONE.

(** The lines of a provider response that carries the fragments [fs], with
    or without a final [DONE] line, and its text. *)
Definition provider_lines (fs : list jsstring) (with_DONE : bool)
  : list jsstring :=
  map provider_line fs ++ (if with_DONE then [DONE_line] else []).

Definition provider_stream (fs : list jsstring) (with_DONE : bool) : jsstring :=
  terminated (provider_lines fs with_DONE).

Definition content_writes (fs : list jsstring) : list res_call :=
  map (fun f => res_write (content_envelope (JStr f))) (filter nonempty fs).

(** The lines of the body the relay writes for them. *)
Definition body_lines (fs : list jsstring) (with_DONE : bool) : list jsstring :=
  flat_map (fun f => [relay_line f; []]) (filter nonempty fs)
  ++ (if with_DONE then [DONE_line; []] else [])
  ++ [DONE_line; []].



Definition both_a : string :=
  "data: {'content':'a','choices':[{'delta':{'content':'a'}}]}".
Definition both_b : string :=
  "data: {'content':'b','choices':[{'delta':{'content':'b'}}]}".

(** A call the streaming phase may make before its last two: the write
    of the terminator line, or the write of the template filled with
    [{content: v}] for a truthy [v]; when [v] is a string it is not empty
    and the text written is the envelope with [v] quoted. *)
Definition forwarded (c : res_call) : Prop :=
  c = res_write TERMINATOR
  \/ exists v,
       c = res_write (content_envelope v)
       /\ truthy (Some v) = true
       /\ forall f, v = JStr f ->
            f <> []
            /\ text_of (content_envelope v)
               = Some (js "data: {'content':" ++ QuoteJSONString f
                       ++ js "}" ++ [LF; LF]).

(** A call the client may make on the callbacks it was given. *)
Definition delivered (has_onError : bool) (cb : callback) : bool :=
  match cb with
  | onChunk v => truthy (Some v)
  | onError e => has_onError && truthy (Some e)
  end.

Definition is_onChunk (cb : callback) : bool :=
  match cb with
  | onChunk _ => true
  | onError _ => false
  end.

Definition CR : code_unit := 13.

(** The same lines ended by a carriage return and a line feed. *)
Definition terminated_CRLF (lines : list jsstring) : jsstring :=
  terminated (map (fun l => l ++ [CR]) lines).

(** The ids of successive calls of [generateId]: each call comes with the
    clock reading and the random digits it draws. *)
Fixpoint generateIds (msgCounter : N) (calls : list (N * jsstring))
  : list jsstring :=
  match calls with
  | [] => []
  | (now, random) :: calls' =>
      let (id, msgCounter') := App.generateId msgCounter now random in
      id :: generateIds msgCounter' calls'
  end.

(** The messages [handleSend] creates: the user's, and the assistant's
    (the reply, or the report of an error). *)
Definition user_message (sent : jsstring * N) (text : jsstring)
  : App.Message.ChatMessage :=
  {| App.Message.id := fst sent; App.Message.role := App.Message.user;
     App.Message.content := text; App.Message.timestamp := snd sent |}.

Definition assistant_message (reply : jsstring * N) (text : jsstring)
  : App.Message.ChatMessage :=
  {| App.Message.id := fst reply; App.Message.role := App.Message.assistant;
     App.Message.content := text; App.Message.timestamp := snd reply |}.

(** The response [fetch] resolves to when the handler answered
    [res.status(code).json(b)]: the status, whether it lies in 200-299,
    and the text of [b]; [source] is what a reader of the body would
    give. *)
Definition json_response (code : N) (b : json)
  (source : option (list read_result)) : option Response :=
  option_map
    (fun t => {| ok := (200 <=? code) && (code <=? 299); status := code;
                 text := t; body := source |})
    (JSON_stringify b).

(** The key a request is made with: the key of the app when it is not
    empty, or else the key of the relay's environment; empty when there is
    neither. *)
Definition effective_key (apiKey : jsstring) (env_key : option jsstring)
  : jsstring :=
  or_default (Some apiKey) (or_default env_key []).

(** What the relay does with a request for [messages] under that key:
    without a key it answers 400; with one it sets and flushes the stream
    headers, and makes the upstream request when every code unit of the
    key is one a header value may hold. *)
Definition opened (key : jsstring) (messages : prompt) (tenth : N)
  : list res_call * option upstream_request :=
  if nonempty key
  then (STREAM_HEADERS,
        if forallb header_unit key
        then Some {| bearer := JStr key; messages := messages;
                     temperature := tenths tenth |}
        else None)
  else (NO_KEY, None).

(** An entry of the build log. *)
Definition build_log (stamp : jsstring * N) (text : jsstring)
  (t : App.Log.LogType) : App.Log.BuildLog :=
  {| App.Log.id := fst stamp; App.Log.message := text; App.Log.type := t;
     App.Log.timestamp := snd stamp |}.

(** The content [handleSelectFile] opens for a name: that of the first
    file of the name, if any. *)
Definition stored (n : jsstring) (w : App.File.workspace) : option jsstring :=
  option_map App.File.content
    (find (fun f => str_eqb (App.File.name f) n) (App.File.files w)).

Definition file_names (w : App.File.workspace) : list jsstring :=
  map App.File.name (App.File.files w).

(** * Properties *)

(** ** Line framing *)

Section Framing.

Lemma split_not_nil (sep : code_unit) (s : jsstring) : split sep s <> [].
Proof.
  destruct s as [|c s]; simpl; [discriminate|].
  destruct (c =? sep); [discriminate|].
  destruct (split sep s); discriminate.
Qed.

Lemma frame_nil : frame [] = ([], []).
Proof. reflexivity. Qed.

Lemma frame_cons (c : code_unit) (s : jsstring) :
  frame (c :: s) =
  let (tail, lines) := frame s in
  if c =? LF then (tail, [] :: lines)
  else match lines with
       | [] => (c :: tail, [])
       | l :: lines' => (tail, (c :: l) :: lines')
       end.
Proof.
  unfold frame, pop_or_empty. simpl split.
  pose proof (split_not_nil LF s) as Hne.
  destruct (split LF s) as [|seg segs]; [congruence|]. clear Hne.
  destruct (c =? LF).
  - change (pop ([] :: seg :: segs))
      with (let (last, rest) := pop (seg :: segs) in (last, [] :: rest)).
    destruct (pop (seg :: segs)) as [last rest]. reflexivity.
  - destruct segs as [|seg' segs].
    + simpl. destruct seg; reflexivity.
    + change (pop ((c :: seg) :: seg' :: segs))
        with (let (last, rest) := pop (seg' :: segs) in (last, (c :: seg) :: rest)).
      change (pop (seg :: seg' :: segs))
        with (let (last, rest) := pop (seg' :: segs) in (last, seg :: rest)).
      destruct (pop (seg' :: segs)) as [last rest]. reflexivity.
Qed.

(** Appending to a buffer: the lines completed so far stay, the tail is
    carried over. *)
Lemma frame_app (s t : jsstring) :
  frame (s ++ t) =
  (fst (frame (fst (frame s) ++ t)),
   snd (frame s) ++ snd (frame (fst (frame s) ++ t))).
Proof.
  induction s as [|c s IH].
  - change (frame []) with (@nil code_unit, @nil jsstring). simpl.
    destruct (frame t); reflexivity.
  - change ((c :: s) ++ t) with (c :: (s ++ t)).
    rewrite !frame_cons, IH.
    destruct (frame s) as [tl ls]. simpl fst; simpl snd.
    destruct (c =? LF) eqn:Ec.
    + reflexivity.
    + destruct ls as [|l ls'].
      * simpl fst; simpl snd.
        change ((c :: tl) ++ t) with (c :: (tl ++ t)).
        rewrite frame_cons, Ec.
        destruct (frame (tl ++ t)) as [tl2 ls2].
        destruct ls2; reflexivity.
      * reflexivity.
Qed.

(** The buffer kept holds no line feed, so it frames to itself. *)
Lemma frame_tail (s : jsstring) : frame (fst (frame s)) = (fst (frame s), []).
Proof.
  induction s as [|c s IH]; [reflexivity|].
  rewrite frame_cons. destruct (frame s) as [tl ls]. simpl in IH.
  destruct (c =? LF) eqn:Ec; [exact IH|].
  destruct ls as [|l ls']; [|exact IH].
  simpl fst. rewrite frame_cons, IH, Ec. reflexivity.
Qed.

(** A complete line at the head of the text. *)
Lemma frame_line (line post : jsstring) :
  ~ In LF line ->
  frame (line ++ LF :: post) = (fst (frame post), line :: snd (frame post)).
Proof.
  induction line as [|c line IH]; intros Hno.
  - cbn [app]. rewrite frame_cons. change (LF =? LF) with true.
    destruct (frame post); reflexivity.
  - cbn [app]. rewrite frame_cons, IH by (intros H; apply Hno; right; exact H).
    replace (c =? LF) with false
      by (symmetry; apply N.eqb_neq; intros E; apply Hno; left; exact E).
    reflexivity.
Qed.

Lemma frame_terminated (lines : list jsstring) (post : jsstring) :
  Forall (fun l => ~ In LF l) lines ->
  frame (terminated lines ++ post)
  = (fst (frame post), lines ++ snd (frame post)).
Proof.
  induction 1 as [|l lines Hl _ IH].
  - cbn. destruct (frame post); reflexivity.
  - unfold terminated in *. cbn [map List.concat].
    rewrite <- !app_assoc. cbn [app].
    rewrite frame_line by exact Hl. rewrite IH. reflexivity.
Qed.


End Framing.

(** ** The two loops as functions of the decoded text *)

Section Streams.

Lemma upstream_run_chunks (ep : endpoint) (chunks : list (list byte)) :
  forall buffer,
    frame buffer = (buffer, []) ->
    upstream_run ep (Some buffer) (map response_data chunks ++ [response_end])
    = relay_text (buffer ++ List.concat (map Buffer_toString chunks)).
Proof.
  induction chunks as [|chunk chunks IH]; intros buffer Hb.
  - simpl. rewrite !app_nil_r. unfold relay_text. rewrite Hb. reflexivity.
  - cbn [map List.concat app upstream_run upstream_step].
    unfold on_data. fold (frame (buffer ++ Buffer_toString chunk)).
    destruct (frame (buffer ++ Buffer_toString chunk)) as [b2 lines] eqn:Ef.
    assert (Hb2 : frame b2 = (b2, [])).
    { pose proof (frame_tail (buffer ++ Buffer_toString chunk)) as Ht.
      rewrite Ef in Ht. exact Ht. }
    rewrite (IH b2 Hb2). unfold relay_text.
    rewrite (app_assoc buffer (Buffer_toString chunk)).
    rewrite (frame_app (buffer ++ Buffer_toString chunk)), Ef.
    simpl fst; simpl snd.
    rewrite flat_map_app, <- app_assoc. reflexivity.
Qed.

Lemma split_residual (b : jsstring) : frame b = (b, []) -> split LF b = [b].
Proof.
  unfold frame, pop_or_empty. intros H.
  pose proof (split_not_nil LF b) as Hne.
  destruct (split LF b) as [|x [|y l]]; [congruence| |].
  - cbn [pop] in H. injection H as H. f_equal.
    destruct x; exact H.
  - change (pop (x :: y :: l))
      with (let (last, rest) := pop (y :: l) in (last, x :: rest)) in H.
    destruct (pop (y :: l)). discriminate H.
Qed.

(** The relay's streaming phase depends on the chunks through the
    concatenation of their separate decodings only. *)
Lemma stream_text (ep : endpoint) (chunks : list (list byte)) :
  stream ep chunks = relay_text (List.concat (map Buffer_toString chunks)).
Proof.
  unfold stream. simpl upstream_run.
  apply (upstream_run_chunks ep chunks []). reflexivity.
Qed.

(** X1: the calls of the streaming phase are those of the data handler
    for the complete lines of the decoded text, then, at the end of the
    upstream response, those of the end handler for the line left in the
    buffer when it is not blank, then the terminator and [res.end()],
    whatever that last line was. *)
Theorem relay_end_of_stream (ep : endpoint) (chunks : list (list byte)) :
  let T := List.concat (map Buffer_toString chunks) in
  stream ep chunks
  = flat_map data_line (snd (frame T))
    ++ (if truthy (Some (JStr (trim (fst (frame T)))))
        then end_line (fst (frame T)) else [])
    ++ [res_write TERMINATOR; res_end].
Proof.
  intros T. rewrite stream_text. fold T. unfold relay_text, on_end.
  rewrite (split_residual _ (frame_tail T)). cbn [flat_map].
  rewrite app_nil_r. reflexivity.
Qed.

Lemma read_loop_values (h : bool) (chunks : list (list byte))
  (rest : list read_result) :
  forall d buffer,
    frame buffer = (buffer, []) ->
    read_loop h d buffer (map value chunks ++ rest) =
    let (d', T) := decode_chunks d chunks in
    let (calls, outcome) := read_loop h d' (fst (frame (buffer ++ T))) rest in
    (client_text h (buffer ++ T) ++ calls, outcome).
Proof.
  induction chunks as [|chunk chunks IH]; intros d buffer Hb.
  - simpl. rewrite app_nil_r. unfold client_text. rewrite Hb. simpl.
    destruct (read_loop h d buffer rest); reflexivity.
  - cbn [map app read_loop decode_chunks].
    unfold on_value.
    destruct (decode_stream d chunk) as [d1 t1].
    fold (frame (buffer ++ t1)).
    destruct (frame (buffer ++ t1)) as [b2 lines] eqn:Ef.
    assert (Hb2 : frame b2 = (b2, [])).
    { pose proof (frame_tail (buffer ++ t1)) as Ht.
      rewrite Ef in Ht. exact Ht. }
    rewrite (IH d1 b2 Hb2).
    destruct (decode_chunks d1 chunks) as [d2 t2].
    unfold client_text.
    rewrite (app_assoc buffer t1 t2), (frame_app (buffer ++ t1)), Ef.
    simpl fst; simpl snd.
    destruct (read_loop h d2 (fst (frame (b2 ++ t2))) rest) as [calls outcome].
    rewrite flat_map_app, <- app_assoc. reflexivity.
Qed.

Lemma run_app (a b : list byte) :
  forall st,
    run st (a ++ b) =
    let (st1, out1) := run st a in
    let (st2, out2) := run st1 b in
    (st2, out1 ++ out2).
Proof.
  induction a as [|x a IH]; intros st.
  - simpl. destruct (run st b); reflexivity.
  - cbn [app run]. destruct (step st (to_N x)) as [st1 o1].
    rewrite IH. destruct (run st1 a) as [st2 o2].
    destruct (run st2 b) as [st3 o3]. rewrite app_assoc. reflexivity.
Qed.

Lemma decode_stream_nil (d : TextDecoder) : decode_stream d [] = (d, []).
Proof.
  destruct d as [st seen]. unfold decode_stream. simpl.
  rewrite orb_false_r. destruct seen; reflexivity.
Qed.

(** Decoding in stream mode is a function of the bytes seen so far, not
    of where the chunks end. *)
Lemma decode_stream_app (d : TextDecoder) (a b : list byte) :
  decode_stream d (a ++ b) =
  let (d1, t1) := decode_stream d a in
  let (d2, t2) := decode_stream d1 b in
  (d2, t1 ++ t2).
Proof.
  destruct d as [st seen]. unfold decode_stream. cbn [partial bom_seen].
  rewrite run_app.
  destruct (run st a) as [st1 o1]. cbn [partial bom_seen].
  destruct (run st1 b) as [st2 o2].
  destruct seen; cbn [orb].
  - rewrite flat_map_app. destruct (o1 ++ o2); reflexivity.
  - destruct o1 as [|c o1]; cbn [app].
    + reflexivity.
    + rewrite <- flat_map_app. destruct (c =? 65279); reflexivity.
Qed.

Lemma decode_chunks_concat (chunks : list (list byte)) :
  forall d, decode_chunks d chunks = decode_stream d (List.concat chunks).
Proof.
  induction chunks as [|chunk chunks IH]; intros d.
  - simpl. symmetry. apply decode_stream_nil.
  - cbn [decode_chunks List.concat]. rewrite decode_stream_app.
    destruct (decode_stream d chunk) as [d1 t1]. rewrite IH. reflexivity.
Qed.

(** X3: the client's callbacks and outcome depend on the chunks read
    through their concatenation only: the stream decoder carries split
    code points and the buffer carries split lines. *)
Theorem client_chunking (h : bool) (chunks chunks' : list (list byte))
  (rest : list read_result) :
  List.concat chunks = List.concat chunks' ->
  read_loop h new_TextDecoder [] (map value chunks ++ rest)
  = read_loop h new_TextDecoder [] (map value chunks' ++ rest).
Proof.
  intros Hc.
  rewrite !read_loop_values by reflexivity.
  rewrite !decode_chunks_concat, Hc. reflexivity.
Qed.

(** On a successful response that ends, the callbacks are those of the
    text the whole body decodes to. *)
Lemma client_stream_text (h : bool) (chunks : list (list byte)) :
  streamFromApi (ok_response (map value chunks ++ [done])) h
  = (client_text h (snd (decode_stream new_TextDecoder (List.concat chunks))),
     resolved).
Proof.
  unfold streamFromApi, ok_response. cbn [ok body negb].
  rewrite read_loop_values by reflexivity. rewrite decode_chunks_concat.
  destruct (decode_stream new_TextDecoder (List.concat chunks)) as [d T].
  cbn [read_loop app snd]. rewrite app_nil_r. reflexivity.
Qed.

(** X2: the relay's calls depend on the chunks through the concatenation
    of what each chunk decodes to on its own: chunk boundaries between
    code points do not matter, inside a line or not. *)
Theorem relay_chunking (ep : endpoint) (chunks chunks' : list (list byte)) :
  List.concat (map Buffer_toString chunks)
  = List.concat (map Buffer_toString chunks') ->
  stream ep chunks = stream ep chunks'.
Proof. intros Hc. rewrite !stream_text, Hc. reflexivity. Qed.

End Streams.

(** ** Tactics *)

(** Boolean comparisons on [N] as propositions, for [lia]. *)
Ltac nprop :=
  repeat match goal with
  | H : _ && _ = true |- _ => apply andb_prop in H; destruct H
  | H : _ || _ = false |- _ => apply orb_false_elim in H; destruct H
  | H : _ && _ = false |- _ => apply andb_false_iff in H; destruct H
  | H : _ || _ = true |- _ => apply orb_true_iff in H; destruct H
  | H : (_ <=? _) = true |- _ => apply N.leb_le in H
  | H : (_ <=? _) = false |- _ => apply N.leb_gt in H
  | H : (_ <? _) = true |- _ => apply N.ltb_lt in H
  | H : (_ <? _) = false |- _ => apply N.ltb_ge in H
  | H : (_ =? _) = true |- _ => apply N.eqb_eq in H
  | H : (_ =? _) = false |- _ => apply N.eqb_neq in H
  end.

Ltac nfalse :=
  symmetry; first [apply N.eqb_neq | apply N.ltb_ge | apply N.leb_gt]; lia.

(** Decide the comparisons that [lia] settles. *)
Ltac cmp_lia :=
  repeat match goal with
  | |- context [?a <=? ?b] =>
      first [ replace (a <=? b) with true by (symmetry; apply N.leb_le; lia)
            | replace (a <=? b) with false by (symmetry; apply N.leb_gt; lia) ]
  | |- context [?a <? ?b] =>
      first [ replace (a <? b) with true by (symmetry; apply N.ltb_lt; lia)
            | replace (a <? b) with false by (symmetry; apply N.ltb_ge; lia) ]
  | |- context [?a =? ?b] =>
      first [ replace (a =? b) with true by (symmetry; apply N.eqb_eq; lia)
            | replace (a =? b) with false by (symmetry; apply N.eqb_neq; lia) ]
  end.

(** Decide the comparisons between known characters. *)
Ltac known_chars :=
  repeat match goal with
  | |- context [N.eqb ?a ?b] =>
      let r := eval vm_compute in (N.eqb a b) in
      match r with
      | true => change (N.eqb a b) with true
      | false => change (N.eqb a b) with false
      end
  | |- context [is_ws ?a] =>
      let r := eval vm_compute in (is_ws a) in
      match r with
      | true => change (is_ws a) with true
      | false => change (is_ws a) with false
      end
  end; cbv iota.

(** ** [JSON.parse] never runs out of fuel *)

Section ParseFuel.

Lemma skip_ws_length (s : jsstring) :
  (List.length (skip_ws s) <= List.length s)%nat.
Proof.
  induction s as [|c s IH]; [simpl; lia|].
  simpl. destruct (is_ws c); simpl; lia.
Qed.

Lemma skip_ws_cons (s : jsstring) (c : code_unit) (r : jsstring) :
  skip_ws s = c :: r -> (List.length r < List.length s)%nat.
Proof.
  intros H. pose proof (skip_ws_length s) as L. rewrite H in L. simpl in L. lia.
Qed.

Lemma pmap_Parsed {A B} (f : A -> B) (p : presult A) (b : B) (r : jsstring) :
  pmap f p = Parsed b r -> exists a, p = Parsed a r /\ b = f a.
Proof.
  destruct p; simpl; intros H; try discriminate.
  injection H as <- <-. eauto.
Qed.

Lemma parse_chars_length (s : jsstring) :
  forall t r, parse_chars s = Parsed t r -> (List.length r < List.length s)%nat.
Proof.
  assert (H : forall n s, (List.length s <= n)%nat ->
              forall t r, parse_chars s = Parsed t r ->
                          (List.length r < List.length s)%nat).
  { clear s. induction n as [|n IH]; intros s Hn t r Hp.
    - destruct s; [discriminate Hp | simpl in Hn; lia].
    - destruct s as [|c s]; [discriminate Hp|].
      simpl in Hn. cbn [parse_chars] in Hp.
      destruct (c =? 34).
      + injection Hp as <- <-. simpl. lia.
      + destruct (c =? 92).
        * destruct s as [|e s]; [discriminate Hp|].
          destruct (e =? 117).
          -- destruct s as [|h1 [|h2 [|h3 [|h4 s]]]]; try discriminate Hp.
             destruct (hex4 h1 h2 h3 h4); [|discriminate Hp].
             apply pmap_Parsed in Hp. destruct Hp as [t' [Hp _]].
             apply IH in Hp; simpl in *; lia.
          -- destruct (unescape e); [|discriminate Hp].
             apply pmap_Parsed in Hp. destruct Hp as [t' [Hp _]].
             apply IH in Hp; simpl in *; lia.
        * destruct (c <? 32); [discriminate Hp|].
          apply pmap_Parsed in Hp. destruct Hp as [t' [Hp _]].
          apply IH in Hp; simpl in *; lia. }
  intros t r. apply (H (List.length s) s). lia.
Qed.

Lemma take_digits_length (s : jsstring) :
  (List.length (snd (take_digits s)) <= List.length s)%nat.
Proof.
  induction s as [|c s IH]; [simpl; lia|].
  simpl. destruct (is_digit c); [|simpl; lia].
  destruct (take_digits s). simpl in *. lia.
Qed.

Lemma parse_number_length (s : jsstring) (n : number) (r : jsstring) :
  parse_number s = Parsed n r -> (List.length r < List.length s)%nat.
Proof.
  unfold parse_number.
  destruct (parse_sign s) as [neg s1] eqn:Es.
  assert (L1 : (List.length s1 <= List.length s)%nat).
  { unfold parse_sign in Es. destruct s as [|c s']; [injection Es as _ <-; lia|].
    destruct (c =? 45); injection Es as _ <-; simpl; lia. }
  destruct (parse_int s1) as [[int s2]|] eqn:Ei; [|discriminate].
  assert (L2 : (List.length s2 < List.length s1)%nat).
  { unfold parse_int in Ei. destruct s1 as [|d r1]; [discriminate Ei|].
    destruct (d =? 48); [injection Ei as _ <-; simpl; lia|].
    destruct (is_digit d) eqn:Ed; [|discriminate Ei].
    injection Ei as Ei. cbn [take_digits] in Ei. rewrite Ed in Ei.
    pose proof (take_digits_length r1) as L.
    destruct (take_digits r1) as [ds rest]. injection Ei as _ <-.
    simpl in *. lia. }
  destruct (parse_frac s2) as [[frac s3]|] eqn:Ef; [|discriminate].
  assert (L3 : (List.length s3 <= List.length s2)%nat).
  { unfold parse_frac in Ef. destruct s2 as [|c r2]; [injection Ef as _ <-; lia|].
    destruct (c =? 46); [|injection Ef as _ <-; lia].
    pose proof (take_digits_length r2) as L.
    destruct (take_digits r2) as [[|d ds] rest]; [discriminate Ef|].
    injection Ef as _ <-. simpl in *. lia. }
  destruct (parse_exp s3) as [[e s4]|] eqn:Ee; [|discriminate].
  assert (L4 : (List.length s4 <= List.length s3)%nat).
  { unfold parse_exp in Ee. destruct s3 as [|c r3]; [injection Ee as _ <-; lia|].
    destruct ((c =? 101) || (c =? 69)); [|injection Ee as _ <-; lia].
    destruct (match r3 with
              | [] => (false, r3)
              | sg :: r1 =>
                  if sg =? 45 then (true, r1)
                  else if sg =? 43 then (false, r1) else (false, r3)
              end) as [eneg r'] eqn:Esg.
    assert (L' : (List.length r' <= List.length r3)%nat).
    { destruct r3 as [|sg r1]; [injection Esg as _ <-; lia|].
      destruct (sg =? 45); [injection Esg as _ <-; simpl; lia|].
      destruct (sg =? 43); injection Esg as _ <-; simpl; lia. }
    pose proof (take_digits_length r') as L.
    destruct (take_digits r') as [[|d ds] rest]; [discriminate Ee|].
    injection Ee as _ <-. simpl in *. lia. }
  intros H. injection H as _ <-. lia.
Qed.

Lemma parse_literal_length (s : jsstring) (v : json) (r : jsstring) :
  parse_literal s = Parsed v r -> (List.length r < List.length s)%nat.
Proof.
  unfold parse_literal.
  assert (Hsk : forall k p, startsWith s p = true -> List.length p = S k ->
                (List.length (skipn (S k) s) < List.length s)%nat).
  { intros k p Hp Hl. rewrite length_skipn.
    assert (List.length p <= List.length s)%nat; [|lia].
    clear Hl. revert s Hp. induction p as [|x p IH]; intros s Hp; [simpl; lia|].
    destruct s as [|c s]; [discriminate Hp|]. simpl in Hp.
    apply andb_prop in Hp. destruct Hp as [_ Hp]. apply IH in Hp. simpl. lia. }
  destruct (startsWith s (js "true")) eqn:E1.
  { intros H. injection H as _ <-. apply (Hsk 3%nat _ E1). reflexivity. }
  destruct (startsWith s (js "false")) eqn:E2.
  { intros H. injection H as _ <-. apply (Hsk 4%nat _ E2). reflexivity. }
  destruct (startsWith s (js "null")) eqn:E3.
  { intros H. injection H as _ <-. apply (Hsk 3%nat _ E3). reflexivity. }
  discriminate.
Qed.

(** A value parsed leaves less text than it was given. *)
Lemma parse_consumes (fuel : nat) :
  (forall s v r, parse_value fuel s = Parsed v r ->
                 (List.length r < List.length s)%nat)
  /\ (forall s acc v r, parse_elements fuel s acc = Parsed v r ->
                        (List.length r < List.length s)%nat)
  /\ (forall s acc v r, parse_members fuel s acc = Parsed v r ->
                        (List.length r < List.length s)%nat).
Proof.
  induction fuel as [|fuel [IHv [IHe IHm]]].
  - repeat split; intros; discriminate.
  - split; [|split].
    + intros s v r H. cbn [parse_value] in H.
      destruct (skip_ws s) as [|c r0] eqn:Es; [discriminate H|].
      apply skip_ws_cons in Es.
      destruct (c =? 123).
      { destruct (skip_ws r0) as [|c' r'] eqn:Es'; [discriminate H|].
        apply skip_ws_cons in Es'.
        destruct (c' =? 125); [injection H as _ <-; lia|].
        apply IHm in H. lia. }
      destruct (c =? 91).
      { destruct (skip_ws r0) as [|c' r'] eqn:Es'; [discriminate H|].
        apply skip_ws_cons in Es'.
        destruct (c' =? 93); [injection H as _ <-; lia|].
        apply IHe in H. lia. }
      destruct (c =? 34).
      { apply pmap_Parsed in H. destruct H as [t [H _]].
        apply parse_chars_length in H. lia. }
      destruct ((c =? 45) || is_digit c).
      { apply pmap_Parsed in H. destruct H as [n [H _]].
        apply parse_number_length in H. simpl in H. lia. }
      apply parse_literal_length in H. simpl in H. lia.
    + intros s acc v r H. cbn [parse_elements] in H.
      destruct (parse_value fuel s) as [v0 r0| |] eqn:Ev; try discriminate H.
      apply IHv in Ev.
      destruct (skip_ws r0) as [|c r'] eqn:Es; [discriminate H|].
      apply skip_ws_cons in Es.
      destruct (c =? 44); [apply IHe in H; lia|].
      destruct (c =? 93); [injection H as _ <-; lia | discriminate H].
    + intros s acc v r H. cbn [parse_members] in H.
      destruct (skip_ws s) as [|c r0] eqn:Es; [discriminate H|].
      apply skip_ws_cons in Es.
      destruct (c =? 34); [|discriminate H].
      destruct (parse_chars r0) as [k r1| |] eqn:Ek; try discriminate H.
      apply parse_chars_length in Ek.
      destruct (skip_ws r1) as [|c1 r2] eqn:Es1; [discriminate H|].
      apply skip_ws_cons in Es1.
      destruct (c1 =? 58); [|discriminate H].
      destruct (parse_value fuel r2) as [v0 r3| |] eqn:Ev; try discriminate H.
      apply IHv in Ev.
      destruct (skip_ws r3) as [|c3 r4] eqn:Es3; [discriminate H|].
      apply skip_ws_cons in Es3.
      destruct (c3 =? 44); [apply IHm in H; lia|].
      destruct (c3 =? 125); [injection H as _ <-; lia | discriminate H].
Qed.

Lemma pmap_fuel {A B} (f : A -> B) (p : presult A) :
  p <> OutOfFuel -> pmap f p <> OutOfFuel.
Proof. destruct p; simpl; congruence. Qed.

Lemma parse_chars_fuel (s : jsstring) : parse_chars s <> OutOfFuel.
Proof.
  assert (H : forall n s, (List.length s <= n)%nat -> parse_chars s <> OutOfFuel).
  { clear s. induction n as [|n IH]; intros s Hn.
    - destruct s; [discriminate | simpl in Hn; lia].
    - destruct s as [|c s]; [discriminate|].
      simpl in Hn. cbn [parse_chars].
      destruct (c =? 34); [discriminate|].
      destruct (c =? 92).
      + destruct s as [|e s]; [discriminate|].
        destruct (e =? 117).
        * destruct s as [|h1 [|h2 [|h3 [|h4 s]]]]; try discriminate.
          destruct (hex4 h1 h2 h3 h4); [|discriminate].
          apply pmap_fuel, IH. simpl in *. lia.
        * destruct (unescape e); [|discriminate].
          apply pmap_fuel, IH. simpl in *. lia.
      + destruct (c <? 32); [discriminate|].
        apply pmap_fuel, IH. lia. }
  apply (H (List.length s) s). lia.
Qed.

Lemma parse_number_fuel (s : jsstring) : parse_number s <> OutOfFuel.
Proof.
  unfold parse_number. destruct (parse_sign s) as [neg s1].
  destruct (parse_int s1) as [[int s2]|]; [|discriminate].
  destruct (parse_frac s2) as [[frac s3]|]; [|discriminate].
  destruct (parse_exp s3) as [[e s4]|]; discriminate.
Qed.

Lemma parse_literal_fuel (s : jsstring) : parse_literal s <> OutOfFuel.
Proof.
  unfold parse_literal.
  destruct (startsWith s (js "true")); [discriminate|].
  destruct (startsWith s (js "false")); [discriminate|].
  destruct (startsWith s (js "null")); discriminate.
Qed.

(** With two units of fuel per character the parser reaches a verdict. *)
Lemma parse_enough_fuel (fuel : nat) :
  (forall s, (2 * List.length s + 1 <= fuel)%nat ->
             parse_value fuel s <> OutOfFuel)
  /\ (forall s acc, (2 * List.length s + 2 <= fuel)%nat ->
                    parse_elements fuel s acc <> OutOfFuel)
  /\ (forall s acc, (2 * List.length s + 2 <= fuel)%nat ->
                    parse_members fuel s acc <> OutOfFuel).
Proof.
  induction fuel as [|fuel [IHv [IHe IHm]]].
  - repeat split; intros; lia.
  - destruct (parse_consumes fuel) as [Cv _].
    split; [|split].
    + intros s Hf. cbn [parse_value].
      destruct (skip_ws s) as [|c r0] eqn:Es; [discriminate|].
      apply skip_ws_cons in Es.
      destruct (c =? 123).
      { destruct (skip_ws r0) as [|c' r'] eqn:Es'; [discriminate|].
        destruct (c' =? 125); [discriminate|].
        apply IHm. lia. }
      destruct (c =? 91).
      { destruct (skip_ws r0) as [|c' r'] eqn:Es'; [discriminate|].
        destruct (c' =? 93); [discriminate|].
        apply IHe. lia. }
      destruct (c =? 34); [apply pmap_fuel, parse_chars_fuel|].
      destruct ((c =? 45) || is_digit c);
        [apply pmap_fuel, parse_number_fuel | apply parse_literal_fuel].
    + intros s acc Hf. cbn [parse_elements].
      pose proof (IHv s ltac:(lia)) as Hv.
      destruct (parse_value fuel s) as [v0 r0| |] eqn:Ev;
        [|discriminate|congruence].
      apply Cv in Ev.
      destruct (skip_ws r0) as [|c r'] eqn:Es; [discriminate|].
      apply skip_ws_cons in Es.
      destruct (c =? 44); [apply IHe; lia|].
      destruct (c =? 93); discriminate.
    + intros s acc Hf. cbn [parse_members].
      destruct (skip_ws s) as [|c r0] eqn:Es; [discriminate|].
      apply skip_ws_cons in Es.
      destruct (c =? 34); [|discriminate].
      pose proof (parse_chars_fuel r0) as Hk.
      destruct (parse_chars r0) as [k r1| |] eqn:Ek; [|discriminate|congruence].
      apply parse_chars_length in Ek.
      destruct (skip_ws r1) as [|c1 r2] eqn:Es1; [discriminate|].
      apply skip_ws_cons in Es1.
      destruct (c1 =? 58); [|discriminate].
      pose proof (IHv r2 ltac:(lia)) as Hv.
      destruct (parse_value fuel r2) as [v0 r3| |] eqn:Ev;
        [|discriminate|congruence].
      apply Cv in Ev.
      destruct (skip_ws r3) as [|c3 r4] eqn:Es3; [discriminate|].
      apply skip_ws_cons in Es3.
      destruct (c3 =? 44); [apply IHm; lia|].
      destruct (c3 =? 125); discriminate.
Qed.

(** [JSON.parse] is total: on every text the parser returns a value or a
    syntax error, never for want of fuel. *)
Theorem parse_value_fuel (text : jsstring) :
  parse_value (parse_fuel text) text <> OutOfFuel.
Proof.
  apply (parse_enough_fuel (parse_fuel text)). unfold parse_fuel. lia.
Qed.

End ParseFuel.

(** ** JSON text of a string *)

Section JsonStrings.

Lemma hex_value_hex_digit (d : N) : d < 16 -> hex_value (hex_digit d) = Some d.
Proof.
  intros Hd.
  destruct d as [|p]; [reflexivity|].
  do 4 (destruct p as [p|p|]; try reflexivity; try lia).
Qed.

Lemma hex4_escape (c : code_unit) :
  c < 65536 ->
  hex4 (hex_digit (c / 4096)) (hex_digit ((c / 256) mod 16))
       (hex_digit ((c / 16) mod 16)) (hex_digit (c mod 16)) = Some c.
Proof.
  intros Hc. unfold hex4.
  replace (c / 4096) with (c / 16 / 16 / 16)
    by (rewrite !N.Div0.div_div; reflexivity).
  replace (c / 256) with (c / 16 / 16)
    by (rewrite !N.Div0.div_div; reflexivity).
  pose proof (N.div_mod c 16 ltac:(lia)) as E0.
  pose proof (N.div_mod (c / 16) 16 ltac:(lia)) as E1.
  pose proof (N.div_mod (c / 16 / 16) 16 ltac:(lia)) as E2.
  pose proof (N.mod_lt c 16 ltac:(lia)) as L0.
  pose proof (N.mod_lt (c / 16) 16 ltac:(lia)) as L1.
  pose proof (N.mod_lt (c / 16 / 16) 16 ltac:(lia)) as L2.
  generalize dependent (c / 16 / 16 / 16).
  generalize dependent ((c / 16 / 16) mod 16).
  generalize dependent (c / 16 / 16).
  generalize dependent ((c / 16) mod 16).
  generalize dependent (c / 16).
  generalize dependent (c mod 16).
  intros d0 L0 q1 E0 d1 L1 q2 E1 d2 L2 q3 E2.
  rewrite !hex_value_hex_digit by lia.
  f_equal. lia.
Qed.

Lemma parse_chars_escape (c : code_unit) (rest : jsstring) :
  c < 65536 ->
  parse_chars (unicode_escape c ++ rest) = pmap (cons c) (parse_chars rest).
Proof.
  intros Hc. unfold unicode_escape. cbn [app parse_chars].
  change (92 =? 34) with false. change (92 =? 92) with true.
  change (117 =? 117) with true. cbv iota.
  rewrite (hex4_escape c Hc). reflexivity.
Qed.

Lemma parse_chars_quote_unit (c : code_unit) (rest : jsstring) :
  parse_chars (quote_unit c ++ rest) = pmap (cons c) (parse_chars rest).
Proof.
  unfold quote_unit.
  destruct (c =? 8) eqn:E8; [apply N.eqb_eq in E8; subst; reflexivity|].
  destruct (c =? 9) eqn:E9; [apply N.eqb_eq in E9; subst; reflexivity|].
  destruct (c =? 10) eqn:E10; [apply N.eqb_eq in E10; subst; reflexivity|].
  destruct (c =? 12) eqn:E12; [apply N.eqb_eq in E12; subst; reflexivity|].
  destruct (c =? 13) eqn:E13; [apply N.eqb_eq in E13; subst; reflexivity|].
  destruct (c =? 34) eqn:E34; [apply N.eqb_eq in E34; subst; reflexivity|].
  destruct (c =? 92) eqn:E92; [apply N.eqb_eq in E92; subst; reflexivity|].
  destruct (c <? 32) eqn:E32.
  - apply parse_chars_escape. nprop. lia.
  - cbn [app parse_chars]. rewrite E34, E92, E32. reflexivity.
Qed.

(** Reading back the characters QuoteJSONString wrote gives the string,
    up to the closing quote. *)
Lemma parse_chars_quote_chars (s : jsstring) :
  forall rest, parse_chars (quote_chars s ++ QUOTE :: rest) = Parsed s rest.
Proof.
  assert (H : forall n s, (List.length s <= n)%nat ->
              forall rest, parse_chars (quote_chars s ++ QUOTE :: rest)
                           = Parsed s rest).
  { clear s. induction n as [|n IH]; intros s Hn rest.
    - destruct s; [reflexivity | simpl in Hn; lia].
    - destruct s as [|c r]; [reflexivity|].
      simpl in Hn. cbn [quote_chars].
      destruct (is_high_surrogate c) eqn:Hh.
      + assert (Hc : c < 65536).
        { unfold is_high_surrogate in Hh. nprop. lia. }
        destruct r as [|d r'].
        * rewrite parse_chars_escape by exact Hc. reflexivity.
        * destruct (is_low_surrogate d) eqn:Hl.
          -- cbn [app parse_chars].
             unfold is_high_surrogate in Hh. unfold is_low_surrogate in Hl.
             nprop.
             replace (c =? 34) with false by nfalse.
             replace (c =? 92) with false by nfalse.
             replace (c <? 32) with false by nfalse.
             replace (d =? 34) with false by nfalse.
             replace (d =? 92) with false by nfalse.
             replace (d <? 32) with false by nfalse.
             rewrite IH by (simpl in Hn; lia). reflexivity.
          -- rewrite <- app_assoc, parse_chars_escape by exact Hc.
             rewrite IH by (simpl; simpl in Hn; lia). reflexivity.
      + destruct (is_low_surrogate c) eqn:Hl.
        * rewrite <- app_assoc, parse_chars_escape
            by (unfold is_low_surrogate in Hl; nprop; lia).
          rewrite IH by lia. reflexivity.
        * rewrite <- app_assoc, parse_chars_quote_unit.
          rewrite IH by lia. reflexivity. }
  apply (H (List.length s) s). lia.
Qed.

End JsonStrings.

Section JsonTexts.

Lemma stringify_object1 (k : jsstring) (v : json) (t : jsstring) :
  JSON_stringify v = Some t ->
  JSON_stringify (JObj [(k, v)]) = Some (object1 k t).
Proof.
  intros Hv. cbn [JSON_stringify]. rewrite Hv. cbn [option_map join].
  unfold object1. f_equal. change (js "{") with [123]. change (js ":") with [58].
  change (js "}") with [125]. cbn [app]. f_equal.
  rewrite <- app_assoc. reflexivity.
Qed.

Lemma stringify_array1 (v : json) (t : jsstring) :
  JSON_stringify v = Some t ->
  JSON_stringify (JArr [v]) = Some (array1 t).
Proof.
  intros Hv. cbn [JSON_stringify]. rewrite Hv. reflexivity.
Qed.

Lemma parse_value_string (f : nat) (s rest : jsstring) :
  parse_value (S f) (QuoteJSONString s ++ rest) = Parsed (JStr s) rest.
Proof.
  unfold QuoteJSONString. cbn [app parse_value skip_ws]. known_chars.
  rewrite <- app_assoc. cbn [app].
  rewrite parse_chars_quote_chars. reflexivity.
Qed.

Lemma parse_value_object1 (f : nat) (k t : jsstring) (v : json) :
  (forall rest, parse_value f (t ++ rest) = Parsed v rest) ->
  forall rest,
    parse_value (S (S f)) (object1 k t ++ rest) = Parsed (JObj [(k, v)]) rest.
Proof.
  intros Hv rest. unfold object1, QuoteJSONString.
  cbn [app parse_value skip_ws]. known_chars.
  cbn [parse_members skip_ws]. known_chars.
  rewrite <- !app_assoc. cbn [app].
  rewrite parse_chars_quote_chars.
  cbn [skip_ws]. known_chars.
  rewrite <- app_assoc, Hv.
  cbn [app skip_ws]. known_chars.
  reflexivity.
Qed.

Lemma parse_value_array1_object (f : nat) (k t : jsstring) (v : json) :
  (forall rest, parse_value f (object1 k t ++ rest) = Parsed v rest) ->
  forall rest,
    parse_value (S (S f)) (array1 (object1 k t) ++ rest) = Parsed (JArr [v]) rest.
Proof.
  intros Hv rest. unfold array1.
  cbn [app parse_value skip_ws]. known_chars.
  cbn [parse_elements]. rewrite <- app_assoc, Hv.
  unfold object1. cbn [app skip_ws]. known_chars.
  reflexivity.
Qed.

Lemma JSON_parse_text (n : nat) (t : jsstring) (v : json) :
  (forall f rest, parse_value (n + f) (t ++ rest) = Parsed v rest) ->
  (n <= parse_fuel t)%nat ->
  JSON_parse t = Some v.
Proof.
  intros Hv Hn. unfold JSON_parse.
  replace (parse_fuel t) with (n + (parse_fuel t - n))%nat by lia.
  rewrite <- (app_nil_r t) at 2. rewrite Hv. reflexivity.
Qed.

Lemma JSON_parse_relay_payload (s : jsstring) :
  JSON_parse (relay_payload s) = Some (JObj [(js "content", JStr s)]).
Proof.
  apply (JSON_parse_text 3).
  - intros f rest. apply parse_value_object1. intros rest'.
    apply parse_value_string.
  - unfold parse_fuel, relay_payload, object1. simpl List.length. lia.
Qed.

Lemma JSON_parse_provider_payload (s : jsstring) :
  JSON_parse (provider_payload s)
  = Some (JObj [(js "choices",
                 JArr [JObj [(js "delta", JObj [(js "content", JStr s)])]])]).
Proof.
  apply (JSON_parse_text 9).
  - intros f rest. unfold provider_payload.
    apply parse_value_object1. intros r1.
    apply parse_value_array1_object. intros r2.
    apply parse_value_object1. intros r3.
    apply parse_value_object1. intros r4.
    apply parse_value_string.
  - unfold parse_fuel, provider_payload, object1, array1.
    repeat (progress (rewrite ?length_app; cbn [List.length])). lia.
Qed.

Lemma stringify_content (s : jsstring) :
  JSON_stringify (JObj [(js "content", JStr s)]) = Some (relay_payload s).
Proof. apply stringify_object1. reflexivity. Qed.

Lemma stringify_provider (s : jsstring) :
  JSON_stringify
    (JObj [(js "choices",
            JArr [JObj [(js "delta", JObj [(js "content", JStr s)])]])])
  = Some (provider_payload s).
Proof.
  apply stringify_object1, stringify_array1, stringify_object1,
        stringify_object1. reflexivity.
Qed.

(** *** Lines that carry a payload *)

Lemma trim_enclosed (a z : code_unit) (m : jsstring) :
  is_space a = false -> is_space z = false ->
  trim (a :: m ++ [z]) = a :: m ++ [z].
Proof.
  intros Ha Hz. unfold trim, trimEnd. cbn [trimStart]. rewrite Ha.
  change (a :: m ++ [z]) with ((a :: m) ++ [z]).
  rewrite rev_unit. cbn [trimStart]. rewrite Hz.
  change (z :: rev (a :: m)) with ([z] ++ rev (a :: m)).
  rewrite rev_app_distr, rev_involutive. reflexivity.
Qed.

Lemma trim_object1 (k t : jsstring) : trim (object1 k t) = object1 k t.
Proof.
  unfold object1.
  replace (QuoteJSONString k ++ 58 :: t ++ [125])
    with ((QuoteJSONString k ++ 58 :: t) ++ [125])
    by (rewrite <- app_assoc; reflexivity).
  apply trim_enclosed; reflexivity.
Qed.

Lemma data_of_line (t : jsstring) : slice (DATA_PREFIX ++ t) 6 = t.
Proof. reflexivity. Qed.

Lemma startsWith_prefix (t : jsstring) :
  startsWith (DATA_PREFIX ++ t) DATA_PREFIX = true.
Proof. vm_compute. reflexivity. Qed.

Lemma object1_not_DONE (k t : jsstring) : str_eqb (object1 k t) DONE = false.
Proof. vm_compute. reflexivity. Qed.

Lemma hex_digit_not_LF (d : N) : hex_digit d <> LF.
Proof.
  unfold hex_digit, LF. destruct (d <? 10); lia.
Qed.

Lemma quote_chars_no_LF (s : jsstring) : ~ In LF (quote_chars s).
Proof.
  assert (Hesc : forall c, ~ In LF (unicode_escape c)).
  { intros c [Hin|[Hin|[Hin|[Hin|[Hin|[Hin|[]]]]]]]; try discriminate Hin;
      revert Hin; apply hex_digit_not_LF. }
  assert (Hall : forall n s, (List.length s <= n)%nat -> ~ In LF (quote_chars s)).
  { clear s. induction n as [|n IH]; intros s Hn.
    - destruct s; [intros [] | simpl in Hn; lia].
    - destruct s as [|c r]; [intros []|].
      simpl in Hn. cbn [quote_chars].
      destruct (is_high_surrogate c) eqn:Hh.
      + destruct r as [|d r']; [apply Hesc|].
        destruct (is_low_surrogate d) eqn:Hl.
        * unfold is_high_surrogate in Hh. unfold is_low_surrogate in Hl.
          nprop. unfold LF. intros [Hin|[Hin|Hin]]; try lia.
          revert Hin. apply IH. simpl in Hn. lia.
        * rewrite in_app_iff. intros [Hin|Hin]; [exact (Hesc c Hin)|].
          revert Hin. apply IH. simpl. simpl in Hn. lia.
      + destruct (is_low_surrogate c) eqn:Hl.
        * rewrite in_app_iff. intros [Hin|Hin]; [exact (Hesc c Hin)|].
          revert Hin. apply IH. lia.
        * rewrite in_app_iff. intros [Hin|Hin].
          -- revert Hin. unfold quote_unit.
             destruct (c =? 8); [intros [Hin|[Hin|[]]]; discriminate Hin|].
             destruct (c =? 9); [intros [Hin|[Hin|[]]]; discriminate Hin|].
             destruct (c =? 10) eqn:E10; [intros [Hin|[Hin|[]]]; discriminate Hin|].
             destruct (c =? 12); [intros [Hin|[Hin|[]]]; discriminate Hin|].
             destruct (c =? 13); [intros [Hin|[Hin|[]]]; discriminate Hin|].
             destruct (c =? 34); [intros [Hin|[Hin|[]]]; discriminate Hin|].
             destruct (c =? 92); [intros [Hin|[Hin|[]]]; discriminate Hin|].
             destruct (c <? 32); [apply Hesc|].
             nprop. unfold LF. intros [Hin|[]]. lia.
          -- revert Hin. apply IH. lia. }
  apply (Hall (List.length s) s). lia.
Qed.

Lemma object1_no_LF (k t : jsstring) :
  ~ In LF t -> ~ In LF (DATA_PREFIX ++ object1 k t).
Proof.
  intros Ht. unfold object1, QuoteJSONString.
  change DATA_PREFIX with [100; 97; 116; 97; 58; 32].
  cbn [app]. repeat first [rewrite in_app_iff | progress cbn [In]].
  unfold QUOTE, LF in *.
  pose proof (quote_chars_no_LF k) as Hk. unfold LF in Hk.
  intuition (try discriminate).
Qed.

Lemma QuoteJSONString_no_LF (s : jsstring) : ~ In LF (QuoteJSONString s).
Proof.
  unfold QuoteJSONString. cbn [In]. rewrite in_app_iff. cbn [In].
  pose proof (quote_chars_no_LF s) as Hs. unfold QUOTE, LF in *.
  intuition (try discriminate).
Qed.

Lemma relay_payload_no_LF (s : jsstring) :
  ~ In LF (DATA_PREFIX ++ relay_payload s).
Proof. apply object1_no_LF, QuoteJSONString_no_LF. Qed.

End JsonTexts.

(** ** The scenario of the chat endpoint *)

Section Scenario.

(** C1, on the code: for the three upstream lines of the scenario and the
    end of the stream, every endpoint writes the two content envelopes and
    then the terminator line twice, once for the upstream [DONE] line in
    the data handler and once more in the end handler; the body is four
    envelopes, not three, whether the lines come in one chunk or in three. *)
Theorem scenario_writes_terminator_twice (ep : endpoint) :
  body_text (writes (stream ep [upstream_Hel ++ upstream_lo ++ upstream_DONE]))
  = Some (envelope_Hel ++ envelope_lo ++ envelope_DONE ++ envelope_DONE)
  /\ body_text (writes (stream ep [upstream_Hel; upstream_lo; upstream_DONE]))
     = Some (envelope_Hel ++ envelope_lo ++ envelope_DONE ++ envelope_DONE)
  /\ writes (stream ep [upstream_Hel; upstream_lo; upstream_DONE])
     = [content_envelope (JStr (js "Hel")); content_envelope (JStr (js "lo"));
        TERMINATOR; TERMINATOR].
Proof. destruct ep; vm_compute; repeat split. Qed.

(** Without the upstream [DONE] line the same stream ends with one
    terminator: the end handler supplies it. *)
Example scenario_without_DONE (ep : endpoint) :
  body_text (writes (stream ep [upstream_Hel; upstream_lo]))
  = Some (envelope_Hel ++ envelope_lo ++ envelope_DONE).
Proof. destruct ep; vm_compute; reflexivity. Qed.

(** C2, on the code: the relay's end handler processes a last line that
    has no line feed and then writes the terminator, but the client's loop
    leaves on [done] with the line still in its buffer: the fragment of a
    final unterminated envelope never reaches [onChunk]. *)
Theorem client_drops_unterminated_line :
  read_loop true new_TextDecoder []
    [value (bytes "data: {'content':'x'}"); done] = ([], resolved)
  /\ read_loop true new_TextDecoder []
       [value (bytes "data: {'content':'x'}" ++ [x0a]); done]
     = ([onChunk (JStr (js "x"))], resolved)
  /\ stream chat [bytes "data: {'choices':[{'delta':{'content':'x'}}]}"]
     = [res_write (content_envelope (JStr (js "x")));
        res_write TERMINATOR; res_end].
Proof. vm_compute. repeat split. Qed.

(** The relay recognises a terminator line without a line feed at the end
    of the input and answers with a single terminator. *)
Example relay_unterminated_DONE (ep : endpoint) :
  stream ep [bytes "data: [DONE]"] = [res_write TERMINATOR; res_end].
Proof. destruct ep; vm_compute; reflexivity. Qed.

(** C3, on the code: the relay decodes every chunk on its own, so a chunk
    boundary inside the two bytes C3 A9 of U+00E9 turns the fragment into
    two replacement characters; the same bytes in one chunk give U+00E9. *)
Theorem relay_splits_code_point :
  writes (stream chat [line_head ++ [xc3; xa9] ++ line_tail])
  = [content_envelope (JStr [233]); TERMINATOR]
  /\ writes (stream chat [line_head ++ [xc3]; [xa9] ++ line_tail])
     = [content_envelope (JStr [65533; 65533]); TERMINATOR].
Proof. vm_compute. split; reflexivity. Qed.

(** The boundary case of the spec, a split inside the line between
    [data: cont] and the rest, is handled by both decoders. *)
Example split_inside_line :
  read_loop false new_TextDecoder []
    [value (bytes "data: {'cont"); value (bytes "ent':'x'}" ++ [x0a]); done]
  = ([onChunk (JStr (js "x"))], resolved)
  /\ writes (stream chat [bytes "data: {'choices':[{'delta':{'cont";
                          bytes "ent':'x'}}]}" ++ [x0a]])
     = [content_envelope (JStr (js "x")); TERMINATOR].
Proof. vm_compute. split; reflexivity. Qed.

End Scenario.

(** ** The stream client's outcome *)

Section ClientOutcome.

(** C8: when [response.ok] is false the client reads the body as text and
    rejects with the message [API error <status>: <text>]; it does not
    read the body stream, so no callback is made whatever the body
    holds. *)
Theorem failure_response_rejects (r : Response) (h : bool) :
  ok r = false ->
  streamFromApi r h
  = ([], rejected (js "API error " ++ decimal (status r) ++ js ": " ++ text r)).
Proof. intros Hok. unfold streamFromApi. rewrite Hok. reflexivity. Qed.

Lemma failure_response_rejects_witness :
  streamFromApi
    {| ok := false; status := 400;
       text := js "{'error':'No API key configured'}";
       body := Some [value (bytes "data: {'content':'x'}" ++ [x0a]); done] |}
    true
  = ([], rejected (js "API error 400: {'error':'No API key configured'}")).
Proof.
  exact (failure_response_rejects
           {| ok := false; status := 400;
              text := js "{'error':'No API key configured'}";
              body := Some [value (bytes "data: {'content':'x'}" ++ [x0a]); done] |}
           true eq_refl).
Defined.

(** C9: on a successful response the promise settles exactly when the
    source does.  Whatever the chunks hold, [DONE] lines included, every
    chunk is read and every complete line of the decoded text is
    processed; the promise stays pending while only chunks arrive, resolves
    at [done] and rejects with the reader's error. *)
Theorem settles_with_the_source (h : bool) (chunks : list (list byte)) :
  let calls :=
    client_text h (snd (decode_stream new_TextDecoder (List.concat chunks))) in
  streamFromApi (ok_response (map value chunks)) h = (calls, pending)
  /\ (forall rest,
         streamFromApi (ok_response (map value chunks ++ done :: rest)) h
         = (calls, resolved))
  /\ (forall message rest,
         streamFromApi
           (ok_response (map value chunks ++ read_error message :: rest)) h
         = (calls, rejected message)).
Proof.
  intros calls. unfold streamFromApi, ok_response. cbn [ok body negb].
  assert (Hloop : forall rest,
             read_loop h new_TextDecoder [] (map value chunks ++ rest) =
             let (d', T) := decode_stream new_TextDecoder (List.concat chunks) in
             let (calls', outcome) := read_loop h d' (fst (frame T)) rest in
             (client_text h T ++ calls', outcome)).
  { intros rest. rewrite read_loop_values by reflexivity.
    rewrite decode_chunks_concat. reflexivity. }
  subst calls.
  repeat split.
  - rewrite <- (app_nil_r (map value chunks)), Hloop.
    destruct (decode_stream new_TextDecoder (List.concat chunks)) as [d' T].
    simpl. rewrite app_nil_r. reflexivity.
  - intros rest. rewrite Hloop.
    destruct (decode_stream new_TextDecoder (List.concat chunks)) as [d' T].
    simpl. rewrite app_nil_r. reflexivity.
  - intros message rest. rewrite Hloop.
    destruct (decode_stream new_TextDecoder (List.concat chunks)) as [d' T].
    simpl. rewrite app_nil_r. reflexivity.
Qed.

(** A terminator in the middle of the body does not end the reading: the
    fragment that follows it is delivered, and the promise waits for
    [done]. *)
Example reads_past_DONE :
  streamFromApi
    (ok_response [value (bytes "data: [DONE]" ++ [x0a; x0a]);
                  value (bytes "data: {'content':'late'}" ++ [x0a; x0a])])
    false
  = ([onChunk (JStr (js "late"))], pending)
  /\ streamFromApi
       (ok_response [value (bytes "data: [DONE]" ++ [x0a; x0a]);
                     value (bytes "data: {'content':'late'}" ++ [x0a; x0a]);
                     done])
       false
     = ([onChunk (JStr (js "late"))], resolved).
Proof. vm_compute. split; reflexivity. Qed.

End ClientOutcome.

(** ** Credential resolution *)

Section Credential.



Lemma handler_parsed (ep : endpoint) (b : json) (env_key : option jsstring) :
  b <> JNull ->
  handler ep (Some b) env_key
  = let key := if truthy (Get b (js "apiKey")) then Get b (js "apiKey")
               else option_map JStr env_key in
    match key with
    | Some k =>
        if negb (truthy key)
        then (NO_KEY, None)
        else (STREAM_HEADERS,
              match open_upstream ep b k with
              | Normal request => Some request
              | Throw => None
              end)
    | None => (NO_KEY, None)
    end.
Proof.
  intros Hb. destruct b; try reflexivity. congruence.
Qed.

(** A handler that opens a request has a parsed body, has set and flushed
    the stream headers, and opened the request with the key resolved from
    the body and the environment. *)
Lemma handler_request (ep : endpoint) (body : jsval)
  (env_key : option jsstring) (calls : list res_call)
  (rq : upstream_request) :
  handler ep body env_key = (calls, Some rq) ->
  calls = STREAM_HEADERS
  /\ exists b k,
       body = Some b /\ b <> JNull
       /\ (if truthy (Get b (js "apiKey")) then Get b (js "apiKey")
           else option_map JStr env_key) = Some k
       /\ truthy (Some k) = true
       /\ open_upstream ep b k = Normal rq.
Proof.
  intros Eh. destruct body as [b|]; [|discriminate Eh].
  assert (Hb : b <> JNull) by (intros ->; discriminate Eh).
  rewrite (handler_parsed ep b env_key Hb) in Eh. cbn zeta in Eh.
  destruct (if truthy (Get b (js "apiKey")) then Get b (js "apiKey")
            else option_map JStr env_key) as [k|] eqn:Ek; [|discriminate Eh].
  destruct (truthy (Some k)) eqn:Ht; cbn [negb] in Eh; [|discriminate Eh].
  destruct (open_upstream ep b k) as [request|] eqn:Eo; [|discriminate Eh].
  injection Eh as <- <-.
  split; [reflexivity|]. exists b, k. repeat split; assumption.
Qed.

(** With a string as key the request is made exactly when
    [https.request] accepts the key in the Authorization header. *)
Lemma handler_string_key (ep : endpoint) (b : json)
  (env_key : option jsstring) (key : jsstring) :
  b <> JNull ->
  (if truthy (Get b (js "apiKey")) then Get b (js "apiKey")
   else option_map JStr env_key) = Some (JStr key) ->
  key <> [] ->
  match ep with
  | chat => true
  | generate_module => renders (Get b (js "code"))
  | self_modify =>
      renders (Get b (js "code")) && renders (Get b (js "instruction"))
  end = true ->
  handler ep (Some b) env_key
  = (STREAM_HEADERS,
     if forallb header_unit key
     then Some (request_for ep b (JStr key)) else None).
Proof.
  intros Hb Hkey Hne Hpayload.
  rewrite (handler_parsed ep b env_key Hb). cbn zeta. rewrite Hkey.
  destruct key as [|c key]; [congruence|]. cbn [truthy negb].
  unfold open_upstream. rewrite Hpayload.
  cbn [converts header_value andb].
  destruct (forallb header_unit (c :: key)); reflexivity.
Qed.




End Credential.

(** ** Lines that carry a fragment *)

Section Lines.

Lemma text_of_content_envelope (f : jsstring) :
  text_of (content_envelope (JStr f)) = Some (relay_line f ++ [LF; LF]).
Proof.
  unfold text_of, content_envelope. rewrite stringify_content.
  unfold relay_line. cbn [option_map]. rewrite <- app_assoc. reflexivity.
Qed.

Lemma process_line_relay_line (h : bool) (f : jsstring) :
  process_line h (relay_line f)
  = if nonempty f then [onChunk (JStr f)] else [].
Proof.
  unfold process_line, relay_line.
  rewrite startsWith_prefix, data_of_line. cbn [negb].
  unfold relay_payload at 1 2. rewrite trim_object1, object1_not_DONE.
  fold (relay_payload f). unfold try_dispatch.
  rewrite JSON_parse_relay_payload.
  change (Get (JObj [(js "content", JStr f)]) (js "content"))
    with (Some (JStr f)).
  change (Get (JObj [(js "content", JStr f)]) (js "error")) with (@None json).
  destruct f, h; reflexivity.
Qed.

Lemma try_forward_provider_payload (f : jsstring) :
  try_forward (provider_payload f)
  = Normal (if nonempty f then [res_write (content_envelope (JStr f))] else []).
Proof.
  unfold try_forward. rewrite JSON_parse_provider_payload.
  change (delta_content
            (JObj [(js "choices",
                    JArr [JObj [(js "delta", JObj [(js "content", JStr f)])]])]))
    with (Some (JStr f)).
  destruct f; reflexivity.
Qed.

Lemma data_line_provider_line (f : jsstring) :
  data_line (provider_line f)
  = if nonempty f then [res_write (content_envelope (JStr f))] else [].
Proof.
  unfold data_line, provider_line.
  rewrite startsWith_prefix, data_of_line. cbn [negb].
  unfold provider_payload at 1 2. rewrite trim_object1, object1_not_DONE.
  fold (provider_payload f). rewrite try_forward_provider_payload.
  reflexivity.
Qed.

Lemma end_line_provider_line (f : jsstring) :
  end_line (provider_line f)
  = if nonempty f then [res_write (content_envelope (JStr f))] else [].
Proof.
  unfold end_line, provider_line.
  rewrite startsWith_prefix, data_of_line. cbn [negb].
  unfold provider_payload at 1 2. rewrite trim_object1, object1_not_DONE.
  fold (provider_payload f). rewrite try_forward_provider_payload.
  reflexivity.
Qed.

(** C10: for a non-empty fragment, the envelope the relay writes is one
    line, [data: ] and the JSON text of [{content: fragment}], followed by
    two line feeds; the line holds no line feed whatever the fragment
    holds, and the client's line parser gives the fragment back to
    [onChunk], once, and calls nothing else. *)
Theorem envelope_round_trip (f : jsstring) (h : bool) :
  f <> [] ->
  exists line,
    text_of (content_envelope (JStr f)) = Some (line ++ [LF; LF])
    /\ line = DATA_PREFIX ++ 123 :: QuoteJSONString (js "content")
                           ++ 58 :: QuoteJSONString f ++ [125]
    /\ ~ In LF line
    /\ process_line h line = [onChunk (JStr f)]
    /\ client_text h (line ++ [LF; LF]) = [onChunk (JStr f)].
Proof.
  intros Hf. exists (relay_line f).
  assert (Hline : process_line h (relay_line f) = [onChunk (JStr f)]).
  { rewrite process_line_relay_line. destruct f; [congruence | reflexivity]. }
  split; [apply text_of_content_envelope|].
  split; [reflexivity|].
  split; [apply relay_payload_no_LF|].
  split; [exact Hline|].
  unfold client_text.
  change (relay_line f ++ [LF; LF]) with (relay_line f ++ LF :: [LF]).
  rewrite frame_line by apply relay_payload_no_LF.
  cbn [snd flat_map]. rewrite Hline. reflexivity.
Qed.

Lemma envelope_round_trip_witness :
  exists line,
    text_of (content_envelope (JStr [10; 34; 92; 7; 55357; 233]))
    = Some (line ++ [LF; LF])
    /\ line = DATA_PREFIX ++ 123 :: QuoteJSONString (js "content")
                ++ 58 :: QuoteJSONString [10; 34; 92; 7; 55357; 233] ++ [125]
    /\ ~ In LF line
    /\ process_line true line = [onChunk (JStr [10; 34; 92; 7; 55357; 233])]
    /\ client_text true (line ++ [LF; LF])
       = [onChunk (JStr [10; 34; 92; 7; 55357; 233])].
Proof.
  apply (envelope_round_trip [10; 34; 92; 7; 55357; 233] true). discriminate.
Defined.

End Lines.

(** ** From the provider to the callback *)

Section Pipeline.

Lemma array1_no_LF (t : jsstring) : ~ In LF t -> ~ In LF (array1 t).
Proof.
  intros Ht. unfold array1. cbn [In]. rewrite in_app_iff. cbn [In].
  unfold LF in *. intuition (try discriminate).
Qed.

Lemma payload_no_LF (k t : jsstring) : ~ In LF t -> ~ In LF (object1 k t).
Proof.
  intros Ht H. apply (object1_no_LF k t Ht).
  apply in_or_app. right. exact H.
Qed.

Lemma provider_line_no_LF (f : jsstring) : ~ In LF (provider_line f).
Proof.
  unfold provider_line, provider_payload.
  apply object1_no_LF, array1_no_LF, payload_no_LF, payload_no_LF,
        QuoteJSONString_no_LF.
Qed.

Lemma provider_lines_no_LF (fs : list jsstring) (with_DONE : bool) :
  Forall (fun l => ~ In LF l) (provider_lines fs with_DONE).
Proof.
  unfold provider_lines. apply Forall_app. split.
  - apply Forall_forall. intros l Hl. apply in_map_iff in Hl.
    destruct Hl as [f [<- _]]. apply provider_line_no_LF.
  - destruct with_DONE; [|constructor].
    constructor; [|constructor]. vm_compute. intuition discriminate.
Qed.

Lemma flat_map_data_line (fs : list jsstring) :
  flat_map data_line (map provider_line fs) = content_writes fs.
Proof.
  unfold content_writes. induction fs as [|f fs IH]; [reflexivity|].
  cbn [map flat_map filter]. rewrite data_line_provider_line, IH.
  destruct (nonempty f); reflexivity.
Qed.

(** What the relay does with a provider response in complete lines. *)
Lemma relay_text_provider (fs : list jsstring) (with_DONE : bool) :
  relay_text (provider_stream fs with_DONE)
  = content_writes fs
    ++ (if with_DONE then [res_write TERMINATOR] else [])
    ++ [res_write TERMINATOR; res_end].
Proof.
  unfold relay_text, provider_stream.
  rewrite <- (app_nil_r (terminated _)).
  rewrite frame_terminated by apply provider_lines_no_LF.
  cbn [fst snd frame]. rewrite app_nil_r.
  unfold provider_lines. rewrite flat_map_app, flat_map_data_line.
  rewrite <- app_assoc. f_equal. destruct with_DONE; reflexivity.
Qed.

Lemma body_text_provider (fs : list jsstring) (with_DONE : bool) :
  body_text (writes (relay_text (provider_stream fs with_DONE)))
  = Some (terminated (body_lines fs with_DONE)).
Proof.
  rewrite relay_text_provider. unfold content_writes, body_lines.
  induction (filter nonempty fs) as [|f l IH].
  - destruct with_DONE; reflexivity.
  - cbn [map app writes body_text flat_map].
    rewrite text_of_content_envelope, IH.
    unfold terminated. cbn [map List.concat app].
    rewrite <- !app_assoc. reflexivity.
Qed.

Lemma body_lines_no_LF (fs : list jsstring) (with_DONE : bool) :
  Forall (fun l => ~ In LF l) (body_lines fs with_DONE).
Proof.
  assert (HD : ~ In LF DONE_line) by (vm_compute; intuition discriminate).
  unfold body_lines. apply Forall_app; split; [|apply Forall_app; split].
  - induction (filter nonempty fs) as [|f l IH]; [constructor|].
    cbn [flat_map app]. constructor; [apply relay_payload_no_LF|].
    constructor; [intros []|exact IH].
  - destruct with_DONE; repeat constructor; auto.
  - repeat constructor; auto.
Qed.

Lemma client_text_body (h : bool) (fs : list jsstring) (with_DONE : bool) :
  client_text h (terminated (body_lines fs with_DONE))
  = map (fun f => onChunk (JStr f)) (filter nonempty fs).
Proof.
  unfold client_text.
  rewrite <- (app_nil_r (terminated _)).
  rewrite frame_terminated by apply body_lines_no_LF.
  cbn [fst snd frame]. rewrite app_nil_r.
  unfold body_lines. rewrite !flat_map_app.
  replace (flat_map (process_line h) (if with_DONE then [DONE_line; []] else []))
    with (@nil callback) by (destruct with_DONE; reflexivity).
  change (flat_map (process_line h) [DONE_line; []]) with (@nil callback).
  rewrite !app_nil_r.
  assert (Hne : forall f, In f (filter nonempty fs) -> nonempty f = true).
  { intros f Hf. apply filter_In in Hf. tauto. }
  induction (filter nonempty fs) as [|f l IH]; [reflexivity|].
  cbn [flat_map map app]. rewrite process_line_relay_line.
  rewrite (Hne f) by (left; reflexivity).
  change (process_line h []) with (@nil callback). cbn [app].
  f_equal. apply IH. intros g Hg. apply Hne. right. exact Hg.
Qed.

Lemma concat_filter_nonempty (fs : list jsstring) :
  List.concat (filter nonempty fs) = List.concat fs.
Proof.
  induction fs as [|f fs IH]; [reflexivity|].
  destruct f; cbn [filter nonempty List.concat app]; rewrite IH; reflexivity.
Qed.




End Pipeline.

(** ** Error payloads and malformed lines *)

Section Errors.

Lemma data_line_writes (line : jsstring) (w : written) :
  In (res_write w) (data_line line) ->
  w = TERMINATOR \/ exists c, w = content_envelope c.
Proof.
  unfold data_line.
  destruct (negb (startsWith line DATA_PREFIX)); [intros []|].
  destruct (str_eqb (trim (slice line 6)) DONE).
  - intros [H|[]]. left. congruence.
  - unfold try_forward.
    destruct (JSON_parse (trim (slice line 6))) as [parsed|]; [|intros []].
    assert (Hw : In (res_write w)
                   (match (if truthy (delta_content parsed)
                           then delta_content parsed else Some (JStr [])) with
                    | Some c =>
                        if truthy (if truthy (delta_content parsed)
                                   then delta_content parsed else Some (JStr []))
                        then [res_write (content_envelope c)] else []
                    | None => []
                    end) -> exists c, w = content_envelope c).
    { destruct (if truthy (delta_content parsed)
                then delta_content parsed else Some (JStr [])) as [c|];
        [|intros []].
      destruct (truthy (Some c)); [|intros []].
      intros [H|[]]. exists c. congruence. }
    destruct parsed; cbn [catch]; intros H; right; exact (Hw H).
Qed.

(** C6, on the code: the client hands the error field of a parsed payload
    to [onError], but the relay's two decoders read
    [choices[0].delta.content] only.  For an upstream line whose payload
    carries an error field the relay writes no error envelope and does not
    close the response there: the stream goes on and ends with the
    terminator, on the three endpoints; no line makes the data handler
    write an error envelope.  The relay writes that envelope only from its
    [error] listeners. *)
Theorem relay_drops_error_field (ep : endpoint) :
  stream ep [bytes "data: {'error':'boom'}" ++ [x0a]]
  = [res_write TERMINATOR; res_end]
  /\ streamFromApi
       (ok_response [value (bytes "data: {'error':'boom'}" ++ [x0a]); done])
       true
     = ([onError (JStr (js "boom"))], resolved)
  /\ upstream_run ep None [response; response_error (js "boom")]
     = [res_write (error_envelope (js "boom")); res_end]
  /\ forall line message,
       ~ In (res_write (error_envelope message)) (data_line line).
Proof.
  split; [destruct ep; vm_compute; reflexivity|].
  split; [vm_compute; reflexivity|].
  split; [reflexivity|].
  intros line message Hin.
  destruct (data_line_writes line _ Hin) as [H|[c H]]; discriminate H.
Qed.






Example malformed_line_between_fragments :
  stream chat [bytes both_a ++ [x0a] ++ bytes "data: {'content':";
               [x0a] ++ bytes both_b ++ [x0a]]
  = [res_write (content_envelope (JStr (js "a")));
     res_write (content_envelope (JStr (js "b")));
     res_write TERMINATOR; res_end].
Proof. vm_compute. reflexivity. Qed.

End Errors.

(** ** UTF-8: decoding what was encoded *)

Section Utf8RoundTrip.

Lemma to_N_byte_of (n : N) : n < 256 -> to_N (byte_of n) = n.
Proof.
  intros Hn. unfold byte_of.
  destruct (Byte.of_N n) as [b|] eqn:E.
  - apply Byte.to_of_N. exact E.
  - apply Byte.of_N_None_iff in E. lia.
Qed.

Lemma land_low (n a x : N) :
  x < 2 ^ n -> N.land (2 ^ n * a + x) (N.ones n) = x.
Proof.
  intros Hx. rewrite N.land_ones.
  rewrite N.add_comm, N.mul_comm, N.Div0.mod_add. apply N.mod_small. exact Hx.
Qed.

Lemma lor_shift (a y : N) : y < 64 -> N.lor (N.shiftl a 6) y = 64 * a + y.
Proof.
  intros Hy.
  assert (Hd : N.land (N.shiftl a 6) y = 0).
  { apply N.bits_inj. intros n. rewrite N.land_spec, N.bits_0.
    destruct (N.lt_ge_cases n 6) as [L|G].
    - rewrite N.shiftl_spec_low by exact L. reflexivity.
    - rewrite <- (N.mod_small y (2 ^ 6)) by exact Hy.
      rewrite N.mod_pow2_bits_high by exact G. apply andb_false_r. }
  rewrite <- N.lxor_lor by exact Hd.
  rewrite <- N.add_nocarry_lxor by exact Hd.
  rewrite N.shiftl_mul_pow2. change (2 ^ 6) with 64. lia.
Qed.

Lemma lead_2 (q : N) :
  2 <= q < 32 ->
  lead (192 + q)
  = ({| code_point := q; bytes_seen := 0; bytes_needed := 1;
        lower_boundary := 0x80; upper_boundary := 0xBF |}, []).
Proof.
  intros Hq. unfold lead. cmp_lia. cbn [andb].
  change 0x1F with (N.ones 5).
  replace (192 + q) with (2 ^ 5 * 6 + q) by (change (2 ^ 5) with 32; lia).
  rewrite land_low by (change (2 ^ 5) with 32; lia). reflexivity.
Qed.

Lemma lead_3 (p : N) :
  p < 16 ->
  lead (224 + p)
  = ({| code_point := p; bytes_seen := 0; bytes_needed := 2;
        lower_boundary := if p =? 0 then 0xA0 else 0x80;
        upper_boundary := if p =? 13 then 0x9F else 0xBF |}, []).
Proof.
  intros Hp. unfold lead. cmp_lia. cbn [andb].
  change 0xF with (N.ones 4).
  replace (224 + p) with (2 ^ 4 * 14 + p) by (change (2 ^ 4) with 16; lia).
  rewrite land_low by (change (2 ^ 4) with 16; lia).
  replace (2 ^ 4 * 14 + p =? 224) with (p =? 0)
    by (change (2 ^ 4) with 16; destruct (N.eqb_spec p 0);
        symmetry; [apply N.eqb_eq | apply N.eqb_neq]; lia).
  replace (2 ^ 4 * 14 + p =? 237) with (p =? 13)
    by (change (2 ^ 4) with 16; destruct (N.eqb_spec p 13);
        symmetry; [apply N.eqb_eq | apply N.eqb_neq]; lia).
  reflexivity.
Qed.

Lemma lead_4 (o : N) :
  o < 5 ->
  lead (240 + o)
  = ({| code_point := o; bytes_seen := 0; bytes_needed := 3;
        lower_boundary := if o =? 0 then 0x90 else 0x80;
        upper_boundary := if o =? 4 then 0x8F else 0xBF |}, []).
Proof.
  intros Ho. unfold lead. cmp_lia. cbn [andb].
  change 0x7 with (N.ones 3).
  replace (240 + o) with (2 ^ 3 * 30 + o) by (change (2 ^ 3) with 8; lia).
  rewrite land_low by (change (2 ^ 3) with 8; lia).
  replace (2 ^ 3 * 30 + o =? 240) with (o =? 0)
    by (change (2 ^ 3) with 8; destruct (N.eqb_spec o 0);
        symmetry; [apply N.eqb_eq | apply N.eqb_neq]; lia).
  replace (2 ^ 3 * 30 + o =? 244) with (o =? 4)
    by (change (2 ^ 3) with 8; destruct (N.eqb_spec o 4);
        symmetry; [apply N.eqb_eq | apply N.eqb_neq]; lia).
  reflexivity.
Qed.

(** A continuation byte inside the boundaries. *)
Lemma step_continuation (st : state) (y : N) :
  bytes_needed st <> 0 ->
  lower_boundary st <= 128 + y <= upper_boundary st ->
  y < 64 ->
  step st (128 + y)
  = if bytes_seen st + 1 =? bytes_needed st
    then (initial, [64 * code_point st + y])
    else ({| code_point := 64 * code_point st + y;
             bytes_seen := bytes_seen st + 1;
             bytes_needed := bytes_needed st;
             lower_boundary := 0x80; upper_boundary := 0xBF |}, []).
Proof.
  intros Hn Hb Hy. unfold step.
  replace (bytes_needed st =? 0) with false by (symmetry; apply N.eqb_neq; exact Hn).
  replace (128 + y <? lower_boundary st) with false
    by (symmetry; apply N.ltb_ge; lia).
  replace (upper_boundary st <? 128 + y) with false
    by (symmetry; apply N.ltb_ge; lia).
  cbn [orb].
  change 0x3F with (N.ones 6).
  replace (128 + y) with (2 ^ 6 * 2 + y) by (change (2 ^ 6) with 64; lia).
  rewrite land_low by exact Hy. rewrite lor_shift by exact Hy. reflexivity.
Qed.

Lemma run_1 (c : N) (rest : list byte) :
  c < 128 ->
  run initial (byte_of c :: rest) = emit c (run initial rest).
Proof.
  intros Hc. cbn [run]. rewrite to_N_byte_of by lia.
  unfold step. cbn [bytes_needed initial N.eqb]. unfold lead. cmp_lia.
  destruct (run initial rest). reflexivity.
Qed.

Lemma run_2 (q r : N) (rest : list byte) :
  2 <= q < 32 -> r < 64 ->
  run initial (byte_of (192 + q) :: byte_of (128 + r) :: rest)
  = emit (64 * q + r) (run initial rest).
Proof.
  intros Hq Hr. cbn [run]. rewrite !to_N_byte_of by lia.
  unfold step at 1. cbn [bytes_needed initial N.eqb].
  rewrite lead_2 by exact Hq.
  rewrite step_continuation
    by (cbn [bytes_needed bytes_seen lower_boundary upper_boundary]; lia).
  cbn [bytes_seen bytes_needed code_point].
  change (0 + 1 =? 1) with true. cbv iota.
  destruct (run initial rest). reflexivity.
Qed.

Lemma run_3 (p q r : N) (rest : list byte) :
  p < 16 -> q < 64 -> r < 64 ->
  (p = 0 -> 32 <= q) -> (p = 13 -> q < 32) ->
  run initial (byte_of (224 + p) :: byte_of (128 + q) :: byte_of (128 + r) :: rest)
  = emit (4096 * p + 64 * q + r) (run initial rest).
Proof.
  intros Hp Hq Hr H0 H13. cbn [run]. rewrite !to_N_byte_of by lia.
  unfold step at 1. cbn [bytes_needed initial N.eqb].
  rewrite lead_3 by exact Hp.
  rewrite step_continuation;
    [ | cbn [bytes_needed]; lia
      | cbn [lower_boundary upper_boundary];
        destruct (N.eqb_spec p 0), (N.eqb_spec p 13); lia
      | exact Hq ].
  cbn [bytes_seen bytes_needed code_point].
  change (0 + 1 =? 2) with false. change (0 + 1 =? 3) with false.
  change (0 + 1) with 1. cbv iota.
  rewrite step_continuation by (cbn [bytes_needed bytes_seen lower_boundary upper_boundary]; lia). cbn [bytes_seen bytes_needed code_point].
  change (1 + 1 =? 2) with true. cbv iota.
  destruct (run initial rest). unfold emit. cbn [fst snd app]. do 2 f_equal. lia.
Qed.

Lemma run_4 (o p q r : N) (rest : list byte) :
  o < 5 -> p < 64 -> q < 64 -> r < 64 ->
  (o = 0 -> 16 <= p) -> (o = 4 -> p < 16) ->
  run initial (byte_of (240 + o) :: byte_of (128 + p) :: byte_of (128 + q)
               :: byte_of (128 + r) :: rest)
  = emit (262144 * o + 4096 * p + 64 * q + r) (run initial rest).
Proof.
  intros Ho Hp Hq Hr H0 H4. cbn [run]. rewrite !to_N_byte_of by lia.
  unfold step at 1. cbn [bytes_needed initial N.eqb].
  rewrite lead_4 by exact Ho.
  rewrite step_continuation;
    [ | cbn [bytes_needed]; lia
      | cbn [lower_boundary upper_boundary];
        destruct (N.eqb_spec o 0), (N.eqb_spec o 4); lia
      | exact Hp ].
  cbn [bytes_seen bytes_needed code_point].
  change (0 + 1 =? 2) with false. change (0 + 1 =? 3) with false.
  change (0 + 1) with 1. cbv iota.
  rewrite step_continuation by (cbn [bytes_needed bytes_seen lower_boundary upper_boundary]; lia). cbn [bytes_seen bytes_needed code_point].
  change (1 + 1 =? 3) with false. cbv iota.
  rewrite step_continuation by (cbn [bytes_needed bytes_seen lower_boundary upper_boundary]; lia). cbn [bytes_seen bytes_needed code_point].
  change (1 + 1 + 1 =? 3) with true. cbv iota.
  destruct (run initial rest). unfold emit. cbn [fst snd app]. do 2 f_equal. lia.
Qed.

Lemma digits64 (cp : N) :
  cp = 64 * (cp / 64) + cp mod 64 /\ cp mod 64 < 64
  /\ cp / 64 = 64 * (cp / 4096) + (cp / 64) mod 64 /\ (cp / 64) mod 64 < 64
  /\ cp / 4096 = 64 * (cp / 262144) + (cp / 4096) mod 64
  /\ (cp / 4096) mod 64 < 64.
Proof.
  replace (cp / 262144) with (cp / 64 / 64 / 64)
    by (rewrite !N.Div0.div_div; reflexivity).
  replace (cp / 4096) with (cp / 64 / 64)
    by (rewrite !N.Div0.div_div; reflexivity).
  repeat split;
    first [ apply N.div_mod; discriminate | apply N.mod_lt; discriminate ].
Qed.

(** The decoder reads back the encoding of a scalar value. *)
Lemma run_encode (cp : N) (rest : list byte) :
  cp < 0x110000 -> ~ (0xD800 <= cp <= 0xDFFF) ->
  run initial (encode cp ++ rest) = emit cp (run initial rest).
Proof.
  intros Hmax Hsur. unfold encode.
  destruct (digits64 cp) as (E1 & L1 & E2 & L2 & E3 & L3).
  destruct (cp <? 128) eqn:C1; nprop.
  { apply run_1. exact C1. }
  destruct (cp <? 2048) eqn:C2; nprop.
  { cbn [app]. clear E2 L2 E3 L3.
    generalize dependent (cp mod 64). intros r E1 L1.
    generalize dependent (cp / 64). intros q E1.
    rewrite run_2 by lia. f_equal. lia. }
  destruct (cp <? 65536) eqn:C3; nprop.
  { cbn [app]. clear E3 L3.
    generalize dependent ((cp / 64) mod 64). intros q E2 L2.
    generalize dependent (cp mod 64). intros r E1 L1.
    generalize dependent (cp / 4096). intros p E2.
    generalize dependent (cp / 64). intros a E1 E2.
    rewrite run_3 by lia. f_equal. lia. }
  cbn [app].
  generalize dependent ((cp / 4096) mod 64). intros p E3 L3.
  generalize dependent ((cp / 64) mod 64). intros q E2 L2.
  generalize dependent (cp mod 64). intros r E1 L1.
  generalize dependent (cp / 262144). intros o E3.
  generalize dependent (cp / 4096). intros b E2 E3.
  generalize dependent (cp / 64). intros a E1 E2.
  rewrite run_4 by lia. f_equal. lia.
Qed.

Lemma run_encode_all (cps : list N) (rest : list byte) :
  Forall (fun cp => cp < 0x110000 /\ ~ (0xD800 <= cp <= 0xDFFF)) cps ->
  run initial (flat_map encode cps ++ rest)
  = (fst (run initial rest), cps ++ snd (run initial rest)).
Proof.
  induction 1 as [|cp cps [Hmax Hsur] _ IH].
  - cbn. destruct (run initial rest); reflexivity.
  - cbn [flat_map]. rewrite <- app_assoc, run_encode by assumption.
    rewrite IH. reflexivity.
Qed.

(** *** Strings *)

Lemma well_formed_code_points (s : jsstring) :
  well_formed s = true ->
  Forall (fun cp => cp < 0x110000 /\ ~ (0xD800 <= cp <= 0xDFFF)) (code_points s)
  /\ flat_map utf16 (code_points s) = s.
Proof.
  assert (H : forall n s, (List.length s <= n)%nat -> well_formed s = true ->
              Forall (fun cp => cp < 0x110000 /\ ~ (0xD800 <= cp <= 0xDFFF))
                     (code_points s)
              /\ flat_map utf16 (code_points s) = s).
  { clear s. induction n as [|n IH]; intros s Hn Hw.
    - destruct s; [split; [constructor|reflexivity] | simpl in Hn; lia].
    - destruct s as [|c r]; [split; [constructor|reflexivity]|].
      simpl in Hn. cbn [well_formed code_points] in *.
      destruct (is_high_surrogate c) eqn:Hh.
      + destruct r as [|d r']; [discriminate Hw|].
        apply andb_prop in Hw. destruct Hw as [Hl Hw]. rewrite Hl.
        destruct (IH r') as [IH1 IH2]; [simpl in Hn; lia | exact Hw |].
        unfold is_high_surrogate in Hh. unfold is_low_surrogate in Hl. nprop.
        split.
        * constructor; [lia | exact IH1].
        * cbn [flat_map]. rewrite IH2. unfold utf16. cmp_lia.
          replace (65536 + (c - 55296) * 1024 + (d - 56320) - 65536)
            with ((d - 56320) + (c - 55296) * 2 ^ 10)
            by (change (2 ^ 10) with 1024; lia).
          rewrite N.shiftr_div_pow2. change 0x3FF with (N.ones 10).
          rewrite N.land_ones.
          rewrite N.div_add by discriminate. rewrite N.Div0.mod_add.
          rewrite N.div_small, N.mod_small
            by (change (2 ^ 10) with 1024; lia).
          cbn [app]. do 2 f_equal; lia.
      + apply andb_prop in Hw. destruct Hw as [Hw Hr].
        apply andb_prop in Hw. destruct Hw as [Hl Hc].
        apply negb_true_iff in Hl. rewrite Hl.
        destruct (IH r) as [IH1 IH2]; [lia | exact Hr |].
        unfold is_high_surrogate in Hh. unfold is_low_surrogate in Hl.
        split.
        * constructor; [|exact IH1]. nprop; lia.
        * cbn [flat_map]. rewrite IH2. unfold utf16.
          rewrite Hc. reflexivity. }
  apply (H (List.length s) s). lia.
Qed.

(** Written by the relay and read back: the bytes of a well-formed string
    decode to the string. *)
Lemma Buffer_toString_from (s : jsstring) :
  well_formed s = true -> Buffer_toString (Buffer_from s) = s.
Proof.
  intros Hw. destruct (well_formed_code_points s Hw) as [Hs Hu].
  unfold Buffer_toString, Buffer_from.
  rewrite <- (app_nil_r (flat_map encode (code_points s))).
  rewrite run_encode_all by exact Hs.
  cbn [run fst snd flush initial bytes_needed N.eqb]. rewrite !app_nil_r.
  exact Hu.
Qed.

Lemma decode_stream_from (s : jsstring) :
  well_formed s = true -> hd 0 s <> 0xFEFF ->
  snd (decode_stream new_TextDecoder (Buffer_from s)) = s.
Proof.
  intros Hw Hb. destruct (well_formed_code_points s Hw) as [Hs Hu].
  unfold decode_stream, Buffer_from, new_TextDecoder. cbn [partial bom_seen].
  rewrite <- (app_nil_r (flat_map encode (code_points s))).
  rewrite run_encode_all by exact Hs.
  cbn [run fst snd]. rewrite app_nil_r.
  destruct (code_points s) as [|cp cps] eqn:Ec; [exact Hu|].
  replace (cp =? 65279) with false; [exact Hu|].
  symmetry. apply N.eqb_neq. intros ->.
  destruct s as [|c r]; [discriminate Ec|]. cbn [hd] in Hb.
  cbn [code_points well_formed] in Ec, Hw.
  destruct (is_high_surrogate c) eqn:Hh.
  - destruct r as [|d r']; [discriminate Hw|].
    apply andb_prop in Hw. destruct Hw as [Hl _]. rewrite Hl in Ec.
    unfold is_high_surrogate in Hh. unfold is_low_surrogate in Hl. nprop.
    assert (E : 65536 + (c - 55296) * 1024 + (d - 56320) = 65279)
      by congruence.
    lia.
  - apply andb_prop in Hw. destruct Hw as [Hw _].
    apply andb_prop in Hw. destruct Hw as [Hl _].
    apply negb_true_iff in Hl. rewrite Hl in Ec. congruence.
Qed.

Lemma well_formed_cons (c : code_unit) (s : jsstring) :
  c < 0xD800 -> well_formed (c :: s) = well_formed s.
Proof.
  intros Hc. cbn [well_formed]. unfold is_high_surrogate, is_low_surrogate.
  cmp_lia. reflexivity.
Qed.

Lemma well_formed_ascii (a s : jsstring) :
  Forall (fun c => c < 128) a -> well_formed (a ++ s) = well_formed s.
Proof.
  induction 1 as [|c a Hc _ IH]; [reflexivity|].
  cbn [app]. rewrite well_formed_cons by lia. exact IH.
Qed.

Lemma well_formed_app (a b : jsstring) :
  well_formed a = true -> well_formed b = true -> well_formed (a ++ b) = true.
Proof.
  intros Ha Hb.
  assert (H : forall n a, (List.length a <= n)%nat -> well_formed a = true ->
              well_formed (a ++ b) = true).
  { clear a Ha. induction n as [|n IH]; intros a Hn Ha.
    - destruct a; [exact Hb | simpl in Hn; lia].
    - destruct a as [|c r]; [exact Hb|].
      simpl in Hn. cbn [app well_formed] in *.
      destruct (is_high_surrogate c).
      + destruct r as [|d r']; [discriminate Ha|].
        apply andb_prop in Ha. destruct Ha as [Hl Ha].
        cbn [app]. rewrite Hl. cbn [andb]. apply IH; [simpl in Hn; lia|exact Ha].
      + apply andb_prop in Ha. destruct Ha as [Hc Ha].
        rewrite Hc. cbn [andb]. apply IH; [lia|exact Ha]. }
  apply (H (List.length a) a); [lia|exact Ha].
Qed.

Lemma hex_digit_ascii (d : N) : d < 16 -> hex_digit d < 128.
Proof. intros Hd. unfold hex_digit. destruct (d <? 10); lia. Qed.

Lemma unicode_escape_ascii (c : code_unit) :
  c < 65536 -> Forall (fun x => x < 128) (unicode_escape c).
Proof.
  intros Hc. unfold unicode_escape.
  assert (H1 : c / 4096 < 16) by (apply N.Div0.div_lt_upper_bound; lia).
  repeat (apply Forall_cons;
          [first [ lia
                 | apply hex_digit_ascii;
                   first [ exact H1 | apply N.mod_lt; discriminate ] ]|]).
  apply Forall_nil.
Qed.

Lemma well_formed_quote_chars (s : jsstring) :
  Forall (fun c => c < 65536) s -> well_formed (quote_chars s) = true.
Proof.
  assert (H : forall n s, (List.length s <= n)%nat ->
              Forall (fun c => c < 65536) s -> well_formed (quote_chars s) = true).
  { clear s. induction n as [|n IH]; intros s Hn Hs.
    - destruct s; [reflexivity | simpl in Hn; lia].
    - destruct s as [|c r]; [reflexivity|].
      simpl in Hn. inversion Hs as [|? ? Hc Hr]; subst.
      cbn [quote_chars].
      destruct (is_high_surrogate c) eqn:Hh.
      + destruct r as [|d r'].
        * rewrite <- (app_nil_r (unicode_escape c)).
          rewrite well_formed_ascii by (apply unicode_escape_ascii; exact Hc).
          reflexivity.
        * destruct (is_low_surrogate d) eqn:Hl.
          -- cbn [well_formed]. rewrite Hh, Hl. cbn [andb].
             inversion Hr; subst. apply IH; [simpl in Hn; lia | assumption].
          -- rewrite well_formed_ascii by (apply unicode_escape_ascii; exact Hc).
             apply IH; [lia | exact Hr].
      + destruct (is_low_surrogate c) eqn:Hl.
        * rewrite well_formed_ascii by (apply unicode_escape_ascii; exact Hc).
          apply IH; [lia | exact Hr].
        * assert (Hq : well_formed (quote_unit c ++ quote_chars r)
                       = well_formed (quote_chars r)).
          { unfold quote_unit.
            destruct (c =? 8); [apply well_formed_ascii; repeat (apply Forall_cons; [lia|]);
                             apply Forall_nil|].
            destruct (c =? 9); [apply well_formed_ascii; repeat (apply Forall_cons; [lia|]);
                             apply Forall_nil|].
            destruct (c =? 10); [apply well_formed_ascii; repeat (apply Forall_cons; [lia|]);
                             apply Forall_nil|].
            destruct (c =? 12); [apply well_formed_ascii; repeat (apply Forall_cons; [lia|]);
                             apply Forall_nil|].
            destruct (c =? 13); [apply well_formed_ascii; repeat (apply Forall_cons; [lia|]);
                             apply Forall_nil|].
            destruct (c =? 34); [apply well_formed_ascii; repeat (apply Forall_cons; [lia|]);
                             apply Forall_nil|].
            destruct (c =? 92); [apply well_formed_ascii; repeat (apply Forall_cons; [lia|]);
                             apply Forall_nil|].
            destruct (c <? 32);
              [apply well_formed_ascii, unicode_escape_ascii; exact Hc|].
            cbn [app well_formed]. rewrite Hh, Hl.
            replace (c <? 65536) with true by (symmetry; apply N.ltb_lt; exact Hc).
            reflexivity. }
          rewrite Hq. apply IH; [lia | exact Hr]. }
  intros Hs. apply (H (List.length s) s); [apply Nat.le_refl | exact Hs].
Qed.

Lemma well_formed_QuoteJSONString (s : jsstring) :
  Forall (fun c => c < 65536) s -> well_formed (QuoteJSONString s) = true.
Proof.
  intros Hs. unfold QuoteJSONString. rewrite well_formed_cons by (unfold QUOTE; lia).
  apply well_formed_app; [apply well_formed_quote_chars; exact Hs | reflexivity].
Qed.

Lemma well_formed_object1 (k t : jsstring) :
  Forall (fun c => c < 65536) k -> well_formed t = true ->
  well_formed (object1 k t) = true.
Proof.
  intros Hk Ht. unfold object1. rewrite well_formed_cons by lia.
  apply well_formed_app; [apply well_formed_QuoteJSONString; exact Hk|].
  rewrite well_formed_cons by lia. apply well_formed_app; [exact Ht | reflexivity].
Qed.

Lemma well_formed_array1 (t : jsstring) :
  well_formed t = true -> well_formed (array1 t) = true.
Proof.
  intros Ht. unfold array1. rewrite well_formed_cons by lia.
  apply well_formed_app; [exact Ht | reflexivity].
Qed.

Lemma literal_units (s : string) : Forall (fun c => c < 65536) (js s).
Proof.
  unfold js. apply Forall_forall. intros c Hc. apply in_map_iff in Hc.
  destruct Hc as [a [<- _]].
  pose proof (N_ascii_bounded a) as Ha. destruct (N_of_ascii a =? 39); unfold QUOTE; lia.
Qed.

Lemma well_formed_terminated (lines : list jsstring) :
  Forall (fun l => well_formed l = true) lines ->
  well_formed (terminated lines) = true.
Proof.
  induction 1 as [|l lines Hl _ IH]; [reflexivity|].
  unfold terminated in *. cbn [map List.concat]. rewrite <- app_assoc.
  apply well_formed_app; [exact Hl|]. cbn [app].
  rewrite well_formed_cons by (unfold LF; lia). exact IH.
Qed.

Lemma well_formed_relay_line (f : jsstring) :
  Forall (fun c => c < 65536) f -> well_formed (relay_line f) = true.
Proof.
  intros Hf. unfold relay_line, relay_payload.
  apply well_formed_app; [reflexivity|].
  apply well_formed_object1; [apply literal_units|].
  apply well_formed_QuoteJSONString. exact Hf.
Qed.

Lemma well_formed_provider_line (f : jsstring) :
  Forall (fun c => c < 65536) f -> well_formed (provider_line f) = true.
Proof.
  intros Hf. unfold provider_line, provider_payload.
  apply well_formed_app; [reflexivity|].
  apply well_formed_object1; [apply literal_units|].
  apply well_formed_array1.
  apply well_formed_object1; [apply literal_units|].
  apply well_formed_object1; [apply literal_units|].
  apply well_formed_QuoteJSONString. exact Hf.
Qed.

Lemma well_formed_provider_stream (fs : list jsstring) (with_DONE : bool) :
  Forall (Forall (fun c => c < 65536)) fs ->
  well_formed (provider_stream fs with_DONE) = true.
Proof.
  intros Hfs. unfold provider_stream, provider_lines.
  apply well_formed_terminated, Forall_app. split.
  - apply Forall_forall. intros l Hl. apply in_map_iff in Hl.
    destruct Hl as [f [<- Hf]]. apply well_formed_provider_line.
    rewrite Forall_forall in Hfs. apply Hfs. exact Hf.
  - destruct with_DONE; repeat constructor.
Qed.

Lemma well_formed_body (fs : list jsstring) (with_DONE : bool) :
  Forall (Forall (fun c => c < 65536)) fs ->
  well_formed (terminated (body_lines fs with_DONE)) = true
  /\ hd 0 (terminated (body_lines fs with_DONE)) <> 0xFEFF.
Proof.
  intros Hfs. split.
  - unfold body_lines. apply well_formed_terminated.
    apply Forall_app. split; [|apply Forall_app; split].
    + assert (Hsub : forall f, In f (filter nonempty fs) ->
                               Forall (fun c => c < 65536) f).
      { intros f Hf. apply filter_In in Hf. rewrite Forall_forall in Hfs.
        apply Hfs. tauto. }
      induction (filter nonempty fs) as [|f l IH]; [constructor|].
      cbn [flat_map app]. constructor.
      * apply well_formed_relay_line, Hsub. left. reflexivity.
      * constructor; [reflexivity|]. apply IH. intros g Hg. apply Hsub.
        right. exact Hg.
    + destruct with_DONE; repeat constructor.
    + repeat constructor.
  - unfold body_lines.
    destruct (filter nonempty fs) as [|f l]; [destruct with_DONE; discriminate|].
    discriminate.
Qed.

End Utf8RoundTrip.

(** ** The pipeline over UTF-8 *)

Section Transport.

Lemma decoded_chunks (texts : list jsstring) :
  Forall (fun t => well_formed t = true) texts ->
  List.concat (map Buffer_toString (map Buffer_from texts)) = List.concat texts.
Proof.
  induction 1 as [|t texts Ht _ IH]; [reflexivity|].
  cbn [map List.concat]. rewrite Buffer_toString_from by exact Ht.
  rewrite IH. reflexivity.
Qed.

(** For fragments that are strings of 16-bit units: when the provider's
    text reaches the relay in chunks cut between code points, and the
    bytes the relay writes reach the client cut anywhere, [onChunk]
    receives the non-empty fragments, in order. *)
Theorem fragments_in_order_utf8 (ep : endpoint) (h with_DONE : bool)
  (fs : list jsstring) (texts : list jsstring) (downstream : list (list byte)) :
  Forall (Forall (fun c => c < 65536)) fs ->
  Forall (fun t => well_formed t = true) texts ->
  List.concat texts = provider_stream fs with_DONE ->
  (forall body,
      body_text (writes (stream ep (map Buffer_from texts))) = Some body ->
      List.concat downstream = Buffer_from body) ->
  streamFromApi (ok_response (map value downstream ++ [done])) h
  = (map (fun f => onChunk (JStr f)) (filter nonempty fs), resolved).
Proof.
  intros Hfs Htexts Hcat Hdown.
  assert (Hbody : body_text (writes (stream ep (map Buffer_from texts)))
                  = Some (terminated (body_lines fs with_DONE))).
  { rewrite stream_text, decoded_chunks, Hcat by exact Htexts.
    apply body_text_provider. }
  specialize (Hdown _ Hbody).
  destruct (well_formed_body fs with_DONE Hfs) as [Hw Hb].
  rewrite client_stream_text, Hdown, decode_stream_from by assumption.
  f_equal. apply client_text_body.
Qed.

(** X5: for fragments that are strings of 16-bit units, when the
    provider's text arrives at the relay in one chunk of UTF-8, the body
    the relay writes is the text of the content envelopes and the
    terminators, and for every partition of the UTF-8 bytes of that body
    into chunks the client hands the non-empty fragments to [onChunk], in
    order, and resolves. *)
Corollary client_any_partition (ep : endpoint) (h with_DONE : bool)
  (fs : list jsstring) (downstream : list (list byte)) :
  Forall (Forall (fun c => c < 65536)) fs ->
  List.concat downstream = Buffer_from (terminated (body_lines fs with_DONE)) ->
  body_text (writes (stream ep [Buffer_from (provider_stream fs with_DONE)]))
  = Some (terminated (body_lines fs with_DONE))
  /\ streamFromApi (ok_response (map value downstream ++ [done])) h
     = (map (fun f => onChunk (JStr f)) (filter nonempty fs), resolved).
Proof.
  intros Hfs Hdown.
  assert (Hw : Forall (fun t => well_formed t = true)
                 [provider_stream fs with_DONE]).
  { constructor; [|constructor]. apply well_formed_provider_stream. exact Hfs. }
  assert (Hbody : body_text
                    (writes (stream ep (map Buffer_from
                                          [provider_stream fs with_DONE])))
                  = Some (terminated (body_lines fs with_DONE))).
  { rewrite stream_text, decoded_chunks by exact Hw.
    cbn [List.concat]. rewrite app_nil_r. apply body_text_provider. }
  split; [exact Hbody|].
  apply (fragments_in_order_utf8 ep h with_DONE fs
           [provider_stream fs with_DONE]); try assumption.
  - cbn [List.concat]. apply app_nil_r.
  - intros body Hb. rewrite Hbody in Hb. injection Hb as <-. exact Hdown.
Qed.

End Transport.

(** ** How many terminators are written *)

Section Terminators.

Lemma filter_terminator_try_forward (data : jsstring) :
  filter is_terminator (catch (try_forward data)) = [].
Proof.
  unfold try_forward.
  destruct (JSON_parse data) as [parsed|]; [|reflexivity].
  assert (H : filter is_terminator
                (match (if truthy (delta_content parsed)
                        then delta_content parsed else Some (JStr [])) with
                 | Some c =>
                     if truthy (if truthy (delta_content parsed)
                                then delta_content parsed else Some (JStr []))
                     then [res_write (content_envelope c)] else []
                 | None => []
                 end) = []).
  { destruct (if truthy (delta_content parsed)
              then delta_content parsed else Some (JStr [])) as [c|];
      [|reflexivity].
    destruct (truthy (Some c)); reflexivity. }
  destruct parsed; cbn [catch]; first [exact H | reflexivity].
Qed.

Lemma filter_terminator_data_line (line : jsstring) :
  filter is_terminator (data_line line)
  = if is_DONE_line line then [res_write TERMINATOR] else [].
Proof.
  unfold data_line, is_DONE_line.
  destruct (startsWith line DATA_PREFIX); [|reflexivity]. cbn [negb andb].
  destruct (str_eqb (trim (slice line 6)) DONE); [reflexivity|].
  apply filter_terminator_try_forward.
Qed.

Lemma filter_terminator_end_line (line : jsstring) :
  filter is_terminator (end_line line) = [].
Proof.
  unfold end_line.
  destruct (startsWith line DATA_PREFIX); [|reflexivity]. cbn [negb].
  destruct (str_eqb (trim (slice line 6)) DONE); [reflexivity|].
  apply filter_terminator_try_forward.
Qed.

Lemma end_lines_no_terminator (lines : list jsstring) :
  filter is_terminator (flat_map end_line lines) = [].
Proof.
  induction lines as [|line lines IH]; [reflexivity|].
  cbn [flat_map]. rewrite filter_app, filter_terminator_end_line. exact IH.
Qed.

Lemma data_lines_terminators (lines : list jsstring) :
  List.length (filter is_terminator (flat_map data_line lines))
  = List.length (filter is_DONE_line lines).
Proof.
  induction lines as [|line lines IH]; [reflexivity|].
  cbn [flat_map filter].
  rewrite filter_app, length_app, filter_terminator_data_line, IH.
  destruct (is_DONE_line line); reflexivity.
Qed.

(** X4: the streaming phase writes one terminator for the end of the
    upstream response and one more for every complete upstream line that
    is the sentinel: exactly one only when the provider sends no [DONE]
    line. *)
Theorem terminators_written (ep : endpoint) (chunks : list (list byte)) :
  List.length (filter is_terminator (stream ep chunks))
  = S (List.length
         (filter is_DONE_line
            (snd (frame (List.concat (map Buffer_toString chunks)))))).
Proof.
  rewrite stream_text. unfold relay_text.
  destruct (frame (List.concat (map Buffer_toString chunks))) as [tl lines].
  cbn [fst snd]. rewrite filter_app, length_app.
  assert (Hend : filter is_terminator (on_end tl) = [res_write TERMINATOR]).
  { unfold on_end. rewrite filter_app.
    replace (filter is_terminator
               (if truthy (Some (JStr (trim tl)))
                then flat_map end_line (split LF tl) else []))
      with (@nil res_call); [reflexivity|].
    destruct (truthy (Some (JStr (trim tl)))); [|reflexivity].
    symmetry. apply end_lines_no_terminator. }
  rewrite Hend, data_lines_terminators. cbn [List.length]. lia.
Qed.

End Terminators.

(** ** Chunk boundaries, on examples *)

Section Boundaries.

Lemma relay_chunking_witness :
  stream chat [bytes "data: {'choices':[{'delta':{'cont";
               bytes "ent':'x'}}]}" ++ [x0a]]
  = stream chat [bytes "data: {'choices':[{'delta':{'content':'x'}}]}"
                 ++ [x0a]].
Proof.
  apply (relay_chunking chat
           [bytes "data: {'choices':[{'delta':{'cont";
            bytes "ent':'x'}}]}" ++ [x0a]]
           [bytes "data: {'choices':[{'delta':{'content':'x'}}]}" ++ [x0a]]).
  vm_compute. reflexivity.
Defined.

Lemma client_chunking_witness :
  read_loop true new_TextDecoder []
    (map value [bytes "data: {'content':'" ++ [xc3];
                [xa9] ++ bytes "'}" ++ [x0a]] ++ [done])
  = read_loop true new_TextDecoder []
      (map value [bytes "data: {'content':'" ++ [xc3; xa9] ++ bytes "'}"
                  ++ [x0a]] ++ [done]).
Proof.
  apply (client_chunking true
           [bytes "data: {'content':'" ++ [xc3]; [xa9] ++ bytes "'}" ++ [x0a]]
           [bytes "data: {'content':'" ++ [xc3; xa9] ++ bytes "'}" ++ [x0a]]
           [done]).
  reflexivity.
Defined.

Lemma client_any_partition_witness :
  body_text (writes (stream chat [Buffer_from (provider_stream [[233]; []] true)]))
  = Some (terminated (body_lines [[233]; []] true))
  /\ streamFromApi
       (ok_response
          (map value
             [firstn 19 (Buffer_from (terminated (body_lines [[233]; []] true)));
              skipn 19 (Buffer_from (terminated (body_lines [[233]; []] true)))]
           ++ [done])) false
     = ([onChunk (JStr [233])], resolved).
Proof.
  apply (client_any_partition chat false true [[233]; []]
           [firstn 19 (Buffer_from (terminated (body_lines [[233]; []] true)));
            skipn 19 (Buffer_from (terminated (body_lines [[233]; []] true)))]).
  - repeat constructor.
  - vm_compute. reflexivity.
Defined.

End Boundaries.

(** ** What a stream is made of *)

Section Shape.

Lemma forwarded_content (v : json) :
  truthy (Some v) = true -> forwarded (res_write (content_envelope v)).
Proof.
  intros Ht. right. exists v. split; [reflexivity|]. split; [exact Ht|].
  intros f ->. split; [destruct f; [discriminate Ht|discriminate]|].
  rewrite text_of_content_envelope.
  unfold relay_line, relay_payload, object1. f_equal.
  generalize (QuoteJSONString f) as q. intros q.
  do 3 (cbn [app]; rewrite <- ?app_assoc). reflexivity.
Qed.

Lemma try_forward_forwarded (data : jsstring) :
  Forall forwarded (catch (try_forward data)).
Proof.
  unfold try_forward.
  destruct (JSON_parse data) as [parsed|]; [|constructor].
  assert (H : Forall forwarded
                (match (if truthy (delta_content parsed)
                        then delta_content parsed else Some (JStr [])) with
                 | Some c =>
                     if truthy (if truthy (delta_content parsed)
                                then delta_content parsed else Some (JStr []))
                     then [res_write (content_envelope c)] else []
                 | None => []
                 end)).
  { destruct (if truthy (delta_content parsed)
              then delta_content parsed else Some (JStr [])) as [c|];
      [|constructor].
    destruct (truthy (Some c)) eqn:Ht; [|constructor].
    constructor; [apply forwarded_content; exact Ht|constructor]. }
  destruct parsed; cbn [catch]; first [exact H | constructor].
Qed.

Lemma data_line_forwarded (line : jsstring) : Forall forwarded (data_line line).
Proof.
  unfold data_line.
  destruct (negb (startsWith line DATA_PREFIX)); [constructor|].
  destruct (str_eqb (trim (slice line 6)) DONE).
  - constructor; [left; reflexivity|constructor].
  - apply try_forward_forwarded.
Qed.

Lemma end_line_forwarded (line : jsstring) : Forall forwarded (end_line line).
Proof.
  unfold end_line.
  destruct (negb (startsWith line DATA_PREFIX)); [constructor|].
  destruct (str_eqb (trim (slice line 6)) DONE); [constructor|].
  apply try_forward_forwarded.
Qed.

Lemma lines_forwarded (f : jsstring -> list res_call) (lines : list jsstring) :
  (forall line, Forall forwarded (f line)) ->
  Forall forwarded (flat_map f lines).
Proof.
  intros H. induction lines as [|l lines IH]; [constructor|].
  cbn [flat_map]. apply Forall_app. split; [apply H|exact IH].
Qed.

Lemma forallb_flat_map {A B} (p : B -> bool) (f : A -> list B) (l : list A) :
  (forall x, forallb p (f x) = true) -> forallb p (flat_map f l) = true.
Proof.
  intros H. induction l as [|x l IH]; [reflexivity|].
  cbn [flat_map]. rewrite forallb_app, H, IH. reflexivity.
Qed.

Lemma handler_opens (ep : endpoint) (body : jsval) (env_key : option jsstring)
  (calls : list res_call) (rq : upstream_request) :
  handler ep body env_key = (calls, Some rq) -> calls = STREAM_HEADERS.
Proof. intros Eh. exact (proj1 (handler_request _ _ _ _ _ Eh)). Qed.

(** X6: when a handler opens the upstream request and the upstream
    response runs to its end, the calls on the downstream response are the
    three headers and their flush, then only writes, then the terminator
    and the one [res.end()]: no status call, no error envelope, nothing
    after the end.  Each of those writes is the terminator line or the
    template [data: ${JSON.stringify({content: v})}] and two line feeds
    for a truthy value [v]; when [v] is a string it is not empty and the
    text written is the envelope with [v] quoted.  (For another [v] the
    text is what JSON.stringify makes of it, null for a number beyond the
    range of a double.) *)
Theorem session_shape (ep : endpoint) (body : jsval)
  (env_key : option jsstring) (chunks : list (list byte))
  (hs : list res_call) (rq : upstream_request) :
  handler ep body env_key = (hs, Some rq) ->
  exists calls,
    session ep body env_key
      (response :: map response_data chunks ++ [response_end])
    = STREAM_HEADERS ++ calls ++ [res_write TERMINATOR; res_end]
    /\ Forall forwarded calls.
Proof.
  intros Eh. pose proof (handler_opens _ _ _ _ _ Eh) as ->.
  unfold session. rewrite Eh.
  change (upstream_run ep None
            (response :: map response_data chunks ++ [response_end]))
    with (stream ep chunks).
  rewrite stream_text. unfold relay_text, on_end.
  set (T := List.concat (map Buffer_toString chunks)).
  exists (flat_map data_line (snd (frame T))
          ++ (if truthy (Some (JStr (trim (fst (frame T)))))
              then flat_map end_line (split LF (fst (frame T))) else [])).
  split.
  - rewrite <- !app_assoc. reflexivity.
  - apply Forall_app. split.
    + apply lines_forwarded, data_line_forwarded.
    + destruct (truthy (Some (JStr (trim (fst (frame T)))))); [|constructor].
      apply lines_forwarded, end_line_forwarded.
Qed.

Lemma session_shape_witness :
  exists calls,
    session chat (Some (JObj [(js "apiKey", JStr (js "nvapi-1"))])) None
      (response :: map response_data [upstream_Hel; upstream_DONE]
       ++ [response_end])
    = STREAM_HEADERS ++ calls ++ [res_write TERMINATOR; res_end]
    /\ Forall forwarded calls.
Proof.
  exact (session_shape chat (Some (JObj [(js "apiKey", JStr (js "nvapi-1"))]))
           None [upstream_Hel; upstream_DONE] _ _ eq_refl).
Defined.

End Shape.

(** ** A stream that fails *)

Section Failure.

Lemma upstream_run_data (ep : endpoint) (chunks : list (list byte))
  (rest : list upstream_event) :
  forall buffer,
    frame buffer = (buffer, []) ->
    upstream_run ep (Some buffer) (map response_data chunks ++ rest)
    = flat_map data_line
        (snd (frame (buffer ++ List.concat (map Buffer_toString chunks))))
      ++ upstream_run ep
           (Some (fst (frame (buffer
                              ++ List.concat (map Buffer_toString chunks)))))
           rest.
Proof.
  induction chunks as [|chunk chunks IH]; intros buffer Hb.
  - cbn [map List.concat app]. rewrite app_nil_r, Hb. reflexivity.
  - cbn [map List.concat app upstream_run upstream_step].
    unfold on_data. fold (frame (buffer ++ Buffer_toString chunk)).
    destruct (frame (buffer ++ Buffer_toString chunk)) as [b2 lines] eqn:Ef.
    assert (Hb2 : frame b2 = (b2, [])).
    { pose proof (frame_tail (buffer ++ Buffer_toString chunk)) as Ht.
      rewrite Ef in Ht. exact Ht. }
    rewrite (IH b2 Hb2).
    rewrite (app_assoc buffer (Buffer_toString chunk)).
    rewrite (frame_app (buffer ++ Buffer_toString chunk)), Ef.
    cbn [fst snd]. rewrite flat_map_app, <- app_assoc. reflexivity.
Qed.

(** X7: when a handler opens the upstream request and the upstream fails
    after some chunks, the relay has written what the complete lines of
    the chunks gave; it drops the line left in its buffer, writes the
    error envelope with the message of the error instead of a terminator
    and ends the response.  On /api/self-modify an error of the request
    that comes after the response began runs two listeners: the envelope
    is written and the response ended twice. *)
Theorem session_failure (ep : endpoint) (body : jsval)
  (env_key : option jsstring) (chunks : list (list byte))
  (message : jsstring) (hs : list res_call) (rq : upstream_request) :
  handler ep body env_key = (hs, Some rq) ->
  let calls :=
    flat_map data_line
      (snd (frame (List.concat (map Buffer_toString chunks)))) in
  let failed := [res_write (error_envelope message); res_end] in
  session ep body env_key
    (response :: map response_data chunks ++ [response_error message])
  = STREAM_HEADERS ++ calls ++ failed
  /\ session ep body env_key
       (response :: map response_data chunks ++ [request_error message])
     = STREAM_HEADERS ++ calls
       ++ match ep with
          | self_modify => failed ++ failed
          | _ => failed
          end
  /\ session ep body env_key [request_error message]
     = STREAM_HEADERS ++ failed.
Proof.
  intros Eh calls failed. pose proof (handler_opens _ _ _ _ _ Eh) as ->.
  unfold session. rewrite Eh.
  cbn [upstream_run upstream_step app].
  rewrite !(upstream_run_data ep chunks _ [] eq_refl).
  cbn [app upstream_run upstream_step]. fold calls.
  rewrite !app_nil_r. repeat split.
Qed.

Lemma session_failure_witness :
  session self_modify (Some (JObj [(js "apiKey", JStr (js "nvapi-1"))])) None
    (response :: map response_data [upstream_Hel ++ bytes "data: {'cho"]
     ++ [request_error (js "socket hang up")])
  = STREAM_HEADERS
    ++ [res_write (content_envelope (JStr (js "Hel")));
        res_write (error_envelope (js "socket hang up")); res_end;
        res_write (error_envelope (js "socket hang up")); res_end].
Proof.
  exact (proj1 (proj2 (session_failure self_modify
                         (Some (JObj [(js "apiKey", JStr (js "nvapi-1"))]))
                         None [upstream_Hel ++ bytes "data: {'cho"]
                         (js "socket hang up") _ _ eq_refl))).
Defined.

End Failure.

(** ** The calls on the client's callbacks *)

Section Callbacks.

Lemma call_if_delivered (v : jsval) :
  forallb (delivered true) (call_if v onChunk) = true
  /\ forallb (delivered true) (call_if v onError) = true
  /\ forallb (delivered false) (call_if v onChunk) = true.
Proof.
  unfold call_if. destruct v as [x|]; [|repeat split].
  destruct (truthy (Some x)) eqn:Ht; [|repeat split].
  cbn [forallb delivered andb]. rewrite Ht. repeat split.
Qed.

Lemma process_line_delivered (h : bool) (line : jsstring) :
  forallb (delivered h) (process_line h line) = true.
Proof.
  unfold process_line.
  destruct (negb (startsWith line DATA_PREFIX)); [reflexivity|].
  destruct (str_eqb (trim (slice line 6)) DONE); [reflexivity|].
  unfold try_dispatch.
  destruct (JSON_parse (trim (slice line 6))) as [parsed|]; [|reflexivity].
  assert (H : forallb (delivered h)
                (call_if (Get parsed (js "content")) onChunk
                 ++ (if h then call_if (Get parsed (js "error")) onError
                     else [])) = true).
  { rewrite forallb_app.
    destruct (call_if_delivered (Get parsed (js "content"))) as [H1 [_ H3]].
    destruct (call_if_delivered (Get parsed (js "error"))) as [_ [H2 _]].
    destruct h; [rewrite H1, H2 | rewrite H3]; reflexivity. }
  destruct parsed; cbn [catch]; first [exact H | reflexivity].
Qed.

Lemma read_loop_delivered (h : bool) (source : list read_result) :
  forall d buffer,
    forallb (delivered h) (fst (read_loop h d buffer source)) = true.
Proof.
  induction source as [|r source IH]; intros d buffer; [reflexivity|].
  destruct r as [chunk| |message]; [|reflexivity|reflexivity].
  cbn [read_loop]. unfold on_value.
  destruct (decode_stream d chunk) as [d' decoded].
  destruct (pop_or_empty (split LF (buffer ++ decoded))) as [buffer' lines].
  specialize (IH d' buffer').
  destruct (read_loop h d' buffer' source) as [calls outcome].
  cbn [fst] in *. rewrite forallb_app, IH, andb_true_r.
  apply forallb_flat_map. apply process_line_delivered.
Qed.

(** X8: whatever the response holds, every value [streamFromApi] hands to
    [onChunk] is truthy (never the empty string, null, false or zero) and
    [onError] is called only when the caller gave it, with a truthy
    value. *)
Theorem callbacks_delivered (r : Response) (h : bool) :
  forallb (delivered h) (fst (streamFromApi r h)) = true.
Proof.
  unfold streamFromApi.
  destruct (negb (ok r)); [reflexivity|].
  destruct (body r) as [source|]; [|reflexivity].
  apply read_loop_delivered.
Qed.

Lemma call_if_filter (v : jsval) :
  filter is_onChunk (call_if v onChunk) = call_if v onChunk
  /\ filter is_onChunk (call_if v onError) = [].
Proof.
  unfold call_if. destruct v as [x|]; [|split; reflexivity].
  destruct (truthy (Some x)); split; reflexivity.
Qed.

Lemma process_line_optional (line : jsstring) :
  process_line false line = filter is_onChunk (process_line true line).
Proof.
  unfold process_line.
  destruct (negb (startsWith line DATA_PREFIX)); [reflexivity|].
  destruct (str_eqb (trim (slice line 6)) DONE); [reflexivity|].
  unfold try_dispatch.
  destruct (JSON_parse (trim (slice line 6))) as [parsed|]; [|reflexivity].
  assert (H : call_if (Get parsed (js "content")) onChunk ++ []
              = filter is_onChunk
                  (call_if (Get parsed (js "content")) onChunk
                   ++ call_if (Get parsed (js "error")) onError)).
  { rewrite filter_app.
    destruct (call_if_filter (Get parsed (js "content"))) as [-> _].
    destruct (call_if_filter (Get parsed (js "error"))) as [_ ->].
    reflexivity. }
  destruct parsed; cbn [catch]; first [exact H | reflexivity].
Qed.

Lemma filter_flat_map_process_line (lines : list jsstring) :
  flat_map (process_line false) lines
  = filter is_onChunk (flat_map (process_line true) lines).
Proof.
  induction lines as [|l lines IH]; [reflexivity|].
  cbn [flat_map]. rewrite filter_app, <- IH, <- process_line_optional.
  reflexivity.
Qed.

Lemma read_loop_optional (source : list read_result) :
  forall d buffer,
    read_loop false d buffer source
    = (filter is_onChunk (fst (read_loop true d buffer source)),
       snd (read_loop true d buffer source)).
Proof.
  induction source as [|r source IH]; intros d buffer; [reflexivity|].
  destruct r as [chunk| |message]; [|reflexivity|reflexivity].
  cbn [read_loop]. unfold on_value.
  destruct (decode_stream d chunk) as [d' decoded].
  destruct (pop_or_empty (split LF (buffer ++ decoded))) as [buffer' lines].
  rewrite (IH d' buffer').
  destruct (read_loop true d' buffer' source) as [calls outcome].
  cbn [fst snd]. rewrite filter_app, <- filter_flat_map_process_line.
  reflexivity.
Qed.

(** X9: the optional [onError] callback changes nothing else: without it
    [streamFromApi] makes the same [onChunk] calls, in the same order, and
    settles the same way as with it. *)
Theorem onError_optional (r : Response) :
  streamFromApi r false
  = (filter is_onChunk (fst (streamFromApi r true)),
     snd (streamFromApi r true)).
Proof.
  unfold streamFromApi.
  destruct (negb (ok r)); [reflexivity|].
  destruct (body r) as [source|]; [|reflexivity].
  apply read_loop_optional.
Qed.

End Callbacks.

(** ** Lines that end with a carriage return *)

Section CRLF.

Lemma startsWith_CR (p l : jsstring) :
  ~ In CR p -> startsWith (l ++ [CR]) p = startsWith l p.
Proof.
  revert l. induction p as [|x p IH]; intros l Hp; [reflexivity|].
  destruct l as [|c l]; cbn [app startsWith].
  - replace (CR =? x) with false; [reflexivity|].
    symmetry. apply N.eqb_neq. intros E. apply Hp. left. symmetry. exact E.
  - rewrite IH; [reflexivity|]. intros Hin. apply Hp. right. exact Hin.
Qed.

Lemma startsWith_length (p l : jsstring) :
  startsWith l p = true -> (List.length p <= List.length l)%nat.
Proof.
  revert l. induction p as [|x p IH]; intros l H; [cbn; lia|].
  destruct l as [|c l]; [discriminate H|].
  cbn [startsWith] in H. apply andb_prop in H. destruct H as [_ H].
  apply IH in H. cbn [List.length]. lia.
Qed.

Lemma trimStart_space (s : jsstring) (c : code_unit) :
  is_space c = true ->
  trimStart (s ++ [c])
  = match trimStart s with
    | [] => []
    | t => t ++ [c]
    end.
Proof.
  intros Hc. induction s as [|x s IH].
  - cbn [app trimStart]. rewrite Hc. reflexivity.
  - cbn [app trimStart]. destruct (is_space x); [exact IH|reflexivity].
Qed.

Lemma trim_space (s : jsstring) (c : code_unit) :
  is_space c = true -> trim (s ++ [c]) = trim s.
Proof.
  intros Hc. unfold trim. rewrite (trimStart_space s c Hc).
  destruct (trimStart s) as [|x t]; [reflexivity|].
  unfold trimEnd. rewrite rev_unit. cbn [trimStart]. rewrite Hc. reflexivity.
Qed.

Lemma payload_CR (line : jsstring) :
  startsWith line DATA_PREFIX = true ->
  trim (slice (line ++ [CR]) 6) = trim (slice line 6).
Proof.
  intros Hp. apply startsWith_length in Hp. unfold slice.
  rewrite skipn_app.
  replace (6 - List.length line)%nat with 0%nat
    by (change (List.length DATA_PREFIX) with 6%nat in Hp; lia).
  cbn [skipn]. apply trim_space. reflexivity.
Qed.

Lemma DATA_PREFIX_no_CR : ~ In CR DATA_PREFIX.
Proof. vm_compute. intuition discriminate. Qed.

Lemma data_line_CR (line : jsstring) : data_line (line ++ [CR]) = data_line line.
Proof.
  unfold data_line. rewrite (startsWith_CR _ _ DATA_PREFIX_no_CR).
  destruct (startsWith line DATA_PREFIX) eqn:Hp; [|reflexivity].
  rewrite (payload_CR _ Hp). reflexivity.
Qed.

Lemma process_line_CR (h : bool) (line : jsstring) :
  process_line h (line ++ [CR]) = process_line h line.
Proof.
  unfold process_line. rewrite (startsWith_CR _ _ DATA_PREFIX_no_CR).
  destruct (startsWith line DATA_PREFIX) eqn:Hp; [|reflexivity].
  rewrite (payload_CR _ Hp). reflexivity.
Qed.

Lemma frame_terminated_CRLF (lines : list jsstring) :
  Forall (fun l => ~ In LF l) lines ->
  frame (terminated_CRLF lines) = ([], map (fun l => l ++ [CR]) lines)
  /\ frame (terminated lines) = ([], lines).
Proof.
  intros Hno. unfold terminated_CRLF.
  rewrite <- (app_nil_r (terminated (map _ lines))).
  rewrite <- (app_nil_r (terminated lines)).
  rewrite !frame_terminated.
  - cbn [fst snd]. rewrite !app_nil_r. split; reflexivity.
  - exact Hno.
  - apply Forall_forall. intros l Hl. apply in_map_iff in Hl.
    destruct Hl as [l0 [<- Hl0]]. rewrite Forall_forall in Hno.
    rewrite in_app_iff. intros [Hin|[Hin|[]]]; [exact (Hno l0 Hl0 Hin)|].
    discriminate Hin.
Qed.

(** X10: both decoders accept lines that end with a carriage return and
    a line feed: for a text of complete lines, the relay makes the same
    calls and the client makes the same callbacks and settles the same
    way as for the same lines ended by a line feed only. *)
Theorem CRLF_accepted (ep : endpoint) (h : bool) (lines : list jsstring)
  (chunks chunks' : list (list byte)) :
  Forall (fun l => ~ In LF l) lines ->
  (List.concat (map Buffer_toString chunks) = terminated_CRLF lines ->
   List.concat (map Buffer_toString chunks') = terminated lines ->
   stream ep chunks = stream ep chunks')
  /\ (snd (decode_stream new_TextDecoder (List.concat chunks))
      = terminated_CRLF lines ->
      snd (decode_stream new_TextDecoder (List.concat chunks'))
      = terminated lines ->
      streamFromApi (ok_response (map value chunks ++ [done])) h
      = streamFromApi (ok_response (map value chunks' ++ [done])) h).
Proof.
  intros Hno. destruct (frame_terminated_CRLF lines Hno) as [Hcr Hlf].
  split; intros Hc Hc'.
  - rewrite !stream_text, Hc, Hc'. unfold relay_text. rewrite Hcr, Hlf.
    cbn [fst snd]. f_equal.
    clear. induction lines as [|l lines IH]; [reflexivity|].
    cbn [map flat_map]. rewrite data_line_CR, IH. reflexivity.
  - rewrite !client_stream_text, Hc, Hc'. unfold client_text.
    rewrite Hcr, Hlf. cbn [snd]. f_equal.
    clear. induction lines as [|l lines IH]; [reflexivity|].
    cbn [map flat_map]. rewrite process_line_CR, IH. reflexivity.
Qed.

Lemma CRLF_accepted_witness :
  stream chat [bytes both_a ++ [x0d; x0a]; bytes both_b ++ [x0d; x0a]]
  = stream chat [bytes both_a ++ [x0a] ++ bytes both_b ++ [x0a]]
  /\ streamFromApi
       (ok_response
          (map value [bytes both_a ++ [x0d; x0a]; bytes both_b ++ [x0d; x0a]]
           ++ [done])) true
     = streamFromApi
         (ok_response
            (map value [bytes both_a ++ [x0a] ++ bytes both_b ++ [x0a]]
             ++ [done])) true.
Proof.
  destruct (CRLF_accepted chat true [js both_a; js both_b]
              [bytes both_a ++ [x0d; x0a]; bytes both_b ++ [x0d; x0a]]
              [bytes both_a ++ [x0a] ++ bytes both_b ++ [x0a]])
    as [Hrelay Hclient].
  - repeat constructor; vm_compute; intuition discriminate.
  - split; [apply Hrelay | apply Hclient]; vm_compute; reflexivity.
Defined.

End CRLF.

(** ** Message ids *)

Section Ids.

Lemma digits_N_snoc (ds : jsstring) (d : code_unit) :
  digits_N (ds ++ [d]) = 10 * digits_N ds + (d - 48).
Proof. unfold digits_N. rewrite fold_left_app. reflexivity. Qed.

Lemma digits_fuel_digits (fuel : nat) :
  forall n acc,
    n < 2 ^ N.of_nat fuel ->
    exists ds,
      digits_fuel fuel n acc = ds ++ acc
      /\ digits_N ds = n
      /\ Forall (fun c => 48 <= c /\ c <= 57) ds.
Proof.
  induction fuel as [|fuel IH]; intros n acc Hn.
  - exists []. change (2 ^ N.of_nat 0) with 1 in Hn.
    assert (n = 0) as -> by lia. repeat split. constructor.
  - cbn [digits_fuel].
    assert (Hm : n mod 10 < 10) by (apply N.mod_lt; lia).
    destruct (n <? 10) eqn:E10.
    + exists [48 + n mod 10]. nprop.
      rewrite N.mod_small in * by lia.
      repeat split.
      * unfold digits_N. cbn [fold_left]. lia.
      * constructor; [lia|constructor].
    + nprop.
      assert (Hq : n / 10 < 2 ^ N.of_nat fuel).
      { rewrite Nat2N.inj_succ, N.pow_succ_r' in Hn.
        assert (H2 : n / 10 <= n / 2).
        { apply N.div_le_compat_l. lia. }
        assert (H3 : n / 2 < 2 ^ N.of_nat fuel).
        { apply N.Div0.div_lt_upper_bound. lia. }
        lia. }
      destruct (IH (n / 10) ((48 + n mod 10) :: acc) Hq) as [ds [Hds [Hv Hall]]].
      exists (ds ++ [48 + n mod 10]). repeat split.
      * rewrite Hds, <- app_assoc. reflexivity.
      * rewrite digits_N_snoc, Hv.
        pose proof (N.div_mod n 10) as Hdm.
        generalize dependent (n / 10). generalize dependent (n mod 10).
        intros. lia.
      * apply Forall_app. split; [exact Hall|].
        constructor; [|constructor].
        clear - Hm. generalize dependent (n mod 10). intros; lia.
Qed.

(** [decimal] writes digits only, and they read back as the number. *)
Lemma decimal_digits (n : N) :
  digits_N (decimal n) = n
  /\ Forall (fun c => 48 <= c /\ c <= 57) (decimal n).
Proof.
  unfold decimal.
  destruct (digits_fuel_digits (S (N.to_nat (N.log2 n))) n [])
    as [ds [Hds [Hv Hall]]].
  - rewrite Nat2N.inj_succ, N2Nat.id.
    destruct (N.eq_dec n 0) as [->|Hn]; [reflexivity|].
    apply N.log2_spec. lia.
  - rewrite Hds, app_nil_r. split; assumption.
Qed.

Lemma decimal_no_dash (n : N) : ~ In 45 (decimal n).
Proof.
  intros Hin. destruct (decimal_digits n) as [_ Hall].
  rewrite Forall_forall in Hall. specialize (Hall _ Hin). lia.
Qed.

Lemma decimal_inj (n m : N) : decimal n = decimal m -> n = m.
Proof.
  intros H. rewrite <- (proj1 (decimal_digits n)), <- (proj1 (decimal_digits m)).
  rewrite H. reflexivity.
Qed.

Lemma first_dash (a a' b b' : jsstring) :
  ~ In 45 a -> ~ In 45 a' ->
  a ++ 45 :: b = a' ++ 45 :: b' -> a = a' /\ b = b'.
Proof.
  revert a'. induction a as [|x a IH]; intros [|y a'] Ha Ha' H.
  - injection H as <-. split; reflexivity.
  - cbn in H. injection H as <- _. exfalso. apply Ha'. left. reflexivity.
  - cbn in H. injection H as -> _. exfalso. apply Ha. left. reflexivity.
  - cbn in H. injection H as -> H.
    destruct (IH a') as [-> ->]; try exact H.
    + intros Hin. apply Ha. right. exact Hin.
    + intros Hin. apply Ha'. right. exact Hin.
    + split; reflexivity.
Qed.

Lemma generateId_counter (c c' now now' : N) (random random' : jsstring) :
  fst (App.generateId c now random) = fst (App.generateId c' now' random') ->
  App.increment c = App.increment c'.
Proof.
  unfold App.generateId. cbn [fst].
  change (js "id-") with [105; 100; 45]. change (js "-") with [45].
  cbn [app]. intros H. injection H as H.
  destruct (first_dash _ _ _ _ (decimal_no_dash _) (decimal_no_dash _) H)
    as [_ H'].
  destruct (first_dash _ _ _ _ (decimal_no_dash _) (decimal_no_dash _) H')
    as [Hc _].
  apply decimal_inj. exact Hc.
Qed.

Lemma generateIds_later (calls : list (N * jsstring)) :
  forall c id,
    c + N.of_nat (List.length calls) <= 2 ^ 53 ->
    In id (generateIds c calls) ->
    exists k now random,
      c < k /\ id = fst (App.generateId (k - 1) now random)
      /\ App.increment (k - 1) = k.
Proof.
  induction calls as [|[now random] calls IH]; intros c id Hc Hin; [destruct Hin|].
  cbn [generateIds App.generateId] in Hin.
  cbn [List.length] in Hc. rewrite Nat2N.inj_succ in Hc.
  assert (Hi : App.increment c = c + 1).
  { unfold App.increment.
    replace (c <? 2 ^ 53) with true; [reflexivity|].
    symmetry. apply N.ltb_lt. lia. }
  destruct Hin as [<-|Hin].
  - exists (c + 1), now, random.
    replace (c + 1 - 1) with c by lia.
    repeat split; [lia|exact Hi].
  - rewrite Hi in Hin.
    destruct (IH (c + 1) id) as [k [now' [random' [Hk Hid]]]];
      [lia|exact Hin|].
    exists k, now', random'. split; [lia|exact Hid].
Qed.

(** X11: the ids [generateId] returns over successive calls are pairwise
    different, whatever the clock and the random digits give (the same
    millisecond and the same digits included), as long as the counter
    stays within the integers a Number counts exactly. *)
Theorem generateIds_distinct (msgCounter : N) (calls : list (N * jsstring)) :
  msgCounter + N.of_nat (List.length calls) <= 2 ^ 53 ->
  NoDup (generateIds msgCounter calls).
Proof.
  revert msgCounter.
  induction calls as [|[now random] calls IH]; intros c Hc; [constructor|].
  cbn [generateIds App.generateId].
  cbn [List.length] in Hc. rewrite Nat2N.inj_succ in Hc.
  assert (Hi : App.increment c = c + 1).
  { unfold App.increment.
    replace (c <? 2 ^ 53) with true; [reflexivity|].
    symmetry. apply N.ltb_lt. lia. }
  rewrite Hi. constructor; [|apply IH; lia].
  intros Hin.
  destruct (generateIds_later calls (c + 1) _ ltac:(lia) Hin)
    as [k [now' [random' [Hk [Hid Hinc]]]]].
  assert (Hfst : fst (App.generateId c now random)
                 = fst (App.generateId (k - 1) now' random')).
  { rewrite <- Hid. unfold App.generateId. rewrite Hi. reflexivity. }
  apply generateId_counter in Hfst. rewrite Hi, Hinc in Hfst. lia.
Qed.

Lemma generateIds_distinct_witness :
  NoDup (generateIds 0 [(1700000000000, js "k3x9q2m1z");
                        (1700000000000, js "k3x9q2m1z");
                        (1700000000001, js "")]).
Proof.
  apply generateIds_distinct. vm_compute. discriminate.
Defined.

End Ids.

(** ** Lines of a text *)

Section SplitCount.

(** [split] gives one segment more than the text has separators. *)
Lemma split_count (s : jsstring) :
  List.length (split LF s) = S (count_occ N.eq_dec s LF).
Proof.
  induction s as [|c s IH]; [reflexivity|].
  cbn [split count_occ].
  destruct (N.eq_dec c LF) as [->|Hc].
  - change (LF =? LF) with true. cbn [List.length]. rewrite IH. reflexivity.
  - replace (c =? LF) with false by (symmetry; apply N.eqb_neq; exact Hc).
    destruct (split LF s) as [|seg segs] eqn:Es; [discriminate IH|].
    cbn [List.length] in *. exact IH.
Qed.

End SplitCount.

(** ** The chat screen *)

Section ChatScreen.

Import App.Message.

Lemma updateLastMessage_last (text : jsstring) (m : ChatMessage)
  (prev : list ChatMessage) :
  updateLastMessage text (prev ++ [m]) = prev ++ [with_content m text].
Proof.
  induction prev as [|x prev IH]; [reflexivity|].
  cbn [app updateLastMessage]. rewrite IH.
  destruct prev; reflexivity.
Qed.

Lemma deliver_more (reply : jsstring * N) (fs : list jsstring) :
  forall full msgs inp str typ,
    Chat.deliver reply (map (fun f => onChunk (JStr f)) fs)
      (full, true,
       {| Chat.chatMessages := msgs ++ [assistant_message reply full];
          Chat.input := inp; Chat.isStreaming := str;
          Chat.showTyping := typ |})
    = Some (full ++ List.concat fs, true,
            {| Chat.chatMessages :=
                 msgs ++ [assistant_message reply (full ++ List.concat fs)];
               Chat.input := inp; Chat.isStreaming := str;
               Chat.showTyping := typ |}).
Proof.
  induction fs as [|f fs IH]; intros full msgs inp str typ.
  - cbn [map Chat.deliver List.concat]. rewrite app_nil_r. reflexivity.
  - cbn [map Chat.deliver ToString Chat.on_chunk negb List.concat
         Chat.chatMessages Chat.input Chat.isStreaming Chat.showTyping].
    rewrite updateLastMessage_last.
    change (with_content (assistant_message reply full) (full ++ f))
      with (assistant_message reply (full ++ f)).
    rewrite IH, <- app_assoc. reflexivity.
Qed.

Lemma deliver_first (reply : jsstring * N) (f : jsstring) (fs : list jsstring)
  (msgs : list ChatMessage) (inp : jsstring) (str typ : bool) :
  Chat.deliver reply (map (fun f => onChunk (JStr f)) (f :: fs))
    ([], false,
     {| Chat.chatMessages := msgs; Chat.input := inp;
        Chat.isStreaming := str; Chat.showTyping := typ |})
  = Some (f ++ List.concat fs, true,
          {| Chat.chatMessages :=
               msgs ++ [assistant_message reply (f ++ List.concat fs)];
             Chat.input := inp; Chat.isStreaming := str;
             Chat.showTyping := false |}).
Proof.
  cbn [map Chat.deliver ToString Chat.on_chunk negb app
       Chat.chatMessages Chat.input Chat.isStreaming Chat.showTyping].
  apply (deliver_more reply fs f msgs inp str false).
Qed.

Lemma truthy_nonempty (s : jsstring) :
  s <> [] -> truthy (Some (JStr s)) = true.
Proof. destruct s; [congruence|reflexivity]. Qed.

(** X12: [handleSend] with a text to send and no send in progress, for a
    response whose fragments are strings.  The user's message is added
    with the trimmed text and the input is cleared.  The fragments
    delivered make one assistant message that holds their concatenation,
    also when the stream fails after the first fragment: the error is then
    not reported.  A failure before any fragment adds an assistant message
    [Error: <message>]; a stream that ends without a fragment adds
    nothing.  The two flags are cleared unless the promise stays
    pending. *)
Theorem handleSend_outcome (st : Chat.state) (sent reply : jsstring * N)
  (r : Response) (fs : list jsstring) :
  trim (Chat.input st) <> [] ->
  Chat.isStreaming st = false ->
  fst (streamFromApi r false) = map (fun f => onChunk (JStr f)) fs ->
  Chat.handleSend st sent reply r
  = Some {| Chat.chatMessages :=
              Chat.chatMessages st
              ++ user_message sent (trim (Chat.input st))
              :: match fs, snd (streamFromApi r false) with
                 | _ :: _, _ => [assistant_message reply (List.concat fs)]
                 | [], rejected message =>
                     [assistant_message reply (js "Error: " ++ message)]
                 | [], _ => []
                 end;
            Chat.input := [];
            Chat.isStreaming :=
              match snd (streamFromApi r false) with
              | pending => true
              | _ => false
              end;
            Chat.showTyping :=
              match fs, snd (streamFromApi r false) with
              | [], pending => true
              | _, _ => false
              end |}.
Proof.
  intros Htext Hidle Hcalls. unfold Chat.handleSend.
  rewrite (truthy_nonempty _ Htext), Hidle. cbn [negb orb].
  destruct (streamFromApi r false) as [calls outcome].
  cbn [fst snd] in *. subst calls.
  unfold addChatMessage.
  destruct fs as [|f fs].
  - cbn [map Chat.deliver].
    destruct outcome; cbn [negb Chat.chatMessages Chat.input];
      rewrite <- ?app_assoc; reflexivity.
  - rewrite deliver_first.
    destruct outcome; cbn [negb Chat.chatMessages Chat.input List.concat];
      rewrite <- ?app_assoc; reflexivity.
Qed.

Lemma handleSend_outcome_witness :
  Chat.handleSend
    {| Chat.chatMessages := []; Chat.input := js " hi ";
       Chat.isStreaming := false; Chat.showTyping := false |}
    (js "id-1", 1) (js "id-2", 2)
    (ok_response [value (bytes "data: {'content':'Hel'}" ++ [x0a]);
                  value (bytes "data: {'content':'lo'}" ++ [x0a]);
                  read_error (js "reset")])
  = Some {| Chat.chatMessages :=
              [user_message (js "id-1", 1) (js "hi");
               assistant_message (js "id-2", 2) (js "Hello")];
            Chat.input := []; Chat.isStreaming := false;
            Chat.showTyping := false |}.
Proof.
  apply (handleSend_outcome
           {| Chat.chatMessages := []; Chat.input := js " hi ";
              Chat.isStreaming := false; Chat.showTyping := false |}
           (js "id-1", 1) (js "id-2", 2)
           (ok_response [value (bytes "data: {'content':'Hel'}" ++ [x0a]);
                         value (bytes "data: {'content':'lo'}" ++ [x0a]);
                         read_error (js "reset")])
           [js "Hel"; js "lo"]).
  - vm_compute. discriminate.
  - reflexivity.
  - vm_compute. reflexivity.
Defined.

(** X13: from the provider to the chat.  When the provider's text for
    the fragments [fs] reaches the /api/chat relay in chunks cut between
    code points, and the bytes the relay writes reach the app cut
    anywhere, [handleSend] leaves the user's message followed by one
    assistant message whose content is the concatenation of the
    fragments, or by nothing when all of them are empty. *)
Theorem chat_end_to_end (st : Chat.state) (sent reply : jsstring * N)
  (with_DONE : bool) (fs texts : list jsstring)
  (downstream : list (list byte)) :
  trim (Chat.input st) <> [] ->
  Chat.isStreaming st = false ->
  Forall (Forall (fun c => c < 65536)) fs ->
  Forall (fun t => well_formed t = true) texts ->
  List.concat texts = provider_stream fs with_DONE ->
  (forall body,
      body_text (writes (stream chat (map Buffer_from texts))) = Some body ->
      List.concat downstream = Buffer_from body) ->
  Chat.handleSend st sent reply (ok_response (map value downstream ++ [done]))
  = Some {| Chat.chatMessages :=
              Chat.chatMessages st
              ++ user_message sent (trim (Chat.input st))
              :: (if nonempty (List.concat fs)
                  then [assistant_message reply (List.concat fs)] else []);
            Chat.input := []; Chat.isStreaming := false;
            Chat.showTyping := false |}.
Proof.
  intros Htext Hidle Hfs Htexts Hcat Hdown. unfold Chat.handleSend.
  rewrite (truthy_nonempty _ Htext), Hidle. cbn [negb orb].
  rewrite (fragments_in_order_utf8 chat false with_DONE fs texts downstream)
    by assumption.
  rewrite <- (concat_filter_nonempty fs). unfold addChatMessage.
  destruct (filter nonempty fs) as [|f l] eqn:Ef.
  - reflexivity.
  - rewrite deliver_first.
    assert (Hf : nonempty f = true).
    { assert (Hin : In f (filter nonempty fs)) by (rewrite Ef; left; reflexivity).
      apply filter_In in Hin. exact (proj2 Hin). }
    destruct f as [|c f]; [discriminate Hf|].
    cbn [List.concat app nonempty Chat.chatMessages Chat.input].
    rewrite <- ?app_assoc. reflexivity.
Qed.

Lemma chat_end_to_end_witness :
  Chat.handleSend
    {| Chat.chatMessages := [user_message (js "id-0", 0) (js "hi")];
       Chat.input := js "again"; Chat.isStreaming := false;
       Chat.showTyping := false |}
    (js "id-1", 1) (js "id-2", 2)
    (ok_response
       (map value
          [firstn 19 (Buffer_from
                        (terminated (body_lines [[233]; []; js "t" ++ [233]] true)));
           skipn 19 (Buffer_from
                       (terminated (body_lines [[233]; []; js "t" ++ [233]] true)))]
        ++ [done]))
  = Some {| Chat.chatMessages :=
              [user_message (js "id-0", 0) (js "hi");
               user_message (js "id-1", 1) (js "again");
               assistant_message (js "id-2", 2) [233; 116; 233]];
            Chat.input := []; Chat.isStreaming := false;
            Chat.showTyping := false |}.
Proof.
  apply (chat_end_to_end
           {| Chat.chatMessages := [user_message (js "id-0", 0) (js "hi")];
              Chat.input := js "again"; Chat.isStreaming := false;
              Chat.showTyping := false |}
           (js "id-1", 1) (js "id-2", 2) true
           [[233]; []; js "t" ++ [233]]
           [provider_line [233] ++ [LF];
            provider_line [] ++ [LF] ++ provider_line (js "t" ++ [233]) ++ [LF]
            ++ DONE_line ++ [LF]]).
  - vm_compute. discriminate.
  - reflexivity.
  - repeat constructor.
  - repeat constructor.
  - vm_compute. reflexivity.
  - intros body Hbody. vm_compute in Hbody. injection Hbody as <-.
    vm_compute. reflexivity.
Defined.

End ChatScreen.

(** ** From the screens to the relay *)

Section Requests.

(** X14: the body each screen sends, as the relay's handler receives it.
    The key in effect is the key of the app when it is not empty (an
    empty key is left out of the body) and else the key of the relay's
    environment; with neither the relay answers 400.  With a key in
    effect the relay sends the stream headers, and it makes the upstream
    request only when every code unit of the key is one a header value
    may hold (tab, 0x20 to 0x7E, 0x80 to 0xFF): the key is then the
    bearer, and the chat history followed by the new text, the code and
    the instruction reach the request unchanged.  With any other code
    unit in the key [https.request] throws after the headers were sent:
    no upstream request is made and nothing more is done. *)
Theorem request_key (st : Chat.state)
  (editorCode modifyPrompt apiKey : jsstring) (env_key : option jsstring) :
  handler chat (Some (Chat.request_body st apiKey)) env_key
  = opened (effective_key apiKey env_key)
      (Turns (Some (JArr (map (fun m =>
                                 Chat.turn
                                   (Chat.role_name (App.Message.role m))
                                   (App.Message.content m))
                              (Chat.chatMessages st)
                          ++ [Chat.turn (js "user") (trim (Chat.input st))]))))
      7
  /\ handler generate_module
       (Some (Build.generate_body editorCode apiKey)) env_key
     = opened (effective_key apiKey env_key)
         (Transform (Some (JStr editorCode))) 6
  /\ handler self_modify
       (Some (Build.modify_body editorCode modifyPrompt apiKey)) env_key
     = opened (effective_key apiKey env_key)
         (Modify (Some (JStr editorCode)) (Some (JStr modifyPrompt))) 5.
Proof.
  destruct apiKey as [|c k]; [destruct env_key as [[|c k]|]|];
    repeat split; try reflexivity;
    (etransitivity;
     [ apply (handler_string_key _ _ _ (c :: k));
       [discriminate | reflexivity | discriminate | reflexivity]
     | unfold opened, effective_key, or_default; cbn [truthy nonempty];
       destruct (forallb header_unit (c :: k)); reflexivity ]).
Qed.

(** X15: with no key in the app and none in the relay's environment, the
    relay answers the chat request with status 400 and, for the response
    [fetch] makes of that answer, [handleSend] adds the user's message
    and then an assistant message that shows the status and the JSON body
    of the answer. *)
Theorem chat_without_key (st : Chat.state) (sent reply : jsstring * N)
  (env_key : option jsstring) (evs : list upstream_event)
  (source : option (list read_result)) :
  trim (Chat.input st) <> [] ->
  Chat.isStreaming st = false ->
  env_key = None \/ env_key = Some [] ->
  exists b r,
    session chat (Some (Chat.request_body st [])) env_key evs
    = [res_status 400; res_json b]
    /\ json_response 400 b source = Some r
    /\ Chat.handleSend st sent reply r
       = Some {| Chat.chatMessages :=
                   Chat.chatMessages st
                   ++ [user_message sent (trim (Chat.input st));
                       assistant_message reply
                         (js "Error: API error 400: {'error':'No API key configured'}")];
                 Chat.input := []; Chat.isStreaming := false;
                 Chat.showTyping := false |}.
Proof.
  intros Htext Hidle Hkey.
  exists (JObj [(js "error", JStr (js "No API key configured"))]).
  eexists. split; [|split; [reflexivity|]].
  - destruct Hkey as [->| ->]; reflexivity.
  - unfold Chat.handleSend.
    rewrite (truthy_nonempty _ Htext), Hidle. cbn [negb orb].
    unfold App.Message.addChatMessage. cbn. rewrite <- app_assoc. reflexivity.
Qed.

Lemma chat_without_key_witness :
  exists b r,
    session chat
      (Some (Chat.request_body
               {| Chat.chatMessages := []; Chat.input := js "hi";
                  Chat.isStreaming := false; Chat.showTyping := false |} []))
      None [response; response_data upstream_Hel; response_end]
    = [res_status 400; res_json b]
    /\ json_response 400 b None = Some r
    /\ Chat.handleSend
         {| Chat.chatMessages := []; Chat.input := js "hi";
            Chat.isStreaming := false; Chat.showTyping := false |}
         (js "id-1", 1) (js "id-2", 2) r
       = Some {| Chat.chatMessages :=
                   [user_message (js "id-1", 1) (js "hi");
                    assistant_message (js "id-2", 2)
                      (js "Error: API error 400: {'error':'No API key configured'}")];
                 Chat.input := []; Chat.isStreaming := false;
                 Chat.showTyping := false |}.
Proof.
  apply (chat_without_key
           {| Chat.chatMessages := []; Chat.input := js "hi";
              Chat.isStreaming := false; Chat.showTyping := false |}
           (js "id-1", 1) (js "id-2", 2) None
           [response; response_data upstream_Hel; response_end] None).
  - vm_compute. discriminate.
  - reflexivity.
  - left. reflexivity.
Defined.

End Requests.

(** ** The build screen *)

Section BuildScreen.

Import App.Log.

Lemma collect_strings (fs : list jsstring) :
  forall fullCode,
    Build.collect (map (fun f => onChunk (JStr f)) fs) fullCode
    = Some (fullCode ++ List.concat fs).
Proof.
  induction fs as [|f fs IH]; intros fullCode.
  - cbn [map Build.collect List.concat]. rewrite app_nil_r. reflexivity.
  - cbn [map Build.collect ToString List.concat].
    rewrite IH, <- app_assoc. reflexivity.
Qed.

(** X16: [handleGenerate] with code in the editor, for a response whose
    fragments are strings.  The earlier log entries are dropped and the
    generated code becomes the concatenation of the fragments delivered,
    also when the stream fails part-way.  The log holds the start and the
    source, then on success the completion and the number of lines of the
    code (one more than its line feeds), on failure the message of the
    error; nothing more while the promise is pending, and only then
    [isGenerating] stays set. *)
Theorem handleGenerate_outcome (st : Build.state) (editorCode : jsstring)
  (currentFile : option jsstring) (stamps : nat -> jsstring * N)
  (r : Response) (fs : list jsstring) :
  trim editorCode <> [] ->
  fst (streamFromApi r false) = map (fun f => onChunk (JStr f)) fs ->
  Build.handleGenerate st editorCode currentFile stamps r
  = Some (Build.Ran
            {| Build.generatedCode := List.concat fs;
               Build.buildLogs :=
                 [build_log (stamps 0%nat) (js "Starting module generation...")
                    info;
                  build_log (stamps 1%nat)
                    (js "Source: " ++ or_default currentFile (js "editor"))
                    info]
                 ++ match snd (streamFromApi r false) with
                    | resolved =>
                        [build_log (stamps 2%nat)
                           (js "Module generation complete") success;
                         build_log (stamps 3%nat)
                           (js "Generated "
                            ++ decimal
                                 (N.of_nat
                                    (S (count_occ N.eq_dec (List.concat fs) LF)))
                            ++ js " lines") info]
                    | rejected message =>
                        [build_log (stamps 2%nat)
                           (js "Generation failed: " ++ message) error]
                    | pending => []
                    end;
               Build.isGenerating :=
                 match snd (streamFromApi r false) with
                 | pending => true
                 | _ => false
                 end;
               Build.isCompiling := Build.isCompiling st |}).
Proof.
  intros Hcode Hcalls. unfold Build.handleGenerate.
  rewrite (truthy_nonempty _ Hcode). cbn [negb].
  destruct (streamFromApi r false) as [calls outcome].
  cbn [fst snd] in *. subst calls.
  rewrite collect_strings. cbn [app].
  unfold Build.line_count. rewrite split_count.
  destruct outcome; reflexivity.
Qed.

Lemma handleGenerate_outcome_witness :
  Build.handleGenerate
    {| Build.generatedCode := js "old";
       Build.buildLogs := [build_log (js "id-0", 0) (js "earlier") warning];
       Build.isGenerating := false; Build.isCompiling := false |}
    (js "fun main() {}") None (fun i => (js "id", N.of_nat i))
    (ok_response [value (bytes "data: {'content':'val a = 1\nval'}" ++ [x0a]);
                  value (bytes "data: {'content':' b'}" ++ [x0a]);
                  read_error (js "reset")])
  = Some (Build.Ran
            {| Build.generatedCode := js "val a = 1" ++ [LF] ++ js "val b";
               Build.buildLogs :=
                 [build_log (js "id", 0) (js "Starting module generation...")
                    info;
                  build_log (js "id", 1) (js "Source: editor") info;
                  build_log (js "id", 2) (js "Generation failed: reset") error];
               Build.isGenerating := false; Build.isCompiling := false |}).
Proof.
  apply (handleGenerate_outcome
           {| Build.generatedCode := js "old";
              Build.buildLogs :=
                [build_log (js "id-0", 0) (js "earlier") warning];
              Build.isGenerating := false; Build.isCompiling := false |}
           (js "fun main() {}") None (fun i => (js "id", N.of_nat i))
           (ok_response
              [value (bytes "data: {'content':'val a = 1\nval'}" ++ [x0a]);
               value (bytes "data: {'content':' b'}" ++ [x0a]);
               read_error (js "reset")])
           [js "val a = 1" ++ [LF] ++ js "val"; js " b"]).
  - vm_compute. discriminate.
  - vm_compute. reflexivity.
Defined.

(** X17: from the provider to the build screen.  [handleSelfModify]
    shows an alert and does nothing else when the editor or the
    instruction is blank.  Otherwise, when the provider's text for the
    fragments [fs] reaches the /api/self-modify relay in chunks cut
    between code points, and the bytes the relay writes reach the app cut
    anywhere, the generated code is the concatenation of the fragments
    and the log reads: start, instruction, target, completion, number of
    lines. *)
Theorem handleSelfModify_end_to_end (st : Build.state)
  (editorCode modifyPrompt : jsstring) (currentFile : option jsstring)
  (stamps : nat -> jsstring * N) (with_DONE : bool)
  (fs texts : list jsstring) (downstream : list (list byte)) :
  Forall (Forall (fun c => c < 65536)) fs ->
  Forall (fun t => well_formed t = true) texts ->
  List.concat texts = provider_stream fs with_DONE ->
  (forall body,
      body_text (writes (stream self_modify (map Buffer_from texts)))
      = Some body ->
      List.concat downstream = Buffer_from body) ->
  Build.handleSelfModify st editorCode modifyPrompt currentFile stamps
    (ok_response (map value downstream ++ [done]))
  = Some
      (if negb (nonempty (trim editorCode))
       then Build.Alert (js "No Code") (js "Open a file in the IDE tab first")
       else if negb (nonempty (trim modifyPrompt))
       then Build.Alert (js "No Instruction")
              (js "Enter what you want to change")
       else
         Build.Ran
           {| Build.generatedCode := List.concat fs;
              Build.buildLogs :=
                [build_log (stamps 0%nat) (js "Self-modification initiated...")
                   info;
                 build_log (stamps 1%nat) (js "Instruction: " ++ modifyPrompt)
                   info;
                 build_log (stamps 2%nat)
                   (js "Target: " ++ or_default currentFile (js "editor"))
                   info;
                 build_log (stamps 3%nat) (js "Self-modification complete")
                   success;
                 build_log (stamps 4%nat)
                   (js "Modified code: "
                    ++ decimal
                         (N.of_nat
                            (S (count_occ N.eq_dec (List.concat fs) LF)))
                    ++ js " lines") info];
              Build.isGenerating := false;
              Build.isCompiling := Build.isCompiling st |}).
Proof.
  intros Hfs Htexts Hcat Hdown. unfold Build.handleSelfModify.
  change (truthy (Some (JStr (trim editorCode))))
    with (nonempty (trim editorCode)).
  change (truthy (Some (JStr (trim modifyPrompt))))
    with (nonempty (trim modifyPrompt)).
  destruct (nonempty (trim editorCode)); [|reflexivity].
  destruct (nonempty (trim modifyPrompt)); [|reflexivity].
  cbn [negb].
  rewrite (fragments_in_order_utf8 self_modify false with_DONE fs texts
             downstream) by assumption.
  rewrite collect_strings. cbn [app].
  unfold Build.line_count.
  rewrite split_count, concat_filter_nonempty. reflexivity.
Qed.

Lemma handleSelfModify_end_to_end_witness :
  Build.handleSelfModify
    {| Build.generatedCode := js "old"; Build.buildLogs := [];
       Build.isGenerating := false; Build.isCompiling := false |}
    (js "val a = 1") (js "rename a") (Some (js "main.kt"))
    (fun i => (js "id", N.of_nat i))
    (ok_response
       (map value
          [firstn 30 (Buffer_from
                        (terminated
                           (body_lines [js "val b" ++ [LF]; js "= 1"] false)));
           skipn 30 (Buffer_from
                       (terminated
                          (body_lines [js "val b" ++ [LF]; js "= 1"] false)))]
        ++ [done]))
  = Some
      (Build.Ran
         {| Build.generatedCode := js "val b" ++ [LF] ++ js "= 1";
            Build.buildLogs :=
              [build_log (js "id", 0) (js "Self-modification initiated...")
                 info;
               build_log (js "id", 1) (js "Instruction: rename a") info;
               build_log (js "id", 2) (js "Target: main.kt") info;
               build_log (js "id", 3) (js "Self-modification complete")
                 success;
               build_log (js "id", 4) (js "Modified code: 2 lines") info];
            Build.isGenerating := false; Build.isCompiling := false |}).
Proof.
  apply (handleSelfModify_end_to_end
           {| Build.generatedCode := js "old"; Build.buildLogs := [];
              Build.isGenerating := false; Build.isCompiling := false |}
           (js "val a = 1") (js "rename a") (Some (js "main.kt"))
           (fun i => (js "id", N.of_nat i)) false
           [js "val b" ++ [LF]; js "= 1"]
           [provider_line (js "val b" ++ [LF]) ++ [LF];
            provider_line (js "= 1") ++ [LF]]).
  - repeat constructor.
  - repeat constructor.
  - vm_compute. reflexivity.
  - intros body Hbody. vm_compute in Hbody. injection Hbody as <-.
    vm_compute. reflexivity.
Defined.

End BuildScreen.

(** ** The files of the workspace *)

Section Files.

Import App.File.

Lemma str_eqb_eq (a b : jsstring) : str_eqb a b = true <-> a = b.
Proof.
  revert b. induction a as [|x a IH]; intros [|y b]; cbn [str_eqb];
    try (split; [discriminate|discriminate]); [split; reflexivity|].
  rewrite andb_true_iff, N.eqb_eq, IH. split.
  - intros [-> ->]. reflexivity.
  - intros H. injection H as -> ->. split; reflexivity.
Qed.

Lemma str_eqb_neq (a b : jsstring) : a <> b -> str_eqb a b = false.
Proof.
  intros H. destruct (str_eqb a b) eqn:E; [|reflexivity].
  apply str_eqb_eq in E. contradiction.
Qed.

Lemma str_eqb_refl (a : jsstring) : str_eqb a a = true.
Proof. apply str_eqb_eq. reflexivity. Qed.

Lemma find_update_same (now : nat -> N) (n text : jsstring)
  (prev : list FileEntry) :
  forall i,
    existsb (fun f => str_eqb (name f) n) prev = true ->
    option_map content
      (find (fun f => str_eqb (name f) n) (update now i n text prev))
    = Some text.
Proof.
  induction prev as [|f prev IH]; intros i H; [discriminate H|].
  cbn [existsb] in H. cbn [update].
  destruct (str_eqb (name f) n) eqn:E.
  - cbn [find name]. rewrite E. reflexivity.
  - cbn [find]. rewrite E. apply IH. exact H.
Qed.

Lemma find_update_other (now : nat -> N) (n n' text : jsstring)
  (prev : list FileEntry) :
  n' <> n ->
  forall i,
    find (fun f => str_eqb (name f) n') (update now i n text prev)
    = find (fun f => str_eqb (name f) n') prev.
Proof.
  intros Hn. induction prev as [|f prev IH]; intros i; [reflexivity|].
  cbn [update]. destruct (str_eqb (name f) n) eqn:E.
  - cbn [find name]. apply str_eqb_eq in E.
    rewrite E, (str_eqb_neq n n') by congruence. apply IH.
  - cbn [find]. rewrite IH. reflexivity.
Qed.

Lemma find_absent (n : jsstring) (prev : list FileEntry) :
  existsb (fun f => str_eqb (name f) n) prev = false ->
  find (fun f => str_eqb (name f) n) prev = None.
Proof.
  induction prev as [|f prev IH]; [reflexivity|].
  cbn [existsb find]. destruct (str_eqb (name f) n); [discriminate|].
  exact IH.
Qed.

Lemma find_app {A} (p : A -> bool) (l l' : list A) :
  find p (l ++ l') = match find p l with
                     | Some x => Some x
                     | None => find p l'
                     end.
Proof.
  induction l as [|x l IH]; [reflexivity|].
  cbn [app find]. destruct (p x); [reflexivity|exact IH].
Qed.

Lemma stored_save (now : nat -> N) (n text : jsstring) (w : workspace) :
  stored n (saveFile now n text w) = Some text
  /\ forall n', n' <> n -> stored n' (saveFile now n text w) = stored n' w.
Proof.
  unfold stored, saveFile, save. cbn [files].
  destruct (existsb (fun f => str_eqb (name f) n) (files w)) eqn:E; split.
  - apply find_update_same. exact E.
  - intros n' Hn. rewrite find_update_other by exact Hn. reflexivity.
  - rewrite find_app, (find_absent _ _ E). cbn [find name].
    rewrite str_eqb_refl. reflexivity.
  - intros n' Hn. rewrite find_app.
    destruct (find (fun f => str_eqb (name f) n') (files w)); [reflexivity|].
    cbn [find name]. rewrite (str_eqb_neq n n') by congruence. reflexivity.
Qed.



Lemma find_filter_other (n n' : jsstring) (l : list FileEntry) :
  n' <> n ->
  find (fun f => str_eqb (name f) n')
    (filter (fun f => negb (str_eqb (name f) n)) l)
  = find (fun f => str_eqb (name f) n') l.
Proof.
  intros Hn. induction l as [|f l IH]; [reflexivity|].
  cbn [filter find].
  destruct (str_eqb (name f) n) eqn:E; cbn [negb].
  - apply str_eqb_eq in E. rewrite E, (str_eqb_neq n n') by congruence.
    exact IH.
  - cbn [find]. rewrite IH. reflexivity.
Qed.

Lemma names_filter (n : jsstring) (l : list FileEntry) :
  ~ In n (map name (filter (fun f => negb (str_eqb (name f) n)) l)).
Proof.
  intros Hin. apply in_map_iff in Hin. destruct Hin as [f [Hf Hin]].
  apply filter_In in Hin. destruct Hin as [_ Hin].
  rewrite <- Hf, str_eqb_refl in Hin. discriminate Hin.
Qed.

(** X19: deleting.  After [handleDeleteFile], confirmed, no file of the
    name is left: [handleSelectFile] on the name changes nothing, the
    name is not the current file, and what any other name opens is what
    it opened before. *)
Theorem delete_then_open (st : IDE.state) (n : jsstring) :
  let deleted := IDE.handleDeleteFile n true st in
  IDE.handleSelectFile n deleted = deleted
  /\ ~ In n (file_names (IDE.context deleted))
  /\ currentFile (IDE.context deleted) <> Some n
  /\ forall n', n' <> n ->
       stored n' (IDE.context deleted) = stored n' (IDE.context st).
Proof.
  cbv zeta. unfold IDE.handleDeleteFile, IDE.with_context, deleteFile.
  pose proof (names_filter n (files (IDE.context st))) as Hgone.
  repeat split.
  - unfold IDE.handleSelectFile. cbn [IDE.context files].
    destruct (find (fun f => str_eqb (name f) n)
                (filter (fun f => negb (str_eqb (name f) n))
                        (files (IDE.context st)))) as [file|] eqn:Ef;
      [|reflexivity].
    exfalso. apply Hgone. apply find_some in Ef. destruct Ef as [Hin Hname].
    apply str_eqb_eq in Hname. apply in_map_iff. exists file.
    split; [exact Hname|exact Hin].
  - exact Hgone.
  - cbn [IDE.context currentFile].
    destruct (currentFile (IDE.context st)) as [c|]; [|discriminate].
    destruct (str_eqb c n) eqn:E; [discriminate|].
    intros H. injection H as ->. rewrite str_eqb_refl in E. discriminate E.
  - intros n' Hn. unfold stored. cbn [IDE.context files].
    rewrite find_filter_other by exact Hn. reflexivity.
Qed.

Lemma names_update (now : nat -> N) (n text : jsstring) (prev : list FileEntry) :
  forall i, map name (update now i n text prev) = map name prev.
Proof.
  induction prev as [|f prev IH]; intros i; [reflexivity|].
  cbn [update]. destruct (str_eqb (name f) n); cbn [map name];
    rewrite IH; reflexivity.
Qed.

Lemma names_absent (n : jsstring) (prev : list FileEntry) :
  existsb (fun f => str_eqb (name f) n) prev = false <-> ~ In n (map name prev).
Proof.
  induction prev as [|f prev IH]; [cbn; intuition|].
  cbn [existsb map In]. rewrite orb_false_iff, IH. split.
  - intros [E Hno] [Hf|Hin]; [|exact (Hno Hin)].
    rewrite Hf, str_eqb_refl in E. discriminate E.
  - intros Hno. split.
    + apply str_eqb_neq. intros Hf. apply Hno. left. exact Hf.
    + intros Hin. apply Hno. right. exact Hin.
Qed.

Lemma NoDup_snoc {A} (l : list A) (x : A) :
  NoDup (l ++ [x]) <-> NoDup l /\ ~ In x l.
Proof.
  split.
  - intros H. apply NoDup_remove in H. rewrite app_nil_r in H. exact H.
  - intros [Hl Hx]. apply NoDup_app; [exact Hl | repeat constructor; intros [] |].
    intros y Hy [<-|[]]. exact (Hx Hy).
Qed.

Lemma names_save (now : nat -> N) (n text : jsstring) (prev : list FileEntry) :
  NoDup (map name prev) -> NoDup (map name (save now n text prev)).
Proof.
  intros Hprev. unfold save.
  destruct (existsb (fun f => str_eqb (name f) n) prev) eqn:E.
  - rewrite names_update. exact Hprev.
  - rewrite map_app. apply NoDup_snoc. split; [exact Hprev|].
    apply names_absent. exact E.
Qed.

Lemma names_delete (n : jsstring) (prev : list FileEntry) :
  NoDup (map name prev) ->
  NoDup (map name (filter (fun f => negb (str_eqb (name f) n)) prev)).
Proof.
  induction prev as [|f prev IH]; intros H; [constructor|].
  cbn [map] in H. inversion H as [|x l Hx Hl]; subst.
  cbn [filter]. destruct (negb (str_eqb (name f) n)); [|exact (IH Hl)].
  cbn [map]. constructor; [|exact (IH Hl)].
  intros Hin. apply Hx. apply in_map_iff in Hin.
  destruct Hin as [g [Hg Hin]]. apply filter_In in Hin.
  rewrite <- Hg. apply in_map. exact (proj1 Hin).
Qed.

(** X20: one file per name.  When no two files have the same name,
    [handleSave], [handleDeleteFile] and [handleSelectFile] keep it so;
    [handleCreateFile] keeps it exactly when the name field is blank or
    the name it creates is not yet taken: it does not look for an
    existing file. *)
Theorem names_stay_unique (st : IDE.state) (now : nat -> N) (created : N)
  (n : jsstring) (confirmed : bool) :
  NoDup (file_names (IDE.context st)) ->
  NoDup (file_names (IDE.context (fst (IDE.handleSave now st))))
  /\ NoDup (file_names (IDE.context (IDE.handleDeleteFile n confirmed st)))
  /\ NoDup (file_names (IDE.context (IDE.handleSelectFile n st)))
  /\ (NoDup (file_names (IDE.context (IDE.handleCreateFile created st)))
      <-> trim (IDE.newFileName st) = []
          \/ ~ In (if endsWith (trim (IDE.newFileName st)) (js ".kt")
                   then trim (IDE.newFileName st)
                   else trim (IDE.newFileName st) ++ js ".kt")
                  (file_names (IDE.context st))).
Proof.
  intros Hst. unfold file_names in *. repeat split.
  - unfold IDE.handleSave.
    destruct (currentFile (IDE.context st)) as [c|]; [|exact Hst].
    destruct (truthy (Some (JStr c))); [|exact Hst].
    cbn [fst IDE.with_context IDE.context saveFile files].
    apply names_save. exact Hst.
  - unfold IDE.handleDeleteFile. destruct confirmed; [|exact Hst].
    cbn [IDE.with_context IDE.context deleteFile files].
    apply names_delete. exact Hst.
  - unfold IDE.handleSelectFile.
    destruct (find (fun f => str_eqb (name f) n) (files (IDE.context st)));
      exact Hst.
  - unfold IDE.handleCreateFile.
    destruct (trim (IDE.newFileName st)) as [|c t] eqn:Et;
      [left; reflexivity|].
    cbn [truthy negb IDE.context createFile files].
    rewrite map_app. cbn [map name]. intros H. right.
    apply NoDup_snoc in H. exact (proj2 H).
  - unfold IDE.handleCreateFile.
    intros [Hblank|Hfresh].
    + rewrite Hblank. exact Hst.
    + destruct (trim (IDE.newFileName st)) as [|c t] eqn:Et; [exact Hst|].
      cbn [truthy negb IDE.context createFile files].
      rewrite map_app. cbn [map name]. apply NoDup_snoc.
      split; [exact Hst|exact Hfresh].
Qed.

Lemma names_stay_unique_witness :
  ~ NoDup
      (file_names
         (IDE.context
            (IDE.handleCreateFile 9
               {| IDE.context :=
                    {| files := [{| name := js "main.kt"; content := js "x";
                                    lastModified := 1 |}];
                       currentFile := None; editorCode := [] |};
                  IDE.showBrowser := true; IDE.newFileName := js " main ";
                  IDE.showNewFile := true; IDE.isEditing := false |}))).
Proof.
  intros H.
  destruct (names_stay_unique
              {| IDE.context :=
                   {| files := [{| name := js "main.kt"; content := js "x";
                                   lastModified := 1 |}];
                      currentFile := None; editorCode := [] |};
                 IDE.showBrowser := true; IDE.newFileName := js " main ";
                 IDE.showNewFile := true; IDE.isEditing := false |}
              (fun _ => 0) 9 [] false)
    as [_ [_ [_ [Hcreate _]]]].
  - vm_compute. repeat constructor. intros [].
  - destruct (Hcreate H) as [Hblank|Hfresh].
    + vm_compute in Hblank. discriminate Hblank.
    + apply Hfresh. vm_compute. left. reflexivity.
Defined.

Lemma endsWith_suffix (s suffix : jsstring) : endsWith (s ++ suffix) suffix = true.
Proof.
  unfold endsWith. rewrite length_app.
  replace (List.length suffix <=? List.length s + List.length suffix)%nat
    with true by (symmetry; apply Nat.leb_le; lia).
  replace (List.length s + List.length suffix - List.length suffix)%nat
    with (List.length s + 0)%nat by lia.
  rewrite skipn_app, Nat.add_0_r, skipn_all, Nat.sub_diag.
  cbn [andb app skipn]. apply str_eqb_refl.
Qed.

Lemma endsWith_stem (s suffix : jsstring) :
  endsWith s suffix = true -> exists stem, s = stem ++ suffix.
Proof.
  unfold endsWith. intros H. apply andb_prop in H. destruct H as [_ H].
  apply str_eqb_eq in H.
  set (k := (List.length s - List.length suffix)%nat) in *.
  exists (firstn k s). rewrite <- H. symmetry. apply firstn_skipn.
Qed.

(** X21: the file [handleCreateFile] creates.  With a blank name field
    nothing changes.  Otherwise one file is added at the end, empty and
    stamped with the clock, under this name: the trimmed name itself when
    it is some stem followed by [.kt], and the trimmed name followed by
    [.kt] when it is not.  So the name always ends with [.kt] and is
    never given a second [.kt]; the new file becomes the current one, the
    editor and the name field are emptied, the name form and the browser
    are closed. *)
Theorem created_file (created : N) (st : IDE.state) :
  let n := trim (IDE.newFileName st) in
  let st' := IDE.handleCreateFile created st in
  if nonempty n then
    exists n',
      (((exists stem, n = stem ++ js ".kt") /\ n' = n)
       \/ ((forall stem, n <> stem ++ js ".kt") /\ n' = n ++ js ".kt"))
      /\ (exists stem, n' = stem ++ js ".kt")
      /\ n' <> []
      /\ files (IDE.context st')
         = files (IDE.context st)
           ++ [{| name := n'; content := []; lastModified := created |}]
      /\ currentFile (IDE.context st') = Some n'
      /\ editorCode (IDE.context st') = []
      /\ IDE.newFileName st' = []
      /\ IDE.showNewFile st' = false
      /\ IDE.showBrowser st' = false
      /\ IDE.isEditing st' = IDE.isEditing st
  else st' = st.
Proof.
  cbv zeta. unfold IDE.handleCreateFile.
  change (truthy (Some (JStr (trim (IDE.newFileName st)))))
    with (nonempty (trim (IDE.newFileName st))).
  destruct (nonempty (trim (IDE.newFileName st))) eqn:En; [|reflexivity].
  cbn [negb].
  destruct (endsWith (trim (IDE.newFileName st)) (js ".kt")) eqn:E.
  - exists (trim (IDE.newFileName st)).
    pose proof (endsWith_stem _ _ E) as Hs.
    split; [left; split; [exact Hs|reflexivity]|].
    split; [exact Hs|].
    split; [intros H0; rewrite H0 in En; discriminate En|].
    repeat split.
  - exists (trim (IDE.newFileName st) ++ js ".kt").
    split.
    + right. split; [|reflexivity].
      intros stem Hs. rewrite Hs, endsWith_suffix in E. discriminate E.
    + split; [exists (trim (IDE.newFileName st)); reflexivity|].
      split; [intros H0; apply app_eq_nil in H0; destruct H0 as [_ H0];
              discriminate H0|].
      repeat split.
Qed.

(** X22: [applyToEditor] puts the code in the editor and in the store
    under one name: the file name given, or else the current file, or
    else [generated.kt].  That name becomes the current file, opening it
    again gives the code, and what any other name opens is unchanged. *)
Theorem applyToEditor_stores (now : nat -> N) (code : jsstring)
  (fileName : option jsstring) (w : workspace) :
  let target :=
    match fileName, currentFile w with
    | Some ((_ :: _) as n), _ => n
    | _, Some ((_ :: _) as n) => n
    | _, _ => js "generated.kt"
    end in
  let w' := applyToEditor now code fileName w in
  editorCode w' = code
  /\ currentFile w' = Some target
  /\ stored target w' = Some code
  /\ forall n', n' <> target -> stored n' w' = stored n' w.
Proof.
  cbv zeta. unfold applyToEditor.
  set (target := or_default _ _).
  assert (Ht : target
               = match fileName, currentFile w with
                 | Some ((_ :: _) as n), _ => n
                 | _, Some ((_ :: _) as n) => n
                 | _, _ => js "generated.kt"
                 end).
  { subst target. destruct fileName as [[|c f]|];
      destruct (currentFile w) as [[|d g]|]; reflexivity. }
  rewrite <- Ht.
  destruct (stored_save now target code
              {| files := files w; currentFile := Some target;
                 editorCode := code |}) as [Hsame Hother].
  repeat split; [exact Hsame|].
  intros n' Hn. rewrite (Hother n' Hn). reflexivity.
Qed.

End Files.

(** ** From the provider to the editor *)

Section Load.

Import App.File.

Lemma target_file (w : workspace) :
  or_default
    (Some (or_default (Some (or_default (currentFile w) (js "generated.kt")))
             (or_default (currentFile w) [])))
    (js "generated.kt")
  = or_default (currentFile w) (js "generated.kt").
Proof. destruct (currentFile w) as [[|c n]|]; reflexivity. Qed.

(** X24: generate, then compile and load.  When the provider's text for
    the fragments reaches the /api/generate-module relay in chunks cut
    between code points and the relay's bytes reach the app cut anywhere,
    and the code received is not blank, [handleGenerate] followed by
    [handleCompileAndLoad] leaves the concatenation of the provider's
    fragments in the editor and in the store, under the current file or
    else under [generated.kt]: that name is current, opening it gives the
    code, what any other name opens is unchanged, and a module version
    below 2^53 is one more. *)
Theorem generated_code_loaded (st : Build.state) (w : workspace)
  (version : N) (stamps stamps' : nat -> jsstring * N) (now : nat -> N)
  (with_DONE : bool) (fs texts : list jsstring)
  (downstream : list (list byte)) :
  version < 2 ^ 53 ->
  trim (editorCode w) <> [] ->
  trim (List.concat fs) <> [] ->
  Forall (Forall (fun c => c < 65536)) fs ->
  Forall (fun t => well_formed t = true) texts ->
  List.concat texts = provider_stream fs with_DONE ->
  (forall body,
      body_text (writes (stream generate_module (map Buffer_from texts)))
      = Some body ->
      List.concat downstream = Buffer_from body) ->
  let target := or_default (currentFile w) (js "generated.kt") in
  exists st1 st2 w',
    Build.handleGenerate st (editorCode w) (currentFile w) stamps
      (ok_response (map value downstream ++ [done]))
    = Some (Build.Ran st1)
    /\ Build.handleCompileAndLoad now stamps' st1 w version
       = Build.Loaded st2 w' (version + 1)
    /\ editorCode w' = List.concat fs
    /\ currentFile w' = Some target
    /\ stored target w' = Some (List.concat fs)
    /\ (forall n', n' <> target -> stored n' w' = stored n' w)
    /\ Build.generatedCode st2 = List.concat fs
    /\ Build.isCompiling st2 = false.
Proof.
  intros Hversion Hcode Hgen Hfs Htexts Hcat Hdown target.
  apply N.ltb_lt in Hversion.
  unfold Build.handleGenerate.
  rewrite (truthy_nonempty _ Hcode). cbn [negb].
  rewrite (fragments_in_order_utf8 generate_module false with_DONE fs texts
             downstream) by assumption.
  rewrite collect_strings, concat_filter_nonempty. cbn [app].
  eexists. eexists. eexists.
  split; [reflexivity|].
  unfold Build.handleCompileAndLoad. cbn [Build.generatedCode].
  rewrite (truthy_nonempty _ Hgen). cbn [negb].
  unfold App.increment. rewrite Hversion.
  split; [reflexivity|].
  unfold applyToEditor. rewrite target_file. fold target.
  destruct (stored_save now target (List.concat fs)
              {| files := files w; currentFile := Some target;
                 editorCode := List.concat fs |}) as [Hsame Hother].
  repeat split; [exact Hsame|].
  intros n' Hn. rewrite (Hother n' Hn). reflexivity.
Qed.

Lemma generated_code_loaded_witness :
  exists st1 st2 w',
    Build.handleGenerate
      {| Build.generatedCode := []; Build.buildLogs := [];
         Build.isGenerating := false; Build.isCompiling := false |}
      (js "val a = 1") None (fun i => (js "id", N.of_nat i))
      (ok_response
         (map value
            [Buffer_from (terminated (body_lines [js "val b"; js " = 2"] true))]
          ++ [done]))
    = Some (Build.Ran st1)
    /\ Build.handleCompileAndLoad (fun _ => 7)
         (fun i => (js "id", N.of_nat i)) st1
         {| files := [{| name := js "main.kt"; content := js "val a = 1";
                         lastModified := 1 |}];
            currentFile := None; editorCode := js "val a = 1" |} 1
       = Build.Loaded st2 w' (1 + 1)
    /\ editorCode w' = List.concat [js "val b"; js " = 2"]
    /\ currentFile w' = Some (js "generated.kt")
    /\ stored (js "generated.kt") w'
       = Some (List.concat [js "val b"; js " = 2"])
    /\ (forall n', n' <> js "generated.kt" ->
          stored n' w'
          = stored n'
              {| files := [{| name := js "main.kt"; content := js "val a = 1";
                              lastModified := 1 |}];
                 currentFile := None; editorCode := js "val a = 1" |})
    /\ Build.generatedCode st2 = List.concat [js "val b"; js " = 2"]
    /\ Build.isCompiling st2 = false.
Proof.
  apply (generated_code_loaded
           {| Build.generatedCode := []; Build.buildLogs := [];
              Build.isGenerating := false; Build.isCompiling := false |}
           {| files := [{| name := js "main.kt"; content := js "val a = 1";
                           lastModified := 1 |}];
              currentFile := None; editorCode := js "val a = 1" |}
           1 (fun i => (js "id", N.of_nat i)) (fun i => (js "id", N.of_nat i))
           (fun _ => 7) true [js "val b"; js " = 2"]
           [provider_stream [js "val b"; js " = 2"] true]).
  - reflexivity.
  - vm_compute. discriminate.
  - vm_compute. discriminate.
  - repeat constructor.
  - repeat constructor.
  - vm_compute. reflexivity.
  - intros body Hbody. vm_compute in Hbody. injection Hbody as <-.
    vm_compute. reflexivity.
Defined.

End Load.

(** ** The key of the app *)

Section AppKey.

Lemma trimStart_suffix (s : jsstring) : exists w, s = w ++ trimStart s.
Proof.
  induction s as [|c s [w IH]]; [exists []; reflexivity|].
  cbn [trimStart]. destruct (is_space c).
  - exists (c :: w). cbn [app]. rewrite <- IH. reflexivity.
  - exists []. reflexivity.
Qed.

Lemma trimStart_head (s : jsstring) :
  match trimStart s with
  | [] => True
  | c :: _ => is_space c = false
  end.
Proof.
  induction s as [|c s IH]; [exact I|].
  cbn [trimStart]. destruct (is_space c) eqn:E; [exact IH|exact E].
Qed.

Lemma trimStart_fixed (s : jsstring) :
  match s with
  | [] => True
  | c :: _ => is_space c = false
  end ->
  trimStart s = s.
Proof. destruct s as [|c s]; [reflexivity|]. cbn [trimStart]. intros ->. reflexivity. Qed.

(** [trim] leaves nothing to trim. *)
Lemma trim_trim (s : jsstring) : trim (trim s) = trim s.
Proof.
  unfold trim at 2 3. unfold trimEnd.
  set (u := trimStart s). set (v := trimStart (rev u)).
  assert (Hv : trimStart v = v) by (apply trimStart_fixed, trimStart_head).
  assert (Hstart : trimStart (rev v) = rev v).
  { apply trimStart_fixed.
    destruct (trimStart_suffix (rev u)) as [w Hw]. fold v in Hw.
    assert (Hu : u = rev v ++ rev w).
    { rewrite <- (rev_involutive u), Hw, rev_app_distr. reflexivity. }
    destruct (rev v) as [|c t]; [exact I|].
    pose proof (trimStart_head s) as Hh. fold u in Hh. rewrite Hu in Hh.
    exact Hh. }
  unfold trim, trimEnd. rewrite Hstart, rev_involutive, Hv. reflexivity.
Qed.

(** X23: the key [handleSave] stores.  A blank key field gives an alert
    and stores nothing.  Otherwise the key stored is the trimmed field:
    it is not empty and has no white space around it.  For a chat request
    made with it the relay sets and flushes the stream headers, whatever
    the key of its environment, and makes the upstream request, with
    that key as bearer, exactly when every code unit of the key is one a
    header value may hold: trimming leaves the inside of the key as it
    is, and for a key with a line feed inside or a code unit above 0xFF
    [https.request] throws and no request is made. *)
Theorem saved_key_is_bearer (st : Keys.state) (chat_st : Chat.state)
  (env_key : option jsstring) :
  match Keys.handleSave st with
  | Keys.Alert _ _ => trim (Keys.inputKey st) = []
  | Keys.Saved st' =>
      let key := Keys.apiKey st' in
      let request := request_for chat (Chat.request_body chat_st key) (JStr key) in
      key = trim (Keys.inputKey st)
      /\ key <> []
      /\ trim key = key
      /\ handler chat (Some (Chat.request_body chat_st key)) env_key
         = (STREAM_HEADERS,
            if forallb header_unit key then Some request else None)
      /\ bearer request = JStr key
  end.
Proof.
  unfold Keys.handleSave.
  destruct (trim (Keys.inputKey st)) as [|c k] eqn:Ek; [reflexivity|].
  cbn [truthy negb Keys.apiKey]. cbv zeta.
  split; [reflexivity|]. split; [discriminate|].
  split; [rewrite <- Ek; apply trim_trim|].
  split; [|reflexivity].
  apply handler_string_key; [discriminate | reflexivity | discriminate | reflexivity].
Qed.

End AppKey.
